(** * VocalCore pitch engine: pitch detection (YIN) and pitch correction (TD-PSOLA)

    A shallow embedding of [pitchDetection] and [pitchCorrection].

    JavaScript numbers are IEEE 754 binary64 values.  They are modelled by
    the Standard Library's executable specification of binary floating
    point ([spec_float], precision 53, emax 1024): every arithmetic
    operation of the source is the correctly rounded operation of that
    specification, with its NaN, infinities and signed zeros.  Numbers that
    the source only ever uses as integers (array indices, lengths, hop and
    window sizes) are [Z]; a number produced by [Math.floor], [Math.ceil]
    or [Math.round] is a [jsint]: an integer, an infinity or NaN.

    Arithmetic on these integers is the exact arithmetic of [Z], as the
    source's is on integers below 2^53 (the length of a typed array is
    below 2^32).

    The functions of the JavaScript runtime that ECMAScript leaves
    implementation-approximated ([Math.log2], [Math.pow], [Math.exp],
    [Math.sin], [Math.cos]) and the conversion of a number to a string are
    parameters of the development.

    A loop whose number of iterations is not known beforehand takes a
    [fuel]: the function answers [OutOfFuel] when the loop has not finished
    within it.  A call that answers [OutOfFuel] for every fuel is a call
    that does not return in the source: its loop does not advance.  Where
    such a loop appends to an array at every iteration ([frames.push],
    [marks.push], [outputMarks.push]) the engine ends it with a
    [RangeError] once the array cannot grow any more; arrays have no
    bound here, so that exception is not an outcome of the embedding, and
    nothing below says of such a call more than that it does not
    return. *)

From Stdlib Require Import ZArith List Bool String Lia PeanoNat.
From Stdlib Require Import Floats.SpecFloat.
From Stdlib Require Reals Lra.
Import ListNotations.
Open Scope Z_scope.

(** ** Binary64 numbers *)

Module JS.

Definition float := spec_float.

Definition prec64 : Z := 53.
Definition emax64 : Z := 1024.

Definition fadd : float -> float -> float := SFadd prec64 emax64.
Definition fsub : float -> float -> float := SFsub prec64 emax64.
Definition fmul : float -> float -> float := SFmul prec64 emax64.
Definition fdiv : float -> float -> float := SFdiv prec64 emax64.
Definition fltb : float -> float -> bool := SFltb.
Definition fleb : float -> float -> bool := SFleb.
Definition fgtb (x y : float) : bool := SFltb y x.
Definition fgeb (x y : float) : bool := SFleb y x.
Definition fabs : float -> float := SFabs.
Definition fopp : float -> float := SFopp.

Definition NaN : float := S754_nan.
Definition pos_zero : float := S754_zero false.

(** An integer as a number (exact below 2^53, rounded to nearest above). *)
Definition of_Z (z : Z) : float := binary_normalize prec64 emax64 z 0 false.

(** A decimal literal [n/d] of the source with [n] and [d] small integers:
    the quotient of two exact integers is correctly rounded, hence it is
    the binary64 value the literal denotes. *)
Definition lit (n d : Z) : float := fdiv (of_Z n) (of_Z d).

(** Integral results of [Math.floor], [Math.ceil], [Math.round]. *)
Inductive jsint : Type :=
| JInt (z : Z)
| JPosInf
| JNegInf
| JNaN.

(** The integer [m * 2^e] rounded down and the remainder information needed
    by the three rounding functions, for [e < 0]. *)
Definition int_part (m : positive) (e : Z) : Z := Z.shiftr (Zpos m) (- e).
Definition frac_part (m : positive) (e : Z) : Z := Z.land (Zpos m) (Z.ones (- e)).

Definition Math_floor (x : float) : jsint :=
  match x with
  | S754_nan => JNaN
  | S754_infinity s => if s then JNegInf else JPosInf
  | S754_zero _ => JInt 0
  | S754_finite s m e =>
      if 0 <=? e then JInt (cond_Zopp s (Z.shiftl (Zpos m) e))
      else
        let q := int_part m e in
        let r := frac_part m e in
        if s then JInt (if r =? 0 then - q else - q - 1) else JInt q
  end.

Definition Math_ceil (x : float) : jsint :=
  match x with
  | S754_nan => JNaN
  | S754_infinity s => if s then JNegInf else JPosInf
  | S754_zero _ => JInt 0
  | S754_finite s m e =>
      if 0 <=? e then JInt (cond_Zopp s (Z.shiftl (Zpos m) e))
      else
        let q := int_part m e in
        let r := frac_part m e in
        if s then JInt (- q) else JInt (if r =? 0 then q else q + 1)
  end.

(** [Math.round]: the nearest integer, a tie going towards +infinity. *)
Definition Math_round (x : float) : jsint :=
  match x with
  | S754_nan => JNaN
  | S754_infinity s => if s then JNegInf else JPosInf
  | S754_zero _ => JInt 0
  | S754_finite s m e =>
      if 0 <=? e then JInt (cond_Zopp s (Z.shiftl (Zpos m) e))
      else
        let q := int_part m e in
        let r := frac_part m e in
        let half := Z.shiftl 1 (- e - 1) in
        if s then JInt (if half <? r then - q - 1 else - q)
        else JInt (if half <=? r then q + 1 else q)
  end.

Definition of_jsint (n : jsint) : float :=
  match n with
  | JInt z => of_Z z
  | JPosInf => S754_infinity false
  | JNegInf => S754_infinity true
  | JNaN => S754_nan
  end.

(** [Math.max] and [Math.min] of an integral number and an integer. *)
Definition jsint_max (a : jsint) (b : Z) : jsint :=
  match a with
  | JInt z => JInt (Z.max z b)
  | JPosInf => JPosInf
  | JNegInf => JInt b
  | JNaN => JNaN
  end.

Definition jsint_min (a : jsint) (b : Z) : jsint :=
  match a with
  | JInt z => JInt (Z.min z b)
  | JPosInf => JInt b
  | JNegInf => JNegInf
  | JNaN => JNaN
  end.

(** *** Float32Array elements

    A store into a [Float32Array] rounds the number to binary32 (round to
    nearest, ties to even); a load widens it back, exactly.  [to_binary32]
    is the rounding of the specification at precision 24 and emax 128;
    [widen] rewrites the result in the binary64 normal form (53-bit
    mantissa), which denotes the same real number. *)
Definition to_binary32 (x : float) : float :=
  match x with
  | S754_finite s m e => binary_round 24 128 s m e
  | _ => x
  end.

Definition widen (x : float) : float :=
  match x with
  | S754_finite s m e =>
      let d := 53 - Zpos (digits2_pos m) in
      match d with
      | Zpos p => S754_finite s (Pos.iter xO m p) (e - d)
      | _ => x
      end
  | _ => x
  end.

Definition fround (x : float) : float := widen (to_binary32 x).

End JS.
Import JS.

(** [Math.floor], [Math.ceil] and [Math.round] as numbers: a zero result
    carries the sign of the argument. *)
Definition with_sign_of (x r : float) : float :=
  match r, x with
  | S754_zero _, S754_zero s => S754_zero s
  | S754_zero _, S754_finite s _ _ => S754_zero s
  | _, _ => r
  end.

Definition Math_floorF (x : float) : float := with_sign_of x (of_jsint (Math_floor x)).
Definition Math_roundF (x : float) : float := with_sign_of x (of_jsint (Math_round x)).

(** ** Outcomes of a call

    A call returns a value, throws (a [RangeError] of a typed-array
    constructor given a negative length), or has not finished within the
    fuel given to its loops.  The [RangeError] of an array that has grown
    past the engine's limit is not modelled: a loop that reaches it is a
    loop that is out of fuel for every fuel. *)
Inductive outcome (A : Type) : Type :=
| Returns (a : A)
| Throws
| OutOfFuel.
Arguments Returns {A} a.
Arguments Throws {A}.
Arguments OutOfFuel {A}.

Definition bind {A B : Type} (o : outcome A) (k : A -> outcome B) : outcome B :=
  match o with
  | Returns a => k a
  | Throws => Throws
  | OutOfFuel => OutOfFuel
  end.

Notation "x <- o ;; k" := (bind o (fun x => k))
  (at level 61, o at next level, right associativity).

(** ** Arrays *)

(** [zrange n] is [0, 1, ..., n-1]; [zrange_from a n] is [a, ..., a+n-1]. *)
Definition zrange_from (a : Z) (n : nat) : list Z := map (fun k => a + Z.of_nat k) (seq 0 n).
Definition zrange (n : nat) : list Z := zrange_from 0 n.

(** A read [a[i]] used as a number: out of range it is [undefined], which
    arithmetic and comparisons treat as NaN. *)
Definition aget (a : list float) (i : Z) : float :=
  if i <? 0 then NaN else nth (Z.to_nat i) a NaN.

(** [a[i] = v] on a typed array: ignored out of range. *)
Fixpoint update_nth {A : Type} (n : nat) (v : A) (l : list A) : list A :=
  match l, n with
  | [], _ => []
  | _ :: t, O => v :: t
  | h :: t, S k => h :: update_nth k v t
  end.

Definition aset (a : list float) (i : Z) (v : float) : list float :=
  if i <? 0 then a else update_nth (Z.to_nat i) v a.

(** [Array.prototype.sort((a, b) => a - b)] on numbers none of which is
    NaN: the comparator is then a consistent order and the sort is stable,
    so its result is determined, and it is the result of the stable
    insertion sort with that comparator, as written here.  With a NaN in
    the array the comparator is inconsistent and the order the engine
    gives is implementation-defined: [js_sort] says nothing of the source
    there, and a statement that depends on the order of a sorted array
    assumes that no element is NaN. *)
Definition cmp_lt (a b : float) : bool := fltb (fsub a b) pos_zero.

Fixpoint insert_sorted (x : float) (l : list float) : list float :=
  match l with
  | [] => [x]
  | y :: t => if cmp_lt x y then x :: y :: t else y :: insert_sorted x t
  end.

Definition js_sort (l : list float) : list float :=
  fold_left (fun acc x => insert_sorted x acc) l [].

(** ** Pitch frames and tracks (pitchDetection) *)

Record PitchFrame : Type := mkFrame {
  time : float;
  frequency : float;
  confidence : float;
  midiNote : float;
  centsOff : float;
  noteName : string;
  voiced : bool
}.

Record PitchTrack : Type := mkTrack {
  frames : list PitchFrame;
  sampleRate : float;
  hopSize : Z;
  medianPitch : float
}.

Definition NOTE_NAMES : list string :=
  ["C"; "C#"; "D"; "D#"; "E"; "F"; "F#"; "G"; "G#"; "A"; "A#"; "B"]%string.

Section Engine.

(** The runtime's implementation-approximated functions. *)
Variables Math_log2 Math_exp Math_sin Math_cos : float -> float.
Variable Math_pow : float -> float -> float.
Variable Number_toString : float -> string.

Definition frequencyToMidi (freq : float) : float :=
  if fleb freq pos_zero then pos_zero
  else fadd (of_Z 69) (fmul (of_Z 12) (Math_log2 (fdiv freq (of_Z 440)))).

Definition midiToFrequency (midi : float) : float :=
  fmul (of_Z 440) (Math_pow (of_Z 2) (fdiv (fsub midi (of_Z 69)) (of_Z 12))).

(** [NOTE_NAMES[roundedMidi % 12]] inside a template literal: a remainder
    that is negative or NaN reads [undefined]. *)
Definition note_index_name (roundedMidi : jsint) : string :=
  match roundedMidi with
  | JInt z =>
      let r := Z.rem z 12 in
      if r <? 0 then "undefined"%string
      else nth (Z.to_nat r) NOTE_NAMES "undefined"%string
  | _ => "undefined"%string
  end.

Definition midiToNoteName (midi : float) : string :=
  let roundedMidi := Math_roundF midi in
  let octave := fsub (Math_floorF (fdiv roundedMidi (of_Z 12))) (of_Z 1) in
  (note_index_name (Math_round midi) ++ Number_toString octave)%string.

Definition getCentsOff (midi : float) : float :=
  fmul (fsub midi (Math_roundF midi)) (of_Z 100).

(** *** YIN, one analysis frame *)

(** Step 1: the difference function, stored in a [Float32Array]. *)
Definition diff_at (signal : list float) (center : Z) (halfWindow : nat) (tau : Z) : float :=
  fold_left
    (fun sum j =>
       let delta := fsub (aget signal (center + j)) (aget signal (center + j + tau)) in
       fadd sum (fmul delta delta))
    (zrange halfWindow) pos_zero.

Definition difference (signal : list float) (center : Z) (halfWindow : nat) : list float :=
  map (fun tau => fround (diff_at signal center halfWindow tau)) (zrange halfWindow).

(** Step 2: the cumulative mean normalized difference, for [tau >= 1]. *)
Fixpoint cmndf_from (diff : list float) (tau : Z) (runningSum : float) : list float :=
  match diff with
  | [] => []
  | d :: rest =>
      let runningSum' := fadd runningSum d in
      fround (fdiv (fmul d (of_Z tau)) runningSum') :: cmndf_from rest (tau + 1) runningSum'
  end.

Definition cmndf_of (diff : list float) : list float :=
  match diff with
  | [] => []
  | _ :: rest => fround (of_Z 1) :: cmndf_from rest 1 pos_zero
  end.

(** Step 3: the walk to the local minimum after the first dip. *)
Fixpoint walk_min (fuel : nat) (cmndf : list float) (searchMax tau : Z) : Z :=
  match fuel with
  | O => tau
  | S fuel' =>
      if (tau + 1 <? searchMax) && fltb (aget cmndf (tau + 1)) (aget cmndf tau)
      then walk_min fuel' cmndf searchMax (tau + 1)
      else tau
  end.

(** The first loop: [(bestTau, bestVal)] after it. *)
Fixpoint first_dip (cmndf : list float) (threshold : float) (searchMax : Z)
    (taus : list Z) : Z * float :=
  match taus with
  | [] => (-1, of_Z 1)
  | tau :: rest =>
      if fltb (aget cmndf tau) threshold then
        let tau' := walk_min (Z.to_nat (searchMax - tau)) cmndf searchMax tau in
        (tau', aget cmndf tau')
      else first_dip cmndf threshold searchMax rest
  end.

(** The fallback loop: the global minimum below the initial [bestVal]. *)
Definition global_min (cmndf : list float) (taus : list Z) (start : Z * float) : Z * float :=
  fold_left
    (fun best tau =>
       if fltb (aget cmndf tau) (snd best) then (tau, aget cmndf tau) else best)
    taus start.

(** The values [searchMin, ..., searchMax - 1] of the two search loops. *)
Definition search_taus (searchMin searchMax : jsint) : list Z :=
  match searchMin, searchMax with
  | JInt a, JInt b => zrange_from a (Z.to_nat (b - a))
  | _, _ => []
  end.

Definition search_max_Z (searchMax : jsint) : Z :=
  match searchMax with JInt b => b | _ => 0 end.

Definition analyse_frame (signal : list float) (sampleRate : float) (halfWindow : nat)
    (threshold : float) (minPeriod maxPeriod : jsint) (center : Z) : PitchFrame :=
  let time := fdiv (of_Z center) sampleRate in
  let diff := difference signal center halfWindow in
  let cmndf := cmndf_of diff in
  let hw := Z.of_nat halfWindow in
  let searchMin := jsint_max minPeriod 2 in
  let searchMax := jsint_min maxPeriod (hw - 1) in
  let taus := search_taus searchMin searchMax in
  let best1 := first_dip cmndf threshold (search_max_Z searchMax) taus in
  let best := if fst best1 <? 0 then global_min cmndf taus best1 else best1 in
  let bestTau := fst best in
  let bestVal := snd best in
  let refinedTau :=
    if (0 <? bestTau) && (bestTau <? hw - 1) then
      let s0 := aget cmndf (bestTau - 1) in
      let s1 := aget cmndf bestTau in
      let s2 := aget cmndf (bestTau + 1) in
      let adjustment :=
        fdiv (fsub s0 s2)
             (fmul (of_Z 2) (fadd (fsub s0 (fmul (of_Z 2) s1)) s2)) in
      if fltb (fabs adjustment) (of_Z 1) then fadd (of_Z bestTau) adjustment
      else of_Z bestTau
    else of_Z bestTau in
  let voiced := fltb bestVal (fmul threshold (of_Z 2)) in
  let frequency :=
    if voiced && fgtb refinedTau pos_zero then fdiv sampleRate refinedTau else pos_zero in
  let midi := frequencyToMidi frequency in
  let confidence := if voiced then fsub (of_Z 1) bestVal else pos_zero in
  {| time := time;
     frequency := frequency;
     confidence := confidence;
     midiNote := Math_roundF midi;
     centsOff := getCentsOff midi;
     noteName := if fgtb frequency pos_zero then midiToNoteName midi else "-"%string;
     voiced := voiced |}.

(** *** The frame loop

    [for (center = 0; center + windowSize < signal.length; center += hopSize)].
    The two typed arrays of a frame have [floor(windowSize / 2)] elements:
    their constructor throws when that is negative. *)
Fixpoint detect_loop (fuel : nat) (signal : list float) (sampleRate : float)
    (hop windowSize : Z) (threshold : float) (minPeriod maxPeriod : jsint)
    (center : Z) : outcome (list PitchFrame) :=
  if center + windowSize <? Z.of_nat (List.length signal) then
    match fuel with
    | O => OutOfFuel
    | S fuel' =>
        if windowSize / 2 <? 0 then Throws
        else
          let f := analyse_frame signal sampleRate (Z.to_nat (windowSize / 2))
                     threshold minPeriod maxPeriod center in
          rest <- detect_loop fuel' signal sampleRate hop windowSize threshold
                    minPeriod maxPeriod (center + hop) ;;
          Returns (f :: rest)
    end
  else Returns [].

Definition median_of_voiced (frames : list PitchFrame) : float :=
  let voicedFreqs := js_sort (map frequency (filter voiced frames)) in
  match voicedFreqs with
  | [] => pos_zero
  | _ => nth (Nat.div (List.length voicedFreqs) 2) voicedFreqs NaN
  end.

Definition detectPitch (fuel : nat) (signal : list float) (sampleRate : float)
    (hop windowSize : Z) (threshold minFreq maxFreq : float) : outcome PitchTrack :=
  let minPeriod := Math_floor (fdiv sampleRate maxFreq) in
  let maxPeriod := Math_ceil (fdiv sampleRate minFreq) in
  fs <- detect_loop fuel signal sampleRate hop windowSize threshold minPeriod maxPeriod 0 ;;
  Returns {| frames := fs; sampleRate := sampleRate; hopSize := hop;
             medianPitch := median_of_voiced fs |}.

(** The default arguments of [detectPitch]. *)
Definition default_hopSize : Z := 256.
Definition default_windowSize : Z := 2048.
Definition default_threshold : float := Eval vm_compute in lit 15 100.
Definition default_minFreq : float := Eval vm_compute in of_Z 60.
Definition default_maxFreq : float := Eval vm_compute in of_Z 1200.

End Engine.

(** ** Frame objects and the smoother (pitchDetection)

    A [PitchFrame[]] holds references to frame objects.  [smoothPitchTrack]
    copies the array of its track ([[...track.frames]]) and then assigns to
    fields of the objects the copy refers to, which are the objects of the
    track itself.  The store of frame objects is therefore explicit: a
    [heap] lists the frame objects by address, and an array of frames is a
    list of addresses.  Every address held by an array is the address of an
    object; [deref] is total, with a default that a well-formed array never
    reads. *)

Definition ref : Type := nat.
Definition heap : Type := list PitchFrame.

Definition unallocated : PitchFrame :=
  {| time := NaN; frequency := NaN; confidence := NaN; midiNote := NaN;
     centsOff := NaN; noteName := "undefined"%string; voiced := false |}.

Definition deref (h : heap) (r : ref) : PitchFrame := nth r h unallocated.

(** The frames an array refers to, read from the store. *)
Definition read_frames (h : heap) (arr : list ref) : list PitchFrame :=
  map (deref h) arr.

(** Fresh objects for a list of frame values: the store they make and the
    array that refers to them, in order. *)
Definition alloc_frames (fs : list PitchFrame) : heap * list ref :=
  (fs, seq 0 (List.length fs)).

Section Smoother.

Variable Math_log2 : float -> float.
Variable Number_toString : float -> string.

(** The voiced frequencies of the frames [max(0, i - halfWin) ..
    min(frames.length - 1, i + halfWin)], as the store holds them when
    frame [i] is processed. *)
Definition neighborhood_of (h : heap) (frames : list ref) (halfWin i : Z) : list float :=
  let lo := Z.max 0 (i - halfWin) in
  let hi := Z.min (Z.of_nat (List.length frames) - 1) (i + halfWin) in
  flat_map
    (fun j =>
       let f := deref h (nth (Z.to_nat j) frames O) in
       if voiced f then [frequency f] else [])
    (zrange_from lo (Z.to_nat (hi - lo + 1))).

Definition median_of (neighborhood : list float) : float :=
  let sorted := js_sort neighborhood in
  nth (Nat.div (List.length sorted) 2) sorted NaN.

(** The octave correction of one frequency against the median. *)
Definition octave_correct (freq medianFreq : float) : float :=
  let ratio := fdiv freq medianFreq in
  if fgtb ratio (lit 3 2) then fdiv freq (of_Z 2)
  else if fltb ratio (lit 67 100) then fmul freq (of_Z 2)
  else freq.

(** The assignments to [frames[i]] when the neighbourhood has at least
    three entries. *)
Definition corrected_frame (neighborhood : list float) (f : PitchFrame) : PitchFrame :=
  let freq' := octave_correct (frequency f) (median_of neighborhood) in
  let midi := frequencyToMidi Math_log2 freq' in
  {| time := time f;
     frequency := freq';
     confidence := confidence f;
     midiNote := Math_roundF midi;
     centsOff := getCentsOff midi;
     noteName := midiToNoteName Number_toString midi;
     voiced := voiced f |}.

(** One iteration of the loop over [i]. *)
Definition smooth_at (frames : list ref) (halfWin : Z) (h : heap) (i : nat) : heap :=
  let r := nth i frames O in
  let f := deref h r in
  if voiced f then
    let neighborhood := neighborhood_of h frames halfWin (Z.of_nat i) in
    if (3 <=? List.length neighborhood)%nat
    then update_nth r (corrected_frame neighborhood f) h
    else h
  else h.

(** [smoothPitchTrack]: the store after the call and the returned array,
    a copy of the track's array (the same addresses). *)
Definition smoothPitchTrack (h : heap) (track_frames : list ref) (medianWindowSize : Z)
    : heap * list ref :=
  let frames := track_frames in
  let halfWin := medianWindowSize / 2 in
  (fold_left (smooth_at frames halfWin) (seq 0 (List.length frames)) h, frames).

Definition default_medianWindowSize : Z := 5.

End Smoother.

(** ** Pitch correction (pitchCorrection) *)

Record CorrectionParams : Type := mkParams {
  retuneSpeed : float;
  humanize : float;
  tuneAmount : float
}.

(** [Math.PI], the binary64 number nearest to pi. *)
Definition Math_PI : float := S754_finite false 7074237752028440 (-51).

Definition neg_infinity : float := S754_infinity true.

(** The small epsilon of the normalisation, the literal [0.001]. *)
Definition envelope_epsilon : float := Eval vm_compute in lit 1 1000.

Section Correction.

Variables Math_log2 Math_exp Math_sin Math_cos : float -> float.
Variable Math_pow : float -> float -> float.
Variable Number_toString : float -> string.

(** *** Target pitches *)

(** The vibrato and drift offsets that humanize adds, in semitones. *)
Definition vibrato (humanizeAmount frame_time : float) : float :=
  let vibratoRate := fadd (lit 9 2) (fmul humanizeAmount (of_Z 2)) in
  let vibratoDepth := fmul humanizeAmount (of_Z 15) in
  fdiv (fmul (Math_sin (fmul (fmul (fmul (of_Z 2) Math_PI) vibratoRate) frame_time))
             vibratoDepth)
       (of_Z 100).

Definition drift (humanizeAmount : float) (i : Z) : float :=
  let maxHumanizeCents := fmul humanizeAmount (of_Z 30) in
  fdiv (fmul (fmul (Math_sin (fmul (of_Z i) (lit 1 10)))
                   (Math_cos (fmul (of_Z i) (lit 37 1000))))
             maxHumanizeCents)
       (of_Z 100).

Definition retune_alpha (sampleRate : float) (hopSize : Z) (params : CorrectionParams) : float :=
  let hopDuration := fdiv (of_Z hopSize) sampleRate in
  let retuneTimeSec := fdiv (retuneSpeed params) (of_Z 1000) in
  if fgtb retuneTimeSec pos_zero
  then fsub (of_Z 1) (Math_exp (fdiv (fopp hopDuration) retuneTimeSec))
  else of_Z 1.

(** The state carried from frame to frame. *)
Record retune_state : Type := mkRetune {
  currentCorrectedMidi : float;
  initialized : bool
}.

(** One iteration of the loop: the state after it and [targets[i]]. *)
Definition target_step (alpha humanizeAmount : float) (st : retune_state)
    (i : Z) (frame : PitchFrame) : retune_state * float :=
  if negb (voiced frame) || fleb (frequency frame) pos_zero then (st, pos_zero)
  else
    let originalMidi := frequencyToMidi Math_log2 (frequency frame) in
    let targetMidi := Math_roundF originalMidi in
    let current0 := if initialized st then currentCorrectedMidi st else targetMidi in
    let current := fadd current0 (fmul alpha (fsub targetMidi current0)) in
    let humanizedMidi :=
      if fgtb humanizeAmount pos_zero
      then fadd current (fadd (vibrato humanizeAmount (time frame)) (drift humanizeAmount i))
      else current in
    (mkRetune current true, midiToFrequency Math_pow humanizedMidi).

Fixpoint target_loop (alpha humanizeAmount : float) (st : retune_state) (i : Z)
    (frames : list PitchFrame) : list float :=
  match frames with
  | [] => []
  | frame :: rest =>
      let '(st', target) := target_step alpha humanizeAmount st i frame in
      target :: target_loop alpha humanizeAmount st' (i + 1) rest
  end.

Definition computeTargetPitches (frames : list PitchFrame) (sampleRate : float)
    (hopSize : Z) (params : CorrectionParams) : list float :=
  let alpha := retune_alpha sampleRate hopSize params in
  let humanizeAmount := fdiv (humanize params) (of_Z 100) in
  target_loop alpha humanizeAmount (mkRetune pos_zero false) 0 frames.

(** *** Pitch marks *)

(** The scan [for (j = lo; j < hi; j++) if (Math.abs(signal[j]) > best) ...]
    shared by the anchor search and the refinement: the position of the
    first largest magnitude, [start] when the range is empty. *)
Definition peak_scan (signal : list float) (lo hi start : Z) : Z :=
  snd (fold_left
         (fun best j =>
            if fgtb (fabs (aget signal j)) (fst best)
            then (fabs (aget signal j), j) else best)
         (zrange_from lo (Z.to_nat (hi - lo)))
         (neg_infinity, start)).

(** The anchor: the first mark, for a frame of period [period]. *)
Definition anchor_mark (signal : list float) (period : jsint) (frameStart : Z) : Z :=
  let len := Z.of_nat (List.length signal) in
  match period with
  | JInt p => peak_scan signal frameStart (Z.min (frameStart + p) len) frameStart
  | JPosInf => peak_scan signal frameStart len frameStart
  | JNegInf | JNaN => frameStart
  end.

(** The [while] loop that places marks one period after another. *)
Fixpoint place_marks (fuel : nat) (signal : list float) (p frameEnd : Z)
    (marks : list Z) (nextMark : Z) : outcome (list Z) :=
  let len := Z.of_nat (List.length signal) in
  if (nextMark <? frameEnd) && (nextMark <? len) then
    match fuel with
    | O => OutOfFuel
    | S fuel' =>
        let searchRadius := p / 4 in
        let bestPos :=
          peak_scan signal (Z.max 0 (nextMark - searchRadius))
            (Z.min len (nextMark + searchRadius)) nextMark in
        place_marks fuel' signal p frameEnd (marks ++ [bestPos]) (bestPos + p)
    end
  else Returns marks.

(** One iteration of the loop over the frames.  The test
    [lastMark + period < frameEnd + period] is the source's, on binary64
    sums: for a period of magnitude 2^53 or more both sums may round to
    the same number, and the test fails where [lastMark < frameEnd]. *)
Definition marks_step (fuel : nat) (signal : list float) (sampleRate : float)
    (hopSize : Z) (marks : list Z) (i : Z) (frame : PitchFrame) : outcome (list Z) :=
  if negb (voiced frame) || fleb (frequency frame) pos_zero then Returns marks
  else
    let len := Z.of_nat (List.length signal) in
    let period := Math_round (fdiv sampleRate (frequency frame)) in
    let frameStart := i * hopSize in
    let frameEnd := Z.min (frameStart + hopSize) len in
    let marks1 :=
      match marks with
      | [] => [anchor_mark signal period frameStart]
      | _ => marks
      end in
    let lastMark := last marks1 0 in
    match period with
    | JInt p =>
        if fltb (fadd (of_Z lastMark) (of_Z p)) (fadd (of_Z frameEnd) (of_Z p))
        then place_marks fuel signal p frameEnd marks1 (lastMark + p)
        else Returns marks1
    | _ => Returns marks1
    end.

Fixpoint marks_loop (fuel : nat) (signal : list float) (sampleRate : float)
    (hopSize : Z) (marks : list Z) (i : Z) (frames : list PitchFrame)
    : outcome (list Z) :=
  match frames with
  | [] => Returns marks
  | frame :: rest =>
      marks' <- marks_step fuel signal sampleRate hopSize marks i frame ;;
      marks_loop fuel signal sampleRate hopSize marks' (i + 1) rest
  end.

Definition findPitchMarks (fuel : nat) (signal : list float) (frames : list PitchFrame)
    (sampleRate : float) (hopSize : Z) : outcome (list Z) :=
  marks_loop fuel signal sampleRate hopSize [] 0 frames.

End Correction.

Section Resynthesis.

Variables Math_log2 Math_exp Math_sin Math_cos : float -> float.
Variable Math_pow : float -> float -> float.
Variable Number_toString : float -> string.

(** *** TD-PSOLA *)

(** [getFrameIndex]:
    [Math.min(frames.length - 1, Math.max(0, Math.floor(samplePos / hopSize)))]. *)
Definition getFrameIndex (nframes hopSize : Z) (samplePos : float) : jsint :=
  jsint_min (jsint_max (Math_floor (fdiv samplePos (of_Z hopSize))) 0) (nframes - 1).

(** An array read at an integral number; [undefined] reads as NaN. *)
Definition aget_jsint (a : list float) (k : jsint) : float :=
  match k with
  | JInt z => aget a z
  | _ => NaN
  end.

(** [!x] for a number or [undefined]. *)
Definition falsy (x : float) : bool :=
  match x with
  | S754_zero _ | S754_nan => true
  | _ => false
  end.

(** The loop that generates the output marks after the first one. *)
Fixpoint output_marks_loop (fuel : nat) (len nframes hopSize : Z) (targetFreqs : list float)
    (sampleRate : float) (pos : float) (outputMarks : list jsint) : outcome (list jsint) :=
  if fltb pos (of_Z len) then
    match fuel with
    | O => OutOfFuel
    | S fuel' =>
        let frameIdx := getFrameIndex nframes hopSize pos in
        let targetFreq := aget_jsint targetFreqs frameIdx in
        if falsy targetFreq || fleb targetFreq pos_zero then
          output_marks_loop fuel' len nframes hopSize targetFreqs sampleRate
            (fadd pos (of_Z hopSize)) outputMarks
        else
          let targetPeriod := fdiv sampleRate targetFreq in
          let pos' := fadd pos targetPeriod in
          output_marks_loop fuel' len nframes hopSize targetFreqs sampleRate pos'
            (if fltb pos' (of_Z len) then outputMarks ++ [Math_round pos'] else outputMarks)
    end
  else Returns outputMarks.

(** The search for the nearest input mark from index [j] on:
    [(minDist, nearestInputMark, inputMarkIdx)]. *)
Fixpoint nearest_scan (outPos : Z) (marks_from_j : list Z) (j : Z) (st : Z * Z * Z)
    : Z * Z * Z :=
  match marks_from_j with
  | [] => st
  | m :: rest =>
      let '(minDist, nearest, idx) := st in
      let dist := Z.abs (outPos - m) in
      if dist <? minDist then nearest_scan outPos rest (j + 1) (dist, m, j)
      else if minDist <? dist then st
      else nearest_scan outPos rest (j + 1) st
  end.

(** The Hann window at offset [j] of a grain of half-length [p]. *)
Definition hann (p j : Z) : float :=
  let t := fdiv (of_Z (j + p)) (of_Z (p * 2)) in
  fmul (lit 1 2) (fsub (of_Z 1) (Math_cos (fmul (fmul (of_Z 2) Math_PI) t))).

(** The two accumulation buffers. *)
Record buffers : Type := mkBuffers {
  out_buf : list float;
  env_buf : list float
}.

(** One sample of one grain. *)
Definition add_grain_sample (signal : list float) (nearestInputMark outPos p : Z)
    (b : buffers) (j : Z) : buffers :=
  let len := Z.of_nat (List.length signal) in
  let inIdx := nearestInputMark + j in
  let outIdx := outPos + j in
  if (inIdx <? 0) || (len <=? inIdx) then b
  else if (outIdx <? 0) || (len <=? outIdx) then b
  else
    let window := hann p j in
    {| out_buf := aset (out_buf b) outIdx
                    (fround (fadd (aget (out_buf b) outIdx)
                                  (fmul (aget signal inIdx) window)));
       env_buf := aset (env_buf b) outIdx
                    (fround (fadd (aget (env_buf b) outIdx) window)) |}.

(** The body of the loop over the output marks: the buffers and
    [inputMarkIdx] after it.  The loop over the grain runs [j] from
    [-period] to [period - 1] by [j++]: it never ends for an infinite
    period, nor for a period above 2^53, where [j] stops at 2^53
    ([2^53 + 1] rounds back to [2^53]). *)
Definition place_grain (signal : list float) (pitchMarks : list Z)
    (frames : list PitchFrame) (sampleRate : float) (hopSize : Z)
    (st : buffers * Z) (outMark : jsint) : outcome (buffers * Z) :=
  let '(b, inputMarkIdx) := st in
  let mark0 := nth 0 pitchMarks 0 in
  let '(nearestInputMark, inputMarkIdx') :=
    match outMark with
    | JInt outPos =>
        let '(_, nearest, idx) :=
          nearest_scan outPos (skipn (Z.to_nat inputMarkIdx) pitchMarks) inputMarkIdx
            (Z.abs (outPos - mark0), mark0, inputMarkIdx) in
        (nearest, idx)
    | _ => (mark0, inputMarkIdx)
    end in
  let frameIdx :=
    getFrameIndex (Z.of_nat (List.length frames)) hopSize (of_Z nearestInputMark) in
  let origFreq := aget_jsint (map frequency frames) frameIdx in
  if falsy origFreq || fleb origFreq pos_zero then Returns (b, inputMarkIdx')
  else
    match Math_round (fdiv sampleRate origFreq) with
    | JInt p =>
        if 2 ^ 53 <? p then OutOfFuel
        else
          match outMark with
          | JInt outPos =>
              Returns
                (fold_left (add_grain_sample signal nearestInputMark outPos p)
                   (zrange_from (- p) (Z.to_nat (2 * p))) b,
                 inputMarkIdx')
          | _ => Returns (b, inputMarkIdx')
          end
    | JPosInf => OutOfFuel
    | _ => Returns (b, inputMarkIdx')
    end.

Fixpoint grains_loop (signal : list float) (pitchMarks : list Z)
    (frames : list PitchFrame) (sampleRate : float) (hopSize : Z)
    (st : buffers * Z) (outputMarks : list jsint) : outcome (buffers * Z) :=
  match outputMarks with
  | [] => Returns st
  | outMark :: rest =>
      st' <- place_grain signal pitchMarks frames sampleRate hopSize st outMark ;;
      grains_loop signal pitchMarks frames sampleRate hopSize st' rest
  end.

(** The buffers after all grains are placed, before normalisation. *)
Definition psola_accumulate (fuel : nat) (signal : list float) (pitchMarks : list Z)
    (frames : list PitchFrame) (targetFreqs : list float) (sampleRate : float)
    (hopSize : Z) : outcome buffers :=
  let n := List.length signal in
  let len := Z.of_nat n in
  let mark0 := nth 0 pitchMarks 0 in
  outputMarks <- output_marks_loop fuel len (Z.of_nat (List.length frames)) hopSize
                   targetFreqs sampleRate (of_Z mark0) [JInt mark0] ;;
  st <- grains_loop signal pitchMarks frames sampleRate hopSize
          (mkBuffers (repeat pos_zero n) (repeat pos_zero n), 0) outputMarks ;;
  Returns (fst st).

(** The normalisation of one output sample. *)
Definition normalize_sample (s o e : float) : float :=
  if fgtb e envelope_epsilon then fround (fdiv o e) else fround s.

Definition normalize (signal : list float) (b : buffers) : list float :=
  map (fun i => normalize_sample (aget signal i) (aget (out_buf b) i) (aget (env_buf b) i))
      (zrange (List.length (out_buf b))).

Definition psolaShift (fuel : nat) (signal : list float) (pitchMarks : list Z)
    (frames : list PitchFrame) (targetFreqs : list float) (sampleRate : float)
    (hopSize : Z) : outcome (list float) :=
  if (List.length pitchMarks <? 2)%nat then Returns signal
  else
    b <- psola_accumulate fuel signal pitchMarks frames targetFreqs sampleRate hopSize ;;
    Returns (normalize signal b).

(** *** The orchestrator *)

Definition mix (wetAmount dryAmount : float) (signal corrected : list float) : list float :=
  map (fun i => fround (fadd (fmul (aget corrected i) wetAmount)
                             (fmul (aget signal i) dryAmount)))
      (zrange (List.length signal)).

Definition correctPitch (fuel : nat) (inputSignal : list float) (sampleRate : float)
    (params : CorrectionParams) : outcome (list float) :=
  if fleb (tuneAmount params) pos_zero then Returns inputSignal
  else
    let hopSize := 256 in
    let windowSize := 2048 in
    pitchTrack <- detectPitch Math_log2 Number_toString fuel inputSignal sampleRate
                    hopSize windowSize default_threshold default_minFreq default_maxFreq ;;
    let '(h0, track_frames) := alloc_frames (frames pitchTrack) in
    let '(h1, smoothed) :=
      smoothPitchTrack Math_log2 Number_toString h0 track_frames default_medianWindowSize in
    let smoothedFrames := read_frames h1 smoothed in
    let targetFreqs :=
      computeTargetPitches Math_log2 Math_exp Math_sin Math_cos Math_pow
        smoothedFrames sampleRate hopSize params in
    pitchMarks <- findPitchMarks fuel inputSignal smoothedFrames sampleRate hopSize ;;
    corrected <- psolaShift fuel inputSignal pitchMarks smoothedFrames targetFreqs
                   sampleRate hopSize ;;
    let wetAmount := fdiv (tuneAmount params) (of_Z 100) in
    let dryAmount := fsub (of_Z 1) wetAmount in
    Returns (mix wetAmount dryAmount inputSignal corrected).

Definition hardTune (fuel : nat) (inputSignal : list float) (sampleRate : float)
    : outcome (list float) :=
  correctPitch fuel inputSignal sampleRate
    {| retuneSpeed := pos_zero; humanize := pos_zero; tuneAmount := of_Z 100 |}.

End Resynthesis.

(** ** Inputs for the examples

    Stand-ins for the runtime's functions, enough to run the code on the
    examples below; no result depends on what they compute. *)

Definition stub_fn (x : float) : float := x.
Definition stub_pow (x y : float) : float := x.
Definition stub_toString (x : float) : string := EmptyString.
Definition flat_cos (x : float) : float := pos_zero.

Definition voiced_frame (hz : Z) : PitchFrame :=
  {| time := pos_zero; frequency := of_Z hz; confidence := of_Z 1;
     midiNote := pos_zero; centsOff := pos_zero; noteName := "-"%string;
     voiced := true |}.

Definition unvoiced_frame : PitchFrame :=
  {| time := pos_zero; frequency := pos_zero; confidence := pos_zero;
     midiNote := pos_zero; centsOff := pos_zero; noteName := "-"%string;
     voiced := false |}.

(** A track of three voiced frames at 400, 140 and 210 Hz, each a distinct
    object. *)
Definition three_frames : heap := [voiced_frame 400; voiced_frame 140; voiced_frame 210].
Definition three_frames_track : list ref := [0; 1; 2]%nat.

(** Twelve samples with peaks at 1, 5 and 9, and one voiced frame per hop
    of 4 samples, at 2 Hz for a sample rate of 8 Hz (a period of 4). *)
Definition pulse_signal : list float :=
  map (fun k => if (k mod 4 =? 1)%nat then of_Z 1 else pos_zero) (seq 0 12).
Definition pulse_frames : list PitchFrame :=
  [voiced_frame 2; voiced_frame 2; voiced_frame 2].
Definition pulse_marks : list Z := [1; 5; 9].
Definition pulse_targets : list float := [of_Z 2; of_Z 2; of_Z 2].

(** Two samples, and parameters that blend at 50%. *)
Definition two_samples : list float := [lit 1 2; lit (-1) 4].
Definition half_wet : CorrectionParams :=
  {| retuneSpeed := of_Z 20; humanize := of_Z 10; tuneAmount := of_Z 50 |}.

(** Sixteen samples alternating between 1 and -1 (a period of two
    samples), and the track [detectPitch] returns for them at a sample
    rate of 8 Hz with a hop of 4, a window of 8 and a band of 1 to 4 Hz:
    two voiced frames. *)
Definition zigzag : list float :=
  map (fun k => if Nat.even k then of_Z 1 else of_Z (-1)) (seq 0 16).

Definition zigzag_track : PitchTrack :=
  Eval vm_compute in
    match detectPitch stub_fn stub_toString 16 zigzag (of_Z 8) 4 8
            default_threshold (of_Z 1) (of_Z 4) with
    | Returns track => track
    | _ => {| frames := []; sampleRate := NaN; hopSize := 0; medianPitch := NaN |}
    end.

(** ** The frame loop of [detectPitch] *)

(** The number of iterations of the frame loop from [center], for a signal
    of [len] samples. *)
Definition frames_from (len windowSize hop center : Z) : nat :=
  Z.to_nat (if center + windowSize <? len
            then (len - windowSize - center - 1) / hop + 1 else 0).

Definition frame_centers (hop center : Z) (n : nat) : list Z :=
  map (fun k => center + hop * Z.of_nat k) (seq 0 n).

Lemma frames_from_step (len windowSize hop center : Z) :
  0 < hop -> center + windowSize < len ->
  frames_from len windowSize hop center
  = S (frames_from len windowSize hop (center + hop)).
Proof.
  intros Hhop Hlt. unfold frames_from.
  destruct (Z.ltb_spec (center + windowSize) len) as [_|]; [|lia].
  destruct (Z.ltb_spec (center + hop + windowSize) len) as [Hnext|Hlast].
  - replace (len - windowSize - center - 1)
      with ((len - windowSize - (center + hop) - 1) + 1 * hop) by lia.
    rewrite Z.div_add by lia.
    assert (0 <= (len - windowSize - (center + hop) - 1) / hop)
      by (apply Z.div_pos; lia).
    rewrite <- Z2Nat.inj_succ by lia. f_equal; lia.
  - rewrite Z.div_small by lia. reflexivity.
Qed.

Lemma frame_centers_step (hop center : Z) (n : nat) :
  frame_centers hop center (S n) = center :: frame_centers hop (center + hop) n.
Proof.
  unfold frame_centers. rewrite <- cons_seq, <- seq_shift. simpl.
  rewrite map_map. f_equal; [lia|].
  apply map_ext. intros k. lia.
Qed.

Section DetectLoop.

Variable Math_log2 : float -> float.
Variable Number_toString : float -> string.
Variables (signal : list float) (sampleRate : float) (hop windowSize : Z).
Variables (threshold : float) (minPeriod maxPeriod : jsint).

Let len := Z.of_nat (List.length signal).
Let analyse :=
  analyse_frame Math_log2 Number_toString signal sampleRate
    (Z.to_nat (windowSize / 2)) threshold minPeriod maxPeriod.

(** With a positive hop and a non-negative window the loop returns, within
    a fuel of the signal's length, one frame per centre. *)
Lemma detect_loop_returns (fuel : nat) (center : Z) :
  0 < hop -> 0 <= windowSize ->
  len - windowSize - center <= Z.of_nat fuel ->
  detect_loop Math_log2 Number_toString fuel signal sampleRate hop windowSize
    threshold minPeriod maxPeriod center
  = Returns (map analyse
               (frame_centers hop center (frames_from len windowSize hop center))).
Proof.
  intros Hhop Hwin. revert center.
  induction fuel as [|fuel IH]; intros center Hfuel; simpl; fold len.
  - destruct (Z.ltb_spec (center + windowSize) len) as [Hlt|Hge]; [lia|].
    unfold frames_from.
    destruct (Z.ltb_spec (center + windowSize) len); [lia|]. reflexivity.
  - destruct (Z.ltb_spec (center + windowSize) len) as [Hlt|Hge].
    + assert (Hhalf : 0 <= windowSize / 2) by (apply Z.div_pos; lia).
      destruct (Z.ltb_spec (windowSize / 2) 0) as [|_]; [lia|].
      rewrite IH by lia. simpl.
      rewrite (frames_from_step len windowSize hop center) by lia.
      rewrite frame_centers_step. reflexivity.
    + unfold frames_from.
      destruct (Z.ltb_spec (center + windowSize) len); [lia|]. reflexivity.
Qed.

End DetectLoop.

(** [detectPitch] returns, and the number of its frames. *)
Lemma detectPitch_returns
    (Math_log2 : float -> float) (Number_toString : float -> string)
    (fuel : nat) (signal : list float) (sampleRate : float) (hop windowSize : Z)
    (threshold minFreq maxFreq : float) :
  0 < hop -> 0 <= windowSize -> (List.length signal <= fuel)%nat ->
  exists track,
    detectPitch Math_log2 Number_toString fuel signal sampleRate hop windowSize
      threshold minFreq maxFreq = Returns track /\
    List.length (frames track)
    = frames_from (Z.of_nat (List.length signal)) windowSize hop 0 /\
    medianPitch track = median_of_voiced (frames track).
Proof.
  intros Hhop Hwin Hfuel. unfold detectPitch.
  rewrite detect_loop_returns by lia. cbn [bind].
  eexists. split; [reflexivity|]. cbn [frames medianPitch].
  split; [|reflexivity].
  rewrite length_map. unfold frame_centers. rewrite length_map, length_seq.
  reflexivity.
Qed.

(** ** Silence: an all-zero signal *)

Definition is_zero (x : float) : Prop :=
  match x with S754_zero _ => True | _ => False end.

Definition zero_or_nan (x : float) : Prop :=
  match x with S754_zero _ | S754_nan => True | _ => False end.

Lemma aget_zero_or_nan (signal : list float) (i : Z) :
  Forall is_zero signal -> zero_or_nan (aget signal i).
Proof.
  intros Hz. unfold aget. destruct (i <? 0); [exact I|].
  destruct (nth_in_or_default (Z.to_nat i) signal NaN) as [Hin|Hd].
  - rewrite Forall_forall in Hz. specialize (Hz _ Hin).
    destruct (nth (Z.to_nat i) signal NaN); simpl in *; tauto.
  - rewrite Hd. exact I.
Qed.

Lemma fsub_zero_or_nan (a b : float) :
  zero_or_nan a -> zero_or_nan b -> zero_or_nan (fsub a b).
Proof. destruct a as [[]|[]| |[]], b as [[]|[]| |[]]; simpl; tauto. Qed.

Lemma fadd_zero_or_nan (a b : float) :
  zero_or_nan a -> zero_or_nan b -> zero_or_nan (fadd a b).
Proof. destruct a as [[]|[]| |[]], b as [[]|[]| |[]]; simpl; tauto. Qed.

Lemma fmul_zero_or_nan_l (a x : float) :
  zero_or_nan a -> zero_or_nan (fmul a x).
Proof. destruct a as [[]|[]| |[]], x as [[]|[]| |[]]; simpl; tauto. Qed.

Lemma fdiv_zero_or_nan (a b : float) :
  zero_or_nan a -> zero_or_nan b -> fdiv a b = NaN.
Proof. destruct a as [[]|[]| |[]], b as [[]|[]| |[]]; simpl; tauto. Qed.

Lemma fround_zero_or_nan (x : float) : zero_or_nan x -> fround x = x.
Proof. destruct x; simpl; tauto. Qed.

Lemma diff_at_zero_or_nan (signal : list float) (center : Z) (halfWindow : nat) (tau : Z) :
  Forall is_zero signal -> zero_or_nan (diff_at signal center halfWindow tau).
Proof.
  intros Hz. unfold diff_at.
  assert (H0 : zero_or_nan pos_zero) by exact I.
  revert H0. generalize pos_zero. generalize (zrange halfWindow).
  induction l as [|j l IH]; intros acc Hacc; simpl; [exact Hacc|].
  apply IH. apply fadd_zero_or_nan; [exact Hacc|].
  apply fmul_zero_or_nan_l, fsub_zero_or_nan; apply aget_zero_or_nan; exact Hz.
Qed.

Lemma difference_zero_or_nan (signal : list float) (center : Z) (halfWindow : nat) :
  Forall is_zero signal -> Forall zero_or_nan (difference signal center halfWindow).
Proof.
  intros Hz. unfold difference. apply Forall_map, Forall_forall. intros tau _.
  rewrite fround_zero_or_nan; apply diff_at_zero_or_nan; exact Hz.
Qed.

(** The zero running sum makes every normalised entry [0 * tau / 0], NaN. *)
Lemma cmndf_from_nan (diff : list float) :
  Forall zero_or_nan diff ->
  forall (tau : Z) (runningSum : float), zero_or_nan runningSum ->
  Forall (eq NaN) (cmndf_from diff tau runningSum).
Proof.
  induction 1 as [|d rest Hd _ IH]; intros tau rs Hrs; simpl; constructor.
  - rewrite fdiv_zero_or_nan; [reflexivity| |].
    + apply fmul_zero_or_nan_l; exact Hd.
    + apply fadd_zero_or_nan; assumption.
  - apply IH, fadd_zero_or_nan; assumption.
Qed.

Lemma nth_all_nan (l : list float) (n : nat) :
  Forall (eq NaN) l -> nth n l NaN = NaN.
Proof.
  intros Hl. destruct (nth_in_or_default n l NaN) as [Hin|Hd]; [|exact Hd].
  rewrite Forall_forall in Hl. symmetry. apply Hl, Hin.
Qed.

Lemma aget_cmndf_nan (diff : list float) (tau : Z) :
  Forall zero_or_nan diff -> 1 <= tau -> aget (cmndf_of diff) tau = NaN.
Proof.
  intros Hd Htau. unfold aget.
  destruct (Z.ltb_spec tau 0); [lia|].
  destruct diff as [|d rest]; simpl.
  - destruct (Z.to_nat tau); reflexivity.
  - destruct (Z.to_nat tau) as [|n] eqn:E; [lia|].
    apply nth_all_nan, cmndf_from_nan; [|exact I].
    inversion Hd; assumption.
Qed.

Lemma first_dip_silent (cmndf : list float) (threshold : float) (searchMax : Z)
    (taus : list Z) :
  Forall (fun tau => aget cmndf tau = NaN) taus ->
  first_dip cmndf threshold searchMax taus = (-1, of_Z 1).
Proof.
  induction 1 as [|tau rest Htau _ IH]; simpl; [reflexivity|].
  rewrite Htau. simpl. exact IH.
Qed.

Lemma global_min_silent (cmndf : list float) (taus : list Z) (start : Z * float) :
  Forall (fun tau => aget cmndf tau = NaN) taus ->
  global_min cmndf taus start = start.
Proof.
  unfold global_min. intros H. revert start.
  induction H as [|tau rest Htau _ IH]; intros start; simpl; [reflexivity|].
  rewrite Htau. simpl. apply IH.
Qed.

Lemma search_taus_ge_2 (minPeriod searchMax : jsint) :
  Forall (fun tau => 2 <= tau) (search_taus (jsint_max minPeriod 2) searchMax).
Proof.
  unfold search_taus.
  destruct minPeriod as [a| | |]; simpl; try constructor;
    destruct searchMax as [b| | |]; try constructor.
  - unfold zrange_from. apply Forall_map, Forall_forall. intros k _. lia.
  - unfold zrange_from. apply Forall_map, Forall_forall. intros k _. lia.
Qed.

Section Silence.

Variable Math_log2 : float -> float.
Variable Number_toString : float -> string.

(** A frame of silence: no dip is found, [bestTau] stays [-1] and [bestVal]
    stays [1]. *)
Lemma analyse_frame_silent (signal : list float) (sampleRate : float) (halfWindow : nat)
    (threshold : float) (minPeriod maxPeriod : jsint) (center : Z) :
  Forall is_zero signal ->
  let f := analyse_frame Math_log2 Number_toString signal sampleRate halfWindow
             threshold minPeriod maxPeriod center in
  frequency f = pos_zero /\
  voiced f = fltb (of_Z 1) (fmul threshold (of_Z 2)).
Proof.
  intros Hz.
  assert (Htaus : Forall (fun tau => aget (cmndf_of (difference signal center halfWindow)) tau = NaN)
            (search_taus (jsint_max minPeriod 2)
               (jsint_min maxPeriod (Z.of_nat halfWindow - 1)))).
  { eapply Forall_impl; [|apply search_taus_ge_2].
    intros tau Htau. cbv beta in Htau. apply aget_cmndf_nan; [|lia].
    apply difference_zero_or_nan, Hz. }
  unfold analyse_frame. cbv zeta.
  rewrite (first_dip_silent _ _ _ _ Htaus).
  cbn [fst snd]. change (-1 <? 0) with true. cbv iota.
  rewrite (global_min_silent _ _ _ Htaus).
  cbn [fst snd frequency voiced].
  change (0 <? -1) with false. cbn [andb].
  split; [|reflexivity].
  change (fgtb (of_Z (-1)) pos_zero) with false.
  rewrite andb_false_r. reflexivity.
Qed.

End Silence.

(** ** Binary32 values never equal the literal 0.001

    The mantissa of a number stored in a [Float32Array] has at most 24
    significant bits; widened to binary64 its low 29 bits are zero.  The
    mantissa of the binary64 literal [0.001] is not a multiple of [2^29]. *)

Lemma Zdigits2_div2 (m : Z) :
  0 <= m -> Zdigits2 (Z.div2 m) = Z.max 0 (Zdigits2 m - 1).
Proof.
  destruct m as [|[p|p|]|p]; intros Hm; try lia;
    cbn [Z.div2 Pos.div2 Zdigits2 digits2_pos]; rewrite ?Pos2Z.inj_succ; lia.
Qed.

Lemma shr_1_m (mrs : shr_record) :
  0 <= shr_m mrs -> shr_m (shr_1 mrs) = Z.div2 (shr_m mrs).
Proof.
  destruct mrs as [m r s]. simpl. destruct m as [|[p|p|]|p]; intros Hm; simpl;
    try reflexivity; lia.
Qed.

Lemma iter_shr_1_digits (p : positive) :
  forall mrs : shr_record,
  0 <= shr_m mrs ->
  0 <= shr_m (iter_pos shr_1 p mrs) /\
  Zdigits2 (shr_m (iter_pos shr_1 p mrs)) = Z.max 0 (Zdigits2 (shr_m mrs) - Zpos p).
Proof.
  assert (Hone : forall mrs, 0 <= shr_m mrs ->
            0 <= shr_m (shr_1 mrs) /\
            Zdigits2 (shr_m (shr_1 mrs)) = Z.max 0 (Zdigits2 (shr_m mrs) - 1)).
  { intros mrs Hm. rewrite shr_1_m by exact Hm. split.
    - rewrite Z.div2_div. apply Z.div_pos; lia.
    - apply Zdigits2_div2, Hm. }
  induction p as [p IH|p IH|]; intros mrs Hm; simpl.
  - destruct (Hone mrs Hm) as [H1 D1].
    destruct (IH _ H1) as [H2 D2]. destruct (IH _ H2) as [H3 D3].
    split; [exact H3|]. rewrite D3, D2, D1. lia.
  - destruct (IH _ Hm) as [H2 D2]. destruct (IH _ H2) as [H3 D3].
    split; [exact H3|]. rewrite D3, D2. lia.
  - apply Hone, Hm.
Qed.

Lemma Zdigits2_nonneg (m : Z) : 0 <= Zdigits2 m.
Proof. destruct m; simpl; lia. Qed.

(** A mantissa shifted into its format has at most [prec] digits. *)
Lemma shr_fexp_digits (prec emax m e : Z) (l : location) :
  0 < prec -> 0 <= m ->
  0 <= shr_m (fst (shr_fexp prec emax m e l)) /\
  Zdigits2 (shr_m (fst (shr_fexp prec emax m e l))) <= prec.
Proof.
  intros Hprec Hm. unfold shr_fexp, shr.
  assert (Hrec : shr_m (shr_record_of_loc m l) = m)
    by (destruct l as [|[]]; reflexivity).
  pose proof (Zdigits2_nonneg m) as Hd.
  destruct (fexp prec emax (Zdigits2 m + e) - e) as [|n|n] eqn:En; cbn [fst].
  - rewrite Hrec. split; [exact Hm|]. unfold fexp in En. lia.
  - destruct (iter_shr_1_digits n (shr_record_of_loc m l)) as [H D];
      [rewrite Hrec; exact Hm|].
    split; [exact H|]. rewrite D, Hrec. unfold fexp in En. lia.
  - rewrite Hrec. split; [exact Hm|]. unfold fexp in En. lia.
Qed.

Lemma round_nearest_even_nonneg (m : Z) (l : location) :
  0 <= m -> 0 <= round_nearest_even m l.
Proof.
  intros Hm. unfold round_nearest_even.
  destruct l as [|[]]; try lia. destruct (Z.even m); lia.
Qed.

Lemma binary_round_aux_digits (prec emax : Z) (sx : bool) (mx ex : Z) (lx : location)
    (s : bool) (m : positive) (e : Z) :
  0 < prec -> 0 <= mx ->
  binary_round_aux prec emax sx mx ex lx = S754_finite s m e ->
  Zpos (digits2_pos m) <= prec.
Proof.
  intros Hprec Hmx. unfold binary_round_aux.
  destruct (shr_fexp prec emax mx ex lx) as [mrs' e'] eqn:E1.
  pose proof (shr_fexp_digits prec emax mx ex lx Hprec Hmx) as [H1 _].
  rewrite E1 in H1. cbn [fst] in H1.
  pose proof (shr_fexp_digits prec emax
                (round_nearest_even (shr_m mrs') (loc_of_shr_record mrs')) e' loc_Exact
                Hprec (round_nearest_even_nonneg _ _ H1)) as [_ H2].
  destruct (shr_fexp prec emax
              (round_nearest_even (shr_m mrs') (loc_of_shr_record mrs')) e' loc_Exact)
    as [mrs'' e''].
  cbn [fst] in H2.
  destruct (shr_m mrs'') as [|m'|m']; try discriminate.
  destruct (e'' <=? emax - prec); [|discriminate].
  intros Heq. injection Heq as _ <- _. exact H2.
Qed.

Lemma to_binary32_digits (x : float) (s : bool) (m : positive) (e : Z) :
  to_binary32 x = S754_finite s m e -> Zpos (digits2_pos m) <= 24.
Proof.
  destruct x as [| | |sx mx ex]; try discriminate.
  unfold to_binary32, binary_round.
  destruct (shl_align mx ex (fexp 24 128 (Zpos (digits2_pos mx) + ex))) as [mz ez].
  apply binary_round_aux_digits; lia.
Qed.

Lemma Pos_iter_xO (m p : positive) :
  Zpos (Pos.iter xO m p) = Zpos m * 2 ^ Zpos p.
Proof.
  induction p as [|p IH] using Pos.peano_ind.
  - simpl. lia.
  - rewrite Pos.iter_succ, Pos2Z.inj_succ, Z.pow_succ_r by lia.
    rewrite Pos2Z.inj_xO, IH. lia.
Qed.

(** The mantissa of a widened binary32 value is a multiple of [2^29]. *)
Lemma fround_mantissa (x : float) (s : bool) (m : positive) (e : Z) :
  fround x = S754_finite s m e -> (Zpos m) mod 2 ^ 29 = 0.
Proof.
  unfold fround, widen.
  destruct (to_binary32 x) as [| | |s' m' e'] eqn:E32; try discriminate.
  pose proof (to_binary32_digits x s' m' e' E32) as Hd.
  destruct (53 - Zpos (digits2_pos m')) as [|p|p] eqn:Ed; try lia.
  intros Heq. injection Heq as _ <- _.
  rewrite Pos_iter_xO.
  replace (Zpos p) with (29 + (Zpos p - 29)) by lia.
  rewrite Z.pow_add_r by lia.
  replace (Zpos m' * (2 ^ 29 * 2 ^ (Zpos p - 29)))
    with (Zpos m' * 2 ^ (Zpos p - 29) * 2 ^ 29) by lia.
  apply Z.mod_mul. lia.
Qed.

(** A stored envelope value compared with the epsilon is never equal. *)
Definition not_epsilon (e : float) : Prop :=
  SFcompare envelope_epsilon e <> Some Eq.

Lemma SFcompare_finite_Eq (m1 m : positive) (e1 e : Z) (s : bool) :
  SFcompare (S754_finite false m1 e1) (S754_finite s m e) = Some Eq -> m = m1.
Proof.
  unfold SFcompare. destruct s; [discriminate|].
  destruct (Z.compare e1 e); try discriminate.
  change (Pos.compare_cont Eq m1 m) with (Pos.compare m1 m).
  intros H. injection H as H. apply Pos.compare_eq in H. congruence.
Qed.

Lemma fround_not_epsilon (x : float) : not_epsilon (fround x).
Proof.
  unfold not_epsilon. destruct (fround x) as [s|s| |s m e] eqn:E.
  - discriminate.
  - destruct s; discriminate.
  - discriminate.
  - apply fround_mantissa in E. unfold envelope_epsilon. intros Hc.
    apply SFcompare_finite_Eq in Hc. subst m. vm_compute in E. discriminate.
Qed.

Lemma not_epsilon_geb_gtb (e : float) :
  not_epsilon e -> fgeb e envelope_epsilon = fgtb e envelope_epsilon.
Proof.
  unfold not_epsilon, fgeb, fgtb, SFleb, SFltb.
  destruct (SFcompare envelope_epsilon e) as [[]|]; congruence.
Qed.

(** *** Operations that make no NaN *)

Lemma binary_round_aux_not_nan (prec emax : Z) (sx : bool) (mx ex : Z) (lx : location) :
  0 < prec -> 0 <= mx ->
  binary_round_aux prec emax sx mx ex lx <> S754_nan.
Proof.
  intros Hprec Hmx. unfold binary_round_aux.
  destruct (shr_fexp prec emax mx ex lx) as [mrs' e'] eqn:E1.
  pose proof (shr_fexp_digits prec emax mx ex lx Hprec Hmx) as [H1 _].
  rewrite E1 in H1. cbn [fst] in H1.
  pose proof (shr_fexp_digits prec emax
                (round_nearest_even (shr_m mrs') (loc_of_shr_record mrs')) e' loc_Exact
                Hprec (round_nearest_even_nonneg _ _ H1)) as [H2 _].
  destruct (shr_fexp prec emax
              (round_nearest_even (shr_m mrs') (loc_of_shr_record mrs')) e' loc_Exact)
    as [mrs'' e''].
  cbn [fst] in H2.
  destruct (shr_m mrs'') as [|m'|m']; try discriminate; [|lia].
  destruct (e'' <=? emax - prec); discriminate.
Qed.

(** A number times or over a finite number other than 0 is a number. *)
Lemma fmul_finite_not_nan (x : float) (s : bool) (m : positive) (e : Z) :
  x <> NaN -> fmul x (S754_finite s m e) <> NaN.
Proof.
  unfold fmul, NaN. destruct x as [sx|sx| |sx mx ex]; cbn [SFmul]; intros Hx;
    try discriminate; [congruence|].
  apply binary_round_aux_not_nan; [reflexivity|lia].
Qed.

Lemma fdiv_finite_not_nan (x : float) (s : bool) (m : positive) (e : Z) :
  x <> NaN -> fdiv x (S754_finite s m e) <> NaN.
Proof.
  unfold fdiv, NaN. destruct x as [sx|sx| |sx mx ex]; cbn [SFdiv]; intros Hx;
    try discriminate; [congruence|].
  unfold SFdiv_core_binary.
  set (e' := Z.min _ _). set (shift := ex - e - e').
  set (m' := match shift with
             | 0 => Z.pos mx
             | Z.pos _ => Z.shiftl (Z.pos mx) shift
             | Z.neg _ => 0
             end).
  assert (Hm' : 0 <= m').
  { unfold m'. destruct shift; try lia. apply Z.shiftl_nonneg. lia. }
  pose proof (Z.div_pos m' (Z.pos m) Hm' ltac:(lia)) as Hq.
  unfold Z.div in Hq.
  destruct (Z.div_eucl m' (Z.pos m)) as [q r].
  apply binary_round_aux_not_nan; [reflexivity|exact Hq].
Qed.


(** ** Fuel is only a bound

    A loop that has finished within some fuel gives the same outcome with
    any larger fuel: the outcome of a call that finishes does not depend on
    the fuel. *)

Section FuelMonotone.

Variables Math_log2 Math_exp Math_sin Math_cos : float -> float.
Variable Math_pow : float -> float -> float.
Variable Number_toString : float -> string.

Lemma detect_loop_mono (signal : list float) (sampleRate : float) (hop windowSize : Z)
    (threshold : float) (minPeriod maxPeriod : jsint) (fuel : nat) :
  forall (fuel' : nat) (center : Z) (o : outcome (list PitchFrame)),
  (fuel <= fuel')%nat ->
  detect_loop Math_log2 Number_toString fuel signal sampleRate hop windowSize
    threshold minPeriod maxPeriod center = o ->
  o <> OutOfFuel ->
  detect_loop Math_log2 Number_toString fuel' signal sampleRate hop windowSize
    threshold minPeriod maxPeriod center = o.
Proof.
  induction fuel as [|fuel IH]; intros fuel' center o Hle Hrun Hfin.
  - destruct fuel'; simpl in *;
      destruct (center + windowSize <? Z.of_nat (List.length signal));
      congruence.
  - destruct fuel' as [|fuel']; [lia|]. simpl in *.
    destruct (center + windowSize <? Z.of_nat (List.length signal)); [|exact Hrun].
    destruct (windowSize / 2 <? 0); [exact Hrun|].
    destruct (detect_loop Math_log2 Number_toString fuel signal sampleRate hop
                windowSize threshold minPeriod maxPeriod (center + hop)) as [rest| |] eqn:E;
      simpl in Hrun.
    + rewrite (IH fuel' _ _ ltac:(lia) E ltac:(discriminate)). exact Hrun.
    + rewrite (IH fuel' _ _ ltac:(lia) E ltac:(discriminate)). exact Hrun.
    + congruence.
Qed.

Lemma detectPitch_mono (fuel fuel' : nat) (signal : list float) (sampleRate : float)
    (hop windowSize : Z) (threshold minFreq maxFreq : float) (o : outcome PitchTrack) :
  (fuel <= fuel')%nat ->
  detectPitch Math_log2 Number_toString fuel signal sampleRate hop windowSize
    threshold minFreq maxFreq = o ->
  o <> OutOfFuel ->
  detectPitch Math_log2 Number_toString fuel' signal sampleRate hop windowSize
    threshold minFreq maxFreq = o.
Proof.
  unfold detectPitch. intros Hle Hrun Hfin.
  match type of Hrun with bind ?l _ = _ => destruct l as [fs| |] eqn:E end;
    simpl in Hrun; try congruence;
    rewrite (detect_loop_mono _ _ _ _ _ _ _ _ _ _ _ Hle E ltac:(discriminate));
    exact Hrun.
Qed.

Lemma place_marks_mono (signal : list float) (p frameEnd : Z) (fuel : nat) :
  forall (fuel' : nat) (marks : list Z) (nextMark : Z) (o : outcome (list Z)),
  (fuel <= fuel')%nat ->
  place_marks fuel signal p frameEnd marks nextMark = o ->
  o <> OutOfFuel ->
  place_marks fuel' signal p frameEnd marks nextMark = o.
Proof.
  induction fuel as [|fuel IH]; intros fuel' marks nextMark o Hle Hrun Hfin.
  - destruct fuel'; simpl in *;
      destruct ((nextMark <? frameEnd) && (nextMark <? Z.of_nat (List.length signal)));
      congruence.
  - destruct fuel' as [|fuel']; [lia|]. simpl in *.
    destruct ((nextMark <? frameEnd) && (nextMark <? Z.of_nat (List.length signal)));
      [|exact Hrun].
    apply IH; [lia | exact Hrun | exact Hfin].
Qed.

Lemma marks_step_mono (fuel fuel' : nat) (signal : list float) (sampleRate : float)
    (hopSize : Z) (marks : list Z) (i : Z) (frame : PitchFrame) (o : outcome (list Z)) :
  (fuel <= fuel')%nat ->
  marks_step fuel signal sampleRate hopSize marks i frame = o ->
  o <> OutOfFuel ->
  marks_step fuel' signal sampleRate hopSize marks i frame = o.
Proof.
  unfold marks_step. intros Hle Hrun Hfin.
  destruct (negb (voiced frame) || fleb (frequency frame) pos_zero); [exact Hrun|].
  destruct (Math_round (fdiv sampleRate (frequency frame))); try exact Hrun.
  match goal with |- (if ?c then _ else _) = _ => destruct c end; [|exact Hrun].
  eapply place_marks_mono; eassumption.
Qed.

Lemma marks_loop_mono (fuel fuel' : nat) (signal : list float) (sampleRate : float)
    (hopSize : Z) (frames : list PitchFrame) :
  forall (marks : list Z) (i : Z) (o : outcome (list Z)),
  (fuel <= fuel')%nat ->
  marks_loop fuel signal sampleRate hopSize marks i frames = o ->
  o <> OutOfFuel ->
  marks_loop fuel' signal sampleRate hopSize marks i frames = o.
Proof.
  induction frames as [|frame rest IH]; intros marks i o Hle Hrun Hfin; simpl in *;
    [exact Hrun|].
  destruct (marks_step fuel signal sampleRate hopSize marks i frame) as [m| |] eqn:E;
    simpl in Hrun; try congruence;
    rewrite (marks_step_mono _ _ _ _ _ _ _ _ _ Hle E ltac:(discriminate)); simpl;
    [apply IH; assumption | exact Hrun].
Qed.

Lemma output_marks_loop_mono (len nframes hopSize : Z) (targetFreqs : list float)
    (sampleRate : float) (fuel : nat) :
  forall (fuel' : nat) (pos : float) (outputMarks : list jsint) (o : outcome (list jsint)),
  (fuel <= fuel')%nat ->
  output_marks_loop fuel len nframes hopSize targetFreqs sampleRate pos outputMarks = o ->
  o <> OutOfFuel ->
  output_marks_loop fuel' len nframes hopSize targetFreqs sampleRate pos outputMarks = o.
Proof.
  induction fuel as [|fuel IH]; intros fuel' pos outputMarks o Hle Hrun Hfin.
  - destruct fuel'; simpl in *; destruct (fltb pos (of_Z len)); congruence.
  - destruct fuel' as [|fuel']; [lia|]. simpl in *.
    destruct (fltb pos (of_Z len)); [|exact Hrun].
    match goal with |- (if ?c then _ else _) = _ => destruct c end;
      (apply IH; [lia | exact Hrun | exact Hfin]).
Qed.

Lemma psolaShift_mono (fuel fuel' : nat) (signal : list float) (pitchMarks : list Z)
    (frames : list PitchFrame) (targetFreqs : list float) (sampleRate : float)
    (hopSize : Z) (o : outcome (list float)) :
  (fuel <= fuel')%nat ->
  psolaShift Math_cos fuel signal pitchMarks frames targetFreqs sampleRate hopSize = o ->
  o <> OutOfFuel ->
  psolaShift Math_cos fuel' signal pitchMarks frames targetFreqs sampleRate hopSize = o.
Proof.
  unfold psolaShift, psola_accumulate. intros Hle Hrun Hfin.
  destruct (List.length pitchMarks <? 2)%nat; [exact Hrun|].
  match type of Hrun with bind (bind ?l _) _ = _ => destruct l as [oms| |] eqn:E end;
    simpl in Hrun; try congruence;
    rewrite (output_marks_loop_mono _ _ _ _ _ _ _ _ _ _ Hle E ltac:(discriminate));
    exact Hrun.
Qed.

Lemma correctPitch_mono (fuel fuel' : nat) (inputSignal : list float)
    (sampleRate : float) (params : CorrectionParams) (o : outcome (list float)) :
  (fuel <= fuel')%nat ->
  correctPitch Math_log2 Math_exp Math_sin Math_cos Math_pow Number_toString
    fuel inputSignal sampleRate params = o ->
  o <> OutOfFuel ->
  correctPitch Math_log2 Math_exp Math_sin Math_cos Math_pow Number_toString
    fuel' inputSignal sampleRate params = o.
Proof.
  unfold correctPitch, findPitchMarks. intros Hle Hrun Hfin.
  destruct (fleb (tuneAmount params) pos_zero); [exact Hrun|].
  match type of Hrun with bind ?l _ = _ => destruct l as [track| |] eqn:E end;
    simpl in Hrun; try congruence;
    rewrite (detectPitch_mono _ _ _ _ _ _ _ _ _ _ Hle E ltac:(discriminate));
    simpl; [|exact Hrun].
  match type of Hrun with bind ?l _ = _ => destruct l as [marks| |] eqn:E2 end;
    simpl in Hrun; try congruence;
    rewrite (marks_loop_mono _ _ _ _ _ _ _ _ _ Hle E2 ltac:(discriminate));
    simpl; [|exact Hrun].
  match type of Hrun with bind ?l _ = _ => destruct l as [corrected| |] eqn:E3 end;
    simpl in Hrun; try congruence;
    rewrite (psolaShift_mono _ _ _ _ _ _ _ _ _ Hle E3 ltac:(discriminate));
    simpl; exact Hrun.
Qed.

End FuelMonotone.

(** ** The smoother: what a call changes in the store *)

Lemma update_nth_length {A : Type} (n : nat) (v : A) (l : list A) :
  List.length (update_nth n v l) = List.length l.
Proof.
  revert n. induction l as [|x l IH]; intros [|n]; simpl; try reflexivity.
  rewrite IH. reflexivity.
Qed.

Lemma nth_update_nth_same {A : Type} (n : nat) (v d : A) (l : list A) :
  (n < List.length l)%nat -> nth n (update_nth n v l) d = v.
Proof.
  revert n. induction l as [|x l IH]; intros [|n] Hn; simpl in *; try lia.
  - reflexivity.
  - apply IH. lia.
Qed.

Lemma nth_update_nth_other {A : Type} (n m : nat) (v d : A) (l : list A) :
  n <> m -> nth m (update_nth n v l) d = nth m l d.
Proof.
  revert n m. induction l as [|x l IH]; intros [|n] [|m] Hnm; simpl;
    try reflexivity; try congruence.
  apply IH. congruence.
Qed.

Section SmootherFacts.

Variable Math_log2 : float -> float.
Variable Number_toString : float -> string.

Let smooth_at' := smooth_at Math_log2 Number_toString.
Let corrected_frame' := corrected_frame Math_log2 Number_toString.

(** The store after the first [k] iterations. *)
Definition smooth_run (frames : list ref) (halfWin : Z) (h : heap) (k : nat) : heap :=
  fold_left (smooth_at' frames halfWin) (seq 0 k) h.

Lemma smooth_run_S (frames : list ref) (halfWin : Z) (h : heap) (k : nat) :
  smooth_run frames halfWin h (S k)
  = smooth_at' frames halfWin (smooth_run frames halfWin h k) k.
Proof. unfold smooth_run. rewrite seq_S, fold_left_app. reflexivity. Qed.

(** What one iteration does to an object: nothing, or the corrected frame
    written over a voiced frame of the array. *)
Lemma smooth_at_cases (frames : list ref) (halfWin : Z) (h : heap) (i : nat) :
  let r := nth i frames O in
  let f := deref h r in
  let neighborhood := neighborhood_of h frames halfWin (Z.of_nat i) in
  smooth_at' frames halfWin h i
  = if voiced f && (3 <=? List.length neighborhood)%nat
    then update_nth r (corrected_frame' neighborhood f) h
    else h.
Proof.
  cbv zeta. unfold smooth_at', corrected_frame', smooth_at.
  destruct (voiced (deref h (nth i frames O))); reflexivity.
Qed.

Lemma smooth_at_length (frames : list ref) (halfWin : Z) (h : heap) (i : nat) :
  List.length (smooth_at' frames halfWin h i) = List.length h.
Proof.
  rewrite smooth_at_cases. cbv zeta.
  match goal with |- context [if ?c then _ else _] => destruct c end;
    [apply update_nth_length | reflexivity].
Qed.

Lemma smooth_run_length (frames : list ref) (halfWin : Z) (h : heap) (k : nat) :
  List.length (smooth_run frames halfWin h k) = List.length h.
Proof.
  induction k as [|k IH]; [reflexivity|].
  rewrite smooth_run_S, smooth_at_length. exact IH.
Qed.

(** The fields an iteration never assigns, and the objects it leaves alone. *)
Definition same_identity (f g : PitchFrame) : Prop :=
  time g = time f /\ confidence g = confidence f /\ voiced g = voiced f.

Definition preserved (track : list ref) (h h' : heap) : Prop :=
  forall r : ref,
    same_identity (deref h r) (deref h' r) /\
    (voiced (deref h r) = false -> deref h' r = deref h r) /\
    (~ In r track -> deref h' r = deref h r).

Lemma preserved_refl (track : list ref) (h : heap) : preserved track h h.
Proof. intros r. unfold same_identity. repeat split. Qed.

Lemma preserved_trans (track : list ref) (h1 h2 h3 : heap) :
  preserved track h1 h2 -> preserved track h2 h3 -> preserved track h1 h3.
Proof.
  intros H12 H23 r.
  destruct (H12 r) as ((Ht & Hc & Hv) & Hu & Ho).
  destruct (H23 r) as ((Ht' & Hc' & Hv') & Hu' & Ho').
  unfold same_identity. repeat split; try congruence.
  - intros Hun. rewrite Hu', Hu; congruence.
  - intros Hout. rewrite Ho', Ho; tauto.
Qed.

Lemma smooth_at_preserved (frames : list ref) (halfWin : Z) (h : heap) (i : nat) :
  (i < List.length frames)%nat ->
  preserved frames h (smooth_at' frames halfWin h i).
Proof.
  intros Hi. rewrite smooth_at_cases. cbv zeta.
  set (r := nth i frames O).
  destruct (voiced (deref h r)) eqn:Hv; simpl; [|apply preserved_refl].
  match goal with |- context [if ?c then _ else _] => destruct c end;
    [|apply preserved_refl].
  intros r'. unfold deref.
  destruct (Nat.eq_dec r r') as [<-|Hne].
  - destruct (Nat.lt_ge_cases r (List.length h)) as [Hin|Hout].
    + rewrite nth_update_nth_same by exact Hin.
      unfold same_identity. cbn [time confidence voiced corrected_frame].
      repeat split.
      * unfold deref in Hv. congruence.
      * intros Hnot. exfalso. apply Hnot. apply nth_In. exact Hi.
    + assert (Hd : forall v, nth r (update_nth r v h) unallocated = nth r h unallocated).
      { intros v. rewrite !nth_overflow; [reflexivity | exact Hout |].
        rewrite update_nth_length. exact Hout. }
      rewrite Hd. unfold same_identity. repeat split.
  - rewrite nth_update_nth_other by exact Hne.
    unfold same_identity. repeat split.
Qed.

Lemma smooth_run_preserved (frames : list ref) (halfWin : Z) (h : heap) (k : nat) :
  (k <= List.length frames)%nat ->
  preserved frames h (smooth_run frames halfWin h k).
Proof.
  induction k as [|k IH]; intros Hk; [apply preserved_refl|].
  rewrite smooth_run_S. eapply preserved_trans; [apply IH; lia|].
  apply smooth_at_preserved. lia.
Qed.


(** *** Frames that are distinct objects

    For an array of distinct allocated objects (as [detectPitch] builds
    them), iteration [i] touches the object of index [i] alone. *)

Definition well_formed (h : heap) (frames : list ref) : Prop :=
  NoDup frames /\ Forall (fun r => (r < List.length h)%nat) frames.

Lemma smooth_at_other (frames : list ref) (halfWin : Z) (h : heap) (i j : nat) :
  NoDup frames -> (i < List.length frames)%nat -> (j < List.length frames)%nat ->
  i <> j ->
  deref (smooth_at' frames halfWin h i) (nth j frames O) = deref h (nth j frames O).
Proof.
  intros Hnd Hi Hj Hij. unfold smooth_at'. rewrite smooth_at_cases. cbv zeta.
  match goal with |- context [if ?c then _ else _] => destruct c end; [|reflexivity].
  unfold deref. apply nth_update_nth_other.
  intros Heq. apply Hij. eapply NoDup_nth; eassumption.
Qed.

(** Before its own iteration an object still has its input value. *)
Lemma smooth_run_later (frames : list ref) (halfWin : Z) (h : heap) (k j : nat) :
  NoDup frames -> (k <= j)%nat -> (j < List.length frames)%nat ->
  deref (smooth_run frames halfWin h k) (nth j frames O) = deref h (nth j frames O).
Proof.
  intros Hnd Hkj Hj. induction k as [|k IH]; [reflexivity|].
  rewrite smooth_run_S. fold smooth_at'.
  rewrite smooth_at_other by (try assumption; lia).
  apply IH. lia.
Qed.

(** After its own iteration an object keeps the value that iteration gave. *)
Lemma smooth_run_earlier (frames : list ref) (halfWin : Z) (h : heap) (k j : nat) :
  NoDup frames -> (j < k)%nat -> (k <= List.length frames)%nat ->
  deref (smooth_run frames halfWin h k) (nth j frames O)
  = deref (smooth_run frames halfWin h (S j)) (nth j frames O).
Proof.
  intros Hnd Hjk Hk. induction k as [|k IH]; [lia|].
  destruct (Nat.eq_dec j k) as [->|Hne]; [reflexivity|].
  rewrite smooth_run_S. fold smooth_at'.
  rewrite smooth_at_other by (try assumption; lia).
  apply IH; lia.
Qed.

End SmootherFacts.

(** *** The neighbourhood, read from a sequence of frame values *)

Definition neighborhood_values (l : list PitchFrame) (halfWin i : Z) : list float :=
  let lo := Z.max 0 (i - halfWin) in
  let hi := Z.min (Z.of_nat (List.length l) - 1) (i + halfWin) in
  flat_map
    (fun j =>
       let f := nth (Z.to_nat j) l unallocated in
       if voiced f then [frequency f] else [])
    (zrange_from lo (Z.to_nat (hi - lo + 1))).

Lemma flat_map_ext_In {A B : Type} (f g : A -> list B) (l : list A) :
  (forall a, In a l -> f a = g a) -> flat_map f l = flat_map g l.
Proof.
  induction l as [|a l IH]; intros H; simpl; [reflexivity|].
  rewrite (H a) by (left; reflexivity).
  rewrite IH; [reflexivity|]. intros b Hb. apply H. right. exact Hb.
Qed.

Lemma In_zrange_from (a : Z) (n : nat) (j : Z) :
  In j (zrange_from a n) -> a <= j < a + Z.of_nat n.
Proof.
  unfold zrange_from. rewrite in_map_iff. intros (k & <- & Hk).
  apply in_seq in Hk. lia.
Qed.

Lemma nth_read_frames (h : heap) (frames : list ref) (j : nat) :
  (j < List.length frames)%nat ->
  nth j (read_frames h frames) unallocated = deref h (nth j frames O).
Proof.
  intros Hj. unfold read_frames.
  rewrite (nth_indep _ unallocated (deref h O)) by (rewrite length_map; exact Hj).
  apply map_nth.
Qed.

Lemma neighborhood_of_values (h : heap) (frames : list ref) (halfWin i : Z) :
  neighborhood_of h frames halfWin i
  = neighborhood_values (read_frames h frames) halfWin i.
Proof.
  unfold neighborhood_of, neighborhood_values.
  assert (Hlen : List.length (read_frames h frames) = List.length frames)
    by apply length_map.
  rewrite Hlen. apply flat_map_ext_In. intros j Hj.
  apply In_zrange_from in Hj.
  rewrite nth_read_frames by lia. reflexivity.
Qed.

Section SmootherValues.

Variable Math_log2 : float -> float.
Variable Number_toString : float -> string.

Let run := smooth_run Math_log2 Number_toString.

(** When frame [i] is processed the array reads: the output values of the
    frames before [i], the input values of frame [i] and the later ones. *)
Lemma read_frames_mixed (h : heap) (frames : list ref) (halfWin : Z) (i : nat) :
  NoDup frames -> (i <= List.length frames)%nat ->
  read_frames (run frames halfWin h i) frames
  = firstn i (read_frames (run frames halfWin h (List.length frames)) frames)
    ++ skipn i (read_frames h frames).
Proof.
  intros Hnd Hi.
  assert (Hlen : forall h', List.length (read_frames h' frames) = List.length frames)
    by (intros h'; apply length_map).
  apply (nth_ext _ _ unallocated unallocated).
  - rewrite length_app, length_firstn, length_skipn, !Hlen. lia.
  - intros x Hx. rewrite Hlen in Hx.
    rewrite nth_read_frames by exact Hx.
    destruct (Nat.lt_ge_cases x i) as [Hlt|Hge].
    + rewrite app_nth1 by (rewrite length_firstn, Hlen; lia).
      rewrite nth_firstn.
      destruct (Nat.ltb_spec x i) as [_|]; [|lia].
      rewrite nth_read_frames by exact Hx.
      unfold run.
      rewrite (smooth_run_earlier _ _ frames halfWin h (List.length frames) x)
        by (try assumption; lia).
      apply smooth_run_earlier; assumption.
    + rewrite app_nth2 by (rewrite length_firstn, Hlen; lia).
      rewrite length_firstn, Hlen, nth_skipn.
      replace (i + (x - Nat.min i (List.length frames)))%nat with x by lia.
      rewrite nth_read_frames by exact Hx.
      apply smooth_run_later; assumption.
Qed.

(** The output value of frame [i] of an array of distinct objects. *)
Lemma smoothed_frame_value (h : heap) (frames : list ref) (halfWin : Z) (i : nat) :
  well_formed h frames -> (i < List.length frames)%nat ->
  let inp := read_frames h frames in
  let out := read_frames (run frames halfWin h (List.length frames)) frames in
  let nb := neighborhood_values (firstn i out ++ skipn i inp) halfWin (Z.of_nat i) in
  let f := nth i inp unallocated in
  nth i out unallocated
  = if voiced f && (3 <=? List.length nb)%nat
    then corrected_frame Math_log2 Number_toString nb f
    else f.
Proof.
  intros [Hnd Hvalid] Hi. cbv zeta.
  rewrite <- read_frames_mixed by (try assumption; lia).
  rewrite <- neighborhood_of_values.
  rewrite !nth_read_frames by exact Hi.
  unfold run.
  rewrite smooth_run_earlier by (try assumption; lia).
  rewrite smooth_run_S, smooth_at_cases. cbv zeta.
  rewrite (smooth_run_later _ _ frames halfWin h i i) by (try assumption; lia).
  match goal with |- context [if ?c then _ else _] => destruct c end.
  - unfold deref at 1. apply nth_update_nth_same.
    rewrite smooth_run_length.
    rewrite Forall_forall in Hvalid. apply Hvalid, nth_In, Hi.
  - apply smooth_run_later; try assumption; lia.
Qed.

End SmootherValues.

(** *** The neighbourhood as a segment of the frames *)

Lemma map_nth_seq {A : Type} (d : A) (l : list A) (lo n : nat) :
  (lo + n <= List.length l)%nat ->
  map (fun k => nth k l d) (seq lo n) = firstn n (skipn lo l).
Proof.
  revert lo n. induction l as [|x l IH]; intros lo n Hle; simpl in Hle.
  - assert (lo = O) by lia. assert (n = O) by lia. subst. reflexivity.
  - destruct lo as [|lo].
    + destruct n as [|n]; [reflexivity|].
      cbn [seq map nth skipn firstn]. f_equal.
      rewrite <- seq_shift, map_map. cbn [nth].
      rewrite (IH O n) by lia. reflexivity.
    + rewrite <- seq_shift, map_map. cbn [nth skipn].
      apply IH. lia.
Qed.

Lemma filter_firstn_length {A : Type} (p : A -> bool) (l : list A) (n : nat) :
  (List.length (filter p (firstn n l)) <= List.length (filter p l))%nat.
Proof.
  revert n. induction l as [|x l IH]; intros [|n]; simpl; try lia.
  specialize (IH n). destruct (p x); simpl; lia.
Qed.

Lemma filter_skipn_length {A : Type} (p : A -> bool) (l : list A) (n : nat) :
  (List.length (filter p (skipn n l)) <= List.length (filter p l))%nat.
Proof.
  revert n. induction l as [|x l IH]; intros [|n]; simpl; try lia.
  specialize (IH n). destruct (p x); simpl; lia.
Qed.

Lemma voiced_frequencies_filter (l : list PitchFrame) :
  flat_map (fun f => if voiced f then [frequency f] else []) l
  = map frequency (filter voiced l).
Proof.
  induction l as [|f l IH]; simpl; [reflexivity|].
  destruct (voiced f); simpl; rewrite IH; reflexivity.
Qed.

(** The neighbourhood is the voiced part of a segment of the frames. *)
Lemma neighborhood_values_segment (l : list PitchFrame) (halfWin i : Z) :
  exists lo n : nat,
    Z.of_nat n <= Z.max 0 (2 * halfWin + 1) /\
    neighborhood_values l halfWin i
    = map frequency (filter voiced (firstn n (skipn lo l))).
Proof.
  unfold neighborhood_values.
  set (lo := Z.max 0 (i - halfWin)).
  set (hi := Z.min (Z.of_nat (List.length l) - 1) (i + halfWin)).
  assert (Hlo : 0 <= lo) by (unfold lo; lia).
  assert (Hhi : hi < Z.of_nat (List.length l)) by (unfold hi; lia).
  assert (Hw : hi - lo + 1 <= Z.max 0 (2 * halfWin + 1)) by (unfold lo, hi; lia).
  destruct (Z.le_gt_cases (hi - lo + 1) 0) as [Hempty|Hsome].
  { exists O, O. split; [lia|].
    replace (Z.to_nat (hi - lo + 1)) with O by lia. reflexivity. }
  exists (Z.to_nat lo), (Z.to_nat (hi - lo + 1)). split; [lia|].
  rewrite <- voiced_frequencies_filter.
  rewrite <- (map_nth_seq unallocated) by lia.
  unfold zrange_from. rewrite !flat_map_concat_map, !map_map. f_equal.
  generalize (Z.to_nat (hi - lo + 1)). intros n.
  replace (seq (Z.to_nat lo) n) with (map (fun k => (Z.to_nat lo + k)%nat) (seq 0 n)).
  - rewrite !map_map. apply map_ext. intros k.
    replace (Z.to_nat (lo + Z.of_nat k)) with (Z.to_nat lo + k)%nat by lia.
    reflexivity.
  - clear. induction n as [|n IH]; [reflexivity|].
    rewrite !seq_S, map_app, IH. reflexivity.
Qed.

Lemma neighborhood_values_voiced (l : list PitchFrame) (halfWin i : Z) :
  (List.length (neighborhood_values l halfWin i) <= List.length (filter voiced l))%nat.
Proof.
  destruct (neighborhood_values_segment l halfWin i) as (lo & n & _ & ->).
  rewrite length_map.
  etransitivity; [apply filter_firstn_length|apply filter_skipn_length].
Qed.

Lemma neighborhood_values_width (l : list PitchFrame) (halfWin i : Z) :
  Z.of_nat (List.length (neighborhood_values l halfWin i)) <= Z.max 0 (2 * halfWin + 1).
Proof.
  destruct (neighborhood_values_segment l halfWin i) as (lo & n & Hn & ->).
  rewrite length_map.
  assert (List.length (filter voiced (firstn n (skipn lo l))) <= n)%nat.
  { etransitivity; [apply filter_length_le|]. rewrite length_firstn. lia. }
  lia.
Qed.

(** *** Frequencies that are numbers

    The smoother makes no NaN: it halves or doubles a frequency, or leaves
    it.  On a track whose voiced frames have frequencies other than NaN
    every neighbourhood it sorts is free of NaN. *)

Definition frequency_is_number (f : PitchFrame) : Prop :=
  voiced f = true -> frequency f <> NaN.

Lemma Forall_firstn_keep {A : Type} (P : A -> Prop) (n : nat) (l : list A) :
  Forall P l -> Forall P (firstn n l).
Proof.
  intros Hl. revert n. induction Hl as [|x l Hx _ IH]; intros [|n]; simpl;
    constructor; auto.
Qed.

Lemma Forall_skipn_keep {A : Type} (P : A -> Prop) (n : nat) (l : list A) :
  Forall P l -> Forall P (skipn n l).
Proof.
  intros Hl. revert n. induction Hl as [|x l Hx Hl IH]; intros [|n]; simpl;
    try constructor; auto.
Qed.

Lemma neighborhood_values_numbers (l : list PitchFrame) (halfWin i : Z) :
  Forall frequency_is_number l ->
  Forall (fun x => x <> NaN) (neighborhood_values l halfWin i).
Proof.
  intros Hl.
  destruct (neighborhood_values_segment l halfWin i) as (lo & n & _ & ->).
  apply Forall_map, Forall_forall. intros f Hf.
  apply filter_In in Hf. destruct Hf as [Hin Hv].
  assert (Hseg : Forall frequency_is_number (firstn n (skipn lo l)))
    by apply Forall_firstn_keep, Forall_skipn_keep, Hl.
  rewrite Forall_forall in Hseg. exact (Hseg f Hin Hv).
Qed.

Lemma octave_correct_number (freq medianFreq : float) :
  freq <> NaN -> octave_correct freq medianFreq <> NaN.
Proof.
  intros Hfreq. unfold octave_correct.
  change (of_Z 2) with (S754_finite false 4503599627370496 (-51)).
  destruct (fgtb _ _); [apply fdiv_finite_not_nan, Hfreq|].
  destruct (fltb _ _); [apply fmul_finite_not_nan, Hfreq|exact Hfreq].
Qed.

Lemma smoothed_frames_numbers (Math_log2 : float -> float)
    (Number_toString : float -> string) (h : heap) (frames : list ref) (halfWin : Z) :
  well_formed h frames ->
  Forall frequency_is_number (read_frames h frames) ->
  Forall frequency_is_number
    (read_frames (smooth_run Math_log2 Number_toString frames halfWin h (List.length frames))
       frames).
Proof.
  intros Hwf Hin. apply Forall_forall. intros g Hg.
  destruct (In_nth _ g unallocated Hg) as (i & Hi & <-).
  unfold read_frames in Hi. rewrite length_map in Hi.
  pose proof (smoothed_frame_value Math_log2 Number_toString h frames halfWin i Hwf Hi)
    as Hval.
  cbv zeta in Hval. rewrite Hval. clear Hval.
  assert (Hf : frequency_is_number (nth i (read_frames h frames) unallocated)).
  { rewrite Forall_forall in Hin. apply Hin, nth_In.
    unfold read_frames. rewrite length_map. exact Hi. }
  match goal with |- context [if ?c then _ else _] => destruct c end; [|exact Hf].
  unfold frequency_is_number, corrected_frame. cbn [voiced frequency].
  intros Hv. apply octave_correct_number, Hf, Hv.
Qed.


(** ** Pitch marks: order and range *)

Definition strictly_increasing (l : list Z) : Prop :=
  forall i j : nat, (i < j)%nat -> (j < List.length l)%nat -> nth i l 0 < nth j l 0.

Definition valid_indices (len : Z) (l : list Z) : Prop :=
  Forall (fun m => 0 <= m < len) l.

(** The invariant of the mark loops. *)
Record marks_inv (len : Z) (marks : list Z) : Prop := {
  inv_increasing : strictly_increasing marks;
  inv_valid : valid_indices len marks;
  inv_last : Forall (fun m => m <= last marks 0) marks
}.

Lemma marks_inv_nil (len : Z) : marks_inv len [].
Proof.
  split; [|constructor|constructor].
  intros i j _ Hj. simpl in Hj. lia.
Qed.

Lemma marks_inv_single (len m : Z) : 0 <= m < len -> marks_inv len [m].
Proof.
  intros Hm. split.
  - intros i j Hij Hj. simpl in Hj. lia.
  - constructor; [exact Hm|constructor].
  - constructor; [simpl; lia|constructor].
Qed.

Lemma marks_inv_snoc (len : Z) (marks : list Z) (m : Z) :
  marks_inv len marks -> 0 <= m < len -> (marks = [] \/ last marks 0 < m) ->
  marks_inv len (marks ++ [m]).
Proof.
  intros [Hinc Hval Hlast] Hm Hnew.
  assert (Hbelow : Forall (fun x => x < m) marks).
  { destruct Hnew as [->|Hlt]; [constructor|].
    eapply Forall_impl; [|exact Hlast]. intros x Hx. simpl in Hx. lia. }
  split.
  - intros i j Hij Hj. rewrite last_length in Hj.
    destruct (Nat.eq_dec j (List.length marks)) as [->|Hne].
    + rewrite (app_nth1 marks [m] 0) by lia.
      rewrite app_nth2, Nat.sub_diag by lia. simpl.
      rewrite Forall_forall in Hbelow. apply Hbelow, nth_In. lia.
    + rewrite !app_nth1 by lia. apply Hinc; lia.
  - apply Forall_app. split; [exact Hval|]. constructor; [exact Hm|constructor].
  - rewrite last_last. apply Forall_app. split.
    + eapply Forall_impl; [|exact Hbelow]. intros x Hx. simpl in Hx. lia.
    + constructor; [lia|constructor].
Qed.

Lemma last_valid (len : Z) (marks : list Z) :
  marks <> [] -> valid_indices len marks -> 0 <= last marks 0 < len.
Proof.
  intros Hne Hval. destruct (exists_last Hne) as (l & x & ->).
  rewrite last_last. apply Forall_app in Hval. destruct Hval as [_ Hx].
  inversion Hx; assumption.
Qed.

(** A peak scan answers its start or a position of its range. *)
Lemma peak_scan_range (signal : list float) (lo hi start : Z) :
  let r := peak_scan signal lo hi start in
  r = start \/ lo <= r < hi.
Proof.
  cbv zeta. unfold peak_scan.
  assert (Hgen : forall (l : list Z) (best : float * Z),
             let r := snd (fold_left
                        (fun best j =>
                           if fgtb (fabs (aget signal j)) (fst best)
                           then (fabs (aget signal j), j) else best) l best) in
             r = snd best \/ In r l).
  { induction l as [|j l IH]; intros best; simpl; [left; reflexivity|].
    destruct (IH (if fgtb (fabs (aget signal j)) (fst best)
                  then (fabs (aget signal j), j) else best)) as [H|H].
    - destruct (fgtb (fabs (aget signal j)) (fst best)); simpl in H.
      + right. left. symmetry. exact H.
      + left. exact H.
    - right. right. exact H. }
  destruct (Hgen (zrange_from lo (Z.to_nat (hi - lo))) (neg_infinity, start)) as [H|H].
  - left. exact H.
  - right. apply In_zrange_from in H. lia.
Qed.

(** With a period of at least one sample every refined mark lies after the
    previous one, so the loop ends within [len - nextMark] iterations. *)
Lemma place_marks_ok (signal : list float) (p frameEnd : Z) (fuel : nat) :
  let len := Z.of_nat (List.length signal) in
  1 <= p ->
  forall (marks : list Z) (nextMark : Z),
  marks_inv len marks -> marks <> [] -> nextMark = last marks 0 + p ->
  len - nextMark <= Z.of_nat fuel ->
  exists marks',
    place_marks fuel signal p frameEnd marks nextMark = Returns marks' /\
    marks_inv len marks' /\ marks' <> [].
Proof.
  intros len Hp. induction fuel as [|fuel IH]; intros marks nextMark Hinv Hne Hnext Hfuel.
  - simpl. fold len. destruct (Z.ltb_spec nextMark len) as [|_]; [lia|].
    rewrite andb_false_r. exists marks. auto.
  - simpl. fold len.
    destruct ((nextMark <? frameEnd) && (nextMark <? len)) eqn:Hcond;
      [|exists marks; auto].
    apply andb_prop in Hcond. destruct Hcond as [_ Hlt]. apply Z.ltb_lt in Hlt.
    set (bestPos := peak_scan signal (Z.max 0 (nextMark - p / 4))
                      (Z.min len (nextMark + p / 4)) nextMark).
    pose proof (last_valid len marks Hne (inv_valid _ _ Hinv)) as Hlast.
    assert (Hquarter : 0 <= p / 4 <= p - 1).
    { split; [apply Z.div_pos; lia|].
      assert (p / 4 < p) by (apply Z.div_lt_upper_bound; lia). lia. }
    assert (Hbest : nextMark - p / 4 <= bestPos /\ 0 <= bestPos < len).
    { destruct (peak_scan_range signal (Z.max 0 (nextMark - p / 4))
                  (Z.min len (nextMark + p / 4)) nextMark) as [H|H];
        fold bestPos in H; lia. }
    apply IH.
    + apply marks_inv_snoc; [exact Hinv | lia | right; lia].
    + intros Habs. apply app_eq_nil in Habs. destruct Habs; discriminate.
    + rewrite last_last. reflexivity.
    + lia.
Qed.

(** A scan over an empty range answers its start. *)
Lemma peak_scan_empty (signal : list float) (lo hi start : Z) :
  hi <= lo -> peak_scan signal lo hi start = start.
Proof.
  intros Hle. unfold peak_scan. replace (Z.to_nat (hi - lo)) with O by lia. reflexivity.
Qed.

(** With a period of 0 or less the next mark never moves forward: a loop
    that is entered does not return. *)
Lemma place_marks_stuck (signal : list float) (p frameEnd : Z) (fuel : nat) :
  p <= 0 ->
  forall (marks : list Z) (nextMark : Z),
  nextMark < frameEnd -> nextMark < Z.of_nat (List.length signal) ->
  place_marks fuel signal p frameEnd marks nextMark = OutOfFuel.
Proof.
  intros Hp. induction fuel as [|fuel IH]; intros marks nextMark Hend Hlen;
    cbn [place_marks];
    destruct (Z.ltb_spec nextMark frameEnd) as [_|]; try lia;
    destruct (Z.ltb_spec nextMark (Z.of_nat (List.length signal))) as [_|]; try lia;
    cbn [andb]; [reflexivity|].
  assert (Hquarter : p / 4 <= 0) by (apply Z.div_le_upper_bound; lia).
  rewrite peak_scan_empty by lia.
  apply IH; lia.
Qed.

(** Whatever the period and the fuel, the marks of a loop that returns keep
    the invariant. *)
Lemma place_marks_returned (signal : list float) (p frameEnd : Z) (fuel : nat) :
  let len := Z.of_nat (List.length signal) in
  forall (marks : list Z) (nextMark : Z) (marks' : list Z),
  marks_inv len marks -> marks <> [] -> nextMark = last marks 0 + p ->
  place_marks fuel signal p frameEnd marks nextMark = Returns marks' ->
  marks_inv len marks' /\ marks' <> [].
Proof.
  intros len. induction fuel as [|fuel IH]; intros marks nextMark marks' Hinv Hne Hnext Hrun.
  - cbn [place_marks] in Hrun. fold len in Hrun.
    destruct ((nextMark <? frameEnd) && (nextMark <? len)); [discriminate|].
    injection Hrun as <-. auto.
  - destruct ((nextMark <? frameEnd) && (nextMark <? len)) eqn:Hcond.
    2:{ cbn [place_marks] in Hrun. fold len in Hrun. rewrite Hcond in Hrun.
        injection Hrun as <-. auto. }
    apply andb_prop in Hcond. destruct Hcond as [Hend Hlt].
    apply Z.ltb_lt in Hend. apply Z.ltb_lt in Hlt.
    destruct (Z.le_gt_cases p 0) as [Hstuck|Hp].
    { rewrite (place_marks_stuck signal p frameEnd (S fuel) Hstuck marks nextMark Hend Hlt)
        in Hrun. discriminate. }
    cbn [place_marks] in Hrun. fold len in Hrun.
    destruct (Z.ltb_spec nextMark frameEnd) as [_|]; [|lia].
    destruct (Z.ltb_spec nextMark len) as [_|]; [|lia].
    cbn [andb] in Hrun.
    set (bestPos := peak_scan signal (Z.max 0 (nextMark - p / 4))
                      (Z.min len (nextMark + p / 4)) nextMark) in *.
    pose proof (last_valid len marks Hne (inv_valid _ _ Hinv)) as Hlast.
    assert (Hquarter : 0 <= p / 4 <= p - 1).
    { split; [apply Z.div_pos; lia|].
      assert (p / 4 < p) by (apply Z.div_lt_upper_bound; lia). lia. }
    assert (Hbest : nextMark - p / 4 <= bestPos /\ 0 <= bestPos < len).
    { destruct (peak_scan_range signal (Z.max 0 (nextMark - p / 4))
                  (Z.min len (nextMark + p / 4)) nextMark) as [H|H];
        fold bestPos in H; lia. }
    eapply IH; [| | |exact Hrun].
    + apply marks_inv_snoc; [exact Hinv | lia | right; lia].
    + intros Habs. apply app_eq_nil in Habs. destruct Habs; discriminate.
    + rewrite last_last. reflexivity.
Qed.

(** The period a frame gives to the mark loop, when it gives one. *)
Definition frame_period (sampleRate : float) (frame : PitchFrame) : option jsint :=
  if negb (voiced frame) || fleb (frequency frame) pos_zero then None
  else Some (Math_round (fdiv sampleRate (frequency frame))).

(** A period of at least one sample (an infinite or NaN period places
    nothing after the anchor). *)
Definition period_ok (sampleRate : float) (frame : PitchFrame) : Prop :=
  match frame_period sampleRate frame with
  | Some (JInt p) => 1 <= p
  | _ => True
  end.

Lemma marks_step_ok (fuel : nat) (signal : list float) (sampleRate : float)
    (hopSize : Z) (marks : list Z) (i : Z) (frame : PitchFrame) :
  let len := Z.of_nat (List.length signal) in
  period_ok sampleRate frame ->
  0 <= i * hopSize < len ->
  marks_inv len marks ->
  (List.length signal <= fuel)%nat ->
  exists marks',
    marks_step fuel signal sampleRate hopSize marks i frame = Returns marks' /\
    marks_inv len marks'.
Proof.
  intros len Hper Hstart Hinv Hfuel.
  unfold marks_step. unfold period_ok, frame_period in Hper.
  destruct (negb (voiced frame) || fleb (frequency frame) pos_zero);
    [exists marks; auto|].
  fold len.
  set (period := Math_round (fdiv sampleRate (frequency frame))) in *.
  set (marks1 := match marks with
                 | [] => [anchor_mark signal period (i * hopSize)]
                 | _ :: _ => marks
                 end).
  assert (H1 : marks_inv len marks1 /\ marks1 <> []).
  { unfold marks1. destruct marks as [|m ms]; [|split; [exact Hinv|discriminate]].
    split; [|discriminate]. apply marks_inv_single.
    unfold anchor_mark. fold len.
    destruct period as [p| | |]; try lia.
    - destruct (peak_scan_range signal (i * hopSize)
                  (Z.min (i * hopSize + p) len) (i * hopSize)) as [H|H]; lia.
    - destruct (peak_scan_range signal (i * hopSize) len (i * hopSize)) as [H|H]; lia. }
  destruct H1 as [Hinv1 Hne1].
  destruct period as [p| | |]; try solve [exists marks1; auto].
  match goal with |- context [if ?c then _ else _] => destruct c end;
    [|exists marks1; auto].
  pose proof (last_valid len marks1 Hne1 (inv_valid _ _ Hinv1)) as Hlast.
  destruct (place_marks_ok signal p (Z.min (i * hopSize + hopSize) len) fuel Hper
              marks1 (last marks1 0 + p) Hinv1 Hne1 eq_refl)
    as (marks' & Hrun & Hinv' & _); [fold len; lia|].
  exists marks'. auto.
Qed.

Lemma marks_loop_ok (fuel : nat) (signal : list float) (sampleRate : float)
    (hopSize : Z) (frames : list PitchFrame) :
  let len := Z.of_nat (List.length signal) in
  0 < hopSize ->
  Forall (period_ok sampleRate) frames ->
  (List.length signal <= fuel)%nat ->
  forall (marks : list Z) (i : Z),
  0 <= i -> (i + Z.of_nat (List.length frames) - 1) * hopSize < len ->
  marks_inv len marks ->
  exists marks',
    marks_loop fuel signal sampleRate hopSize marks i frames = Returns marks' /\
    marks_inv len marks'.
Proof.
  intros len Hhop Hper Hfuel.
  induction Hper as [|frame rest Hframe _ IH]; intros marks i Hi Hend Hinv; simpl.
  - exists marks. auto.
  - simpl List.length in Hend.
    destruct (marks_step_ok fuel signal sampleRate hopSize marks i frame Hframe)
      as (marks1 & Hrun & Hinv1); [fold len; nia | exact Hinv | exact Hfuel |].
    rewrite Hrun. simpl. apply IH; [lia | | exact Hinv1].
    replace (i + 1 + Z.of_nat (List.length rest) - 1)
      with (i + Z.of_nat (S (List.length rest)) - 1) by lia.
    exact Hend.
Qed.

(** The frames [detectPitch] emits all start inside the signal: the
    precondition of the mark loop that [correctPitch] provides by
    construction. *)
Lemma detected_frames_start_inside (len windowSize hop : Z) :
  0 < hop -> 0 <= windowSize -> 0 <= len ->
  (Z.of_nat (frames_from len windowSize hop 0) - 1) * hop < len.
Proof.
  intros Hhop Hwin Hlen. unfold frames_from. rewrite Z.add_0_l, Z.sub_0_r.
  destruct (Z.ltb_spec windowSize len) as [Hlt|Hge].
  - assert (Hq : 0 <= (len - windowSize - 1) / hop) by (apply Z.div_pos; lia).
    rewrite Z2Nat.id by lia.
    pose proof (Z.mul_div_le (len - windowSize - 1) hop Hhop) as Hmul.
    replace (((len - windowSize - 1) / hop + 1 - 1) * hop)
      with (hop * ((len - windowSize - 1) / hop)) by ring.
    lia.
  - change (Z.of_nat (Z.to_nat 0)) with 0. lia.
Qed.

(** *** The marks of a call that returns

    Every frame that is looked at starts inside the signal: that is all
    the loop over the frames needs of them. *)

Lemma marks_step_returned (fuel : nat) (signal : list float) (sampleRate : float)
    (hopSize : Z) (marks : list Z) (i : Z) (frame : PitchFrame) (marks' : list Z) :
  let len := Z.of_nat (List.length signal) in
  0 <= i * hopSize < len ->
  marks_inv len marks ->
  marks_step fuel signal sampleRate hopSize marks i frame = Returns marks' ->
  marks_inv len marks'.
Proof.
  intros len Hstart Hinv. unfold marks_step.
  destruct (negb (voiced frame) || fleb (frequency frame) pos_zero);
    [intros H; injection H as <-; exact Hinv|].
  fold len.
  set (period := Math_round (fdiv sampleRate (frequency frame))).
  set (marks1 := match marks with
                 | [] => [anchor_mark signal period (i * hopSize)]
                 | _ :: _ => marks
                 end).
  assert (H1 : marks_inv len marks1 /\ marks1 <> []).
  { unfold marks1. destruct marks as [|m ms]; [|split; [exact Hinv|discriminate]].
    split; [|discriminate]. apply marks_inv_single.
    unfold anchor_mark. fold len.
    destruct period as [p| | |]; try lia.
    - destruct (peak_scan_range signal (i * hopSize)
                  (Z.min (i * hopSize + p) len) (i * hopSize)) as [H|H]; lia.
    - destruct (peak_scan_range signal (i * hopSize) len (i * hopSize)) as [H|H]; lia. }
  destruct H1 as [Hinv1 Hne1].
  destruct period as [p| | |]; try (intros H; injection H as <-; exact Hinv1).
  match goal with |- context [if ?c then _ else _] => destruct c end;
    [|intros H; injection H as <-; exact Hinv1].
  intros Hrun.
  apply (place_marks_returned signal p (Z.min (i * hopSize + hopSize) len) fuel
           marks1 (last marks1 0 + p) marks' Hinv1 Hne1 eq_refl Hrun).
Qed.

Lemma marks_loop_returned (fuel : nat) (signal : list float) (sampleRate : float)
    (hopSize : Z) (frames : list PitchFrame) :
  let len := Z.of_nat (List.length signal) in
  forall (marks : list Z) (i : Z) (marks' : list Z),
  (forall k : nat, (k < List.length frames)%nat ->
     0 <= (i + Z.of_nat k) * hopSize < len) ->
  marks_inv len marks ->
  marks_loop fuel signal sampleRate hopSize marks i frames = Returns marks' ->
  marks_inv len marks'.
Proof.
  intros len. induction frames as [|frame rest IH]; intros marks i marks' Hstart Hinv;
    cbn [marks_loop]; [intros H; injection H as <-; exact Hinv|].
  destruct (marks_step fuel signal sampleRate hopSize marks i frame) as [marks1| |] eqn:Hstep;
    cbn [bind]; try discriminate.
  apply IH.
  - intros k Hk. replace (i + 1 + Z.of_nat k) with (i + Z.of_nat (S k)) by lia.
    apply Hstart. simpl. lia.
  - apply (marks_step_returned fuel signal sampleRate hopSize marks i frame marks1);
      [|exact Hinv|exact Hstep].
    replace i with (i + Z.of_nat 0) by lia. apply Hstart. simpl. lia.
Qed.

(** *** The frames the mark loop is given

    [findPitchMarks] has one caller, [correctPitch], which gives it the
    signal it gave to [detectPitch] and the frames of that track after
    smoothing, with the same hop. *)

(** The frames of a track as [smoothPitchTrack] leaves them. *)
Definition smoothed_frames (Math_log2 : float -> float) (Number_toString : float -> string)
    (track_frames : list PitchFrame) (medianWindowSize : Z) : list PitchFrame :=
  let '(h0, arr) := alloc_frames track_frames in
  let '(h1, smoothed) := smoothPitchTrack Math_log2 Number_toString h0 arr medianWindowSize in
  read_frames h1 smoothed.

Lemma smoothed_frames_length (Math_log2 : float -> float)
    (Number_toString : float -> string) (fs : list PitchFrame) (medianWindowSize : Z) :
  List.length (smoothed_frames Math_log2 Number_toString fs medianWindowSize)
  = List.length fs.
Proof.
  unfold smoothed_frames, alloc_frames, smoothPitchTrack, read_frames.
  rewrite length_map, length_seq. reflexivity.
Qed.

Section DetectedFrames.

Variable Math_log2 : float -> float.
Variable Number_toString : float -> string.
Variables (signal : list float) (sampleRate : float) (hop windowSize : Z).
Variables (threshold : float) (minPeriod maxPeriod : jsint).

Let len := Z.of_nat (List.length signal).
Let loop (fuel : nat) (center : Z) :=
  detect_loop Math_log2 Number_toString fuel signal sampleRate hop windowSize
    threshold minPeriod maxPeriod center.

(** With a hop of 0 or less the frame loop, once entered, returns no
    track. *)
Lemma detect_loop_stuck (fuel : nat) :
  hop <= 0 ->
  forall (center : Z) (fs : list PitchFrame),
  center + windowSize < len -> loop fuel center <> Returns fs.
Proof.
  intros Hhop. unfold loop.
  induction fuel as [|fuel IH]; intros center fs Hin; cbn [detect_loop]; fold len;
    destruct (Z.ltb_spec (center + windowSize) len) as [_|]; try lia; [discriminate|].
  destruct (windowSize / 2 <? 0); [discriminate|].
  specialize (IH (center + hop)).
  destruct (detect_loop Math_log2 Number_toString fuel signal sampleRate hop windowSize
              threshold minPeriod maxPeriod (center + hop)) as [rest| |];
    cbn [bind]; try discriminate.
  exfalso. apply (IH rest); [lia|reflexivity].
Qed.

(** Every frame of a track that is returned starts inside the signal. *)
Lemma detect_loop_frames_inside (fuel : nat) :
  forall (center : Z) (fs : list PitchFrame),
  0 <= center -> loop fuel center = Returns fs ->
  forall k : nat, (k < List.length fs)%nat -> 0 <= center + Z.of_nat k * hop < len.
Proof.
  induction fuel as [|fuel IH]; intros center fs Hcenter Hrun k Hk.
  - unfold loop in Hrun. cbn [detect_loop] in Hrun. fold len in Hrun.
    destruct (center + windowSize <? len); [discriminate|].
    injection Hrun as <-. simpl in Hk. lia.
  - destruct (Z.ltb_spec (center + windowSize) len) as [Hin|Hout].
    2:{ unfold loop in Hrun. cbn [detect_loop] in Hrun. fold len in Hrun.
        destruct (Z.ltb_spec (center + windowSize) len) as [|_]; [lia|].
        injection Hrun as <-. simpl in Hk. lia. }
    destruct (Z.le_gt_cases hop 0) as [Hstuck|Hhop].
    { exfalso. exact (detect_loop_stuck (S fuel) Hstuck center fs Hin Hrun). }
    unfold loop in Hrun. cbn [detect_loop] in Hrun. fold len in Hrun.
    destruct (Z.ltb_spec (center + windowSize) len) as [_|]; [|lia].
    destruct (Z.ltb_spec (windowSize / 2) 0) as [|Hhalf]; [discriminate|].
    assert (Hwin : 0 <= windowSize).
    { destruct (Z.le_gt_cases 0 windowSize) as [H|H]; [exact H|].
      assert (windowSize / 2 < 0) by (apply Z.div_lt_upper_bound; lia). lia. }
    destruct (detect_loop Math_log2 Number_toString fuel signal sampleRate hop windowSize
                threshold minPeriod maxPeriod (center + hop)) as [rest| |] eqn:Hrest;
      cbn [bind] in Hrun; try discriminate.
    injection Hrun as <-.
    destruct k as [|k]; [lia|].
    pose proof (IH (center + hop) rest ltac:(lia) Hrest k ltac:(simpl in Hk; lia)).
    lia.
Qed.

(** A track that has a frame was made with a positive hop. *)
Lemma detect_loop_hop_positive (fuel : nat) (center : Z) (fs : list PitchFrame) :
  loop fuel center = Returns fs -> fs <> [] -> 0 < hop.
Proof.
  intros Hrun Hne.
  destruct (Z.ltb_spec (center + windowSize) len) as [Hin|Hout].
  - destruct (Z.le_gt_cases hop 0) as [Hstuck|Hhop]; [|lia].
    exfalso. exact (detect_loop_stuck fuel Hstuck center fs Hin Hrun).
  - exfalso. apply Hne. unfold loop in Hrun.
    destruct fuel; cbn [detect_loop] in Hrun; fold len in Hrun;
      destruct (Z.ltb_spec (center + windowSize) len) as [|_]; try lia;
      injection Hrun as <-; reflexivity.
Qed.

End DetectedFrames.

(** ** PSOLA: the buffers and the normalisation *)

Lemma SFcompare_antisym (a b : float) (c : comparison) :
  SFcompare a b = Some c -> SFcompare b a = Some (CompOpp c).
Proof.
  destruct a as [sa|sa| |sa ma ea], b as [sb|sb| |sb mb eb];
    try discriminate;
    try (simpl; intros H; injection H as <-; reflexivity);
    try (simpl; destruct sa; intros H; injection H as <-; reflexivity);
    try (simpl; destruct sb; intros H; injection H as <-; reflexivity);
    try (simpl; destruct sa, sb; intros H; injection H as <-; reflexivity).
  unfold SFcompare.
  rewrite (Z.compare_antisym ea eb).
  change (Pos.compare_cont Eq mb ma) with (Pos.compare mb ma).
  change (Pos.compare_cont Eq ma mb) with (Pos.compare ma mb).
  rewrite (Pos.compare_antisym ma mb).
  destruct sa, sb; intros H; injection H as <-; try reflexivity;
    destruct (ea ?= eb); simpl; try reflexivity;
    destruct (ma ?= mb)%positive; reflexivity.
Qed.

Lemma fltb_not_fgtb (a b : float) : fltb a b = true -> fgtb a b = false.
Proof.
  unfold fltb, fgtb, SFltb. destruct (SFcompare a b) as [c|] eqn:E; [|discriminate].
  rewrite (SFcompare_antisym a b c E). destruct c; simpl; congruence.
Qed.

Lemma update_nth_Forall {A : Type} (P : A -> Prop) (n : nat) (v : A) (l : list A) :
  Forall P l -> P v -> Forall P (update_nth n v l).
Proof.
  intros Hl Hv. revert n. induction Hl as [|x l Hx Hl IH]; intros [|n]; simpl;
    constructor; auto.
Qed.

Lemma aset_length (a : list float) (i : Z) (v : float) :
  List.length (aset a i v) = List.length a.
Proof. unfold aset. destruct (i <? 0); [reflexivity|apply update_nth_length]. Qed.

Lemma aset_Forall (P : float -> Prop) (a : list float) (i : Z) (v : float) :
  Forall P a -> P v -> Forall P (aset a i v).
Proof.
  intros Ha Hv. unfold aset. destruct (i <? 0); [exact Ha|].
  apply update_nth_Forall; assumption.
Qed.

Lemma aget_map_zrange (f : Z -> float) (n : nat) (i : Z) :
  0 <= i < Z.of_nat n -> aget (map f (zrange n)) i = f i.
Proof.
  intros Hi. unfold aget. destruct (Z.ltb_spec i 0) as [|_]; [lia|].
  unfold zrange, zrange_from. rewrite map_map.
  rewrite (nth_indep _ NaN (f (0 + Z.of_nat O)))
    by (rewrite length_map, length_seq; lia).
  rewrite (map_nth (fun k => f (0 + Z.of_nat k)) (seq 0 n) O (Z.to_nat i)).
  rewrite seq_nth by lia. f_equal. lia.
Qed.

(** Both buffers keep the signal's length, and the envelope holds stored
    binary32 values only. *)
Record buffers_inv (n : nat) (b : buffers) : Prop := {
  out_length : List.length (out_buf b) = n;
  env_length : List.length (env_buf b) = n;
  env_stored : Forall not_epsilon (env_buf b)
}.

Section PsolaFacts.

Variable Math_cos : float -> float.

Lemma add_grain_sample_inv (n : nat) (signal : list float)
    (nearestInputMark outPos p : Z) (b : buffers) (j : Z) :
  buffers_inv n b ->
  buffers_inv n (add_grain_sample Math_cos signal nearestInputMark outPos p b j).
Proof.
  intros [Ho He Hs]. unfold add_grain_sample.
  destruct ((nearestInputMark + j <? 0) || _); [split; assumption|].
  destruct ((outPos + j <? 0) || _); [split; assumption|].
  split; cbn [out_buf env_buf].
  - rewrite aset_length. exact Ho.
  - rewrite aset_length. exact He.
  - apply aset_Forall; [exact Hs|apply fround_not_epsilon].
Qed.

Lemma place_grain_inv (n : nat) (signal : list float) (pitchMarks : list Z)
    (frames : list PitchFrame) (sampleRate : float) (hopSize : Z)
    (st st' : buffers * Z) (outMark : jsint) :
  buffers_inv n (fst st) ->
  place_grain Math_cos signal pitchMarks frames sampleRate hopSize st outMark
  = Returns st' ->
  buffers_inv n (fst st').
Proof.
  intros Hinv. unfold place_grain. destruct st as [b idx]. cbn [fst] in Hinv.
  match goal with
  | |- (let '(_, _) := ?scan in _) = _ -> _ => destruct scan as [nearest idx']
  end.
  match goal with |- (if ?c then _ else _) = _ -> _ => destruct c end;
    [intros H; injection H as <-; exact Hinv|].
  destruct (Math_round _) as [p| | |];
    try (intros H; injection H as <-; exact Hinv); try discriminate.
  destruct (2 ^ 53 <? p); [discriminate|].
  destruct outMark as [outPos| | |];
    try (intros H; injection H as <-; exact Hinv).
  intros H; injection H as <-. cbn [fst].
  match goal with |- buffers_inv n (fold_left _ ?l b) => generalize l end.
  intros js.
  revert b Hinv. induction js as [|j js IH]; intros b Hinv; simpl; [exact Hinv|].
  apply IH, add_grain_sample_inv, Hinv.
Qed.

Lemma grains_loop_inv (n : nat) (signal : list float) (pitchMarks : list Z)
    (frames : list PitchFrame) (sampleRate : float) (hopSize : Z)
    (outputMarks : list jsint) :
  forall st st' : buffers * Z,
  buffers_inv n (fst st) ->
  grains_loop Math_cos signal pitchMarks frames sampleRate hopSize st outputMarks
  = Returns st' ->
  buffers_inv n (fst st').
Proof.
  induction outputMarks as [|outMark rest IH]; intros st st' Hinv; simpl.
  - intros H; injection H as <-; exact Hinv.
  - destruct (place_grain Math_cos signal pitchMarks frames sampleRate hopSize st outMark)
      as [st1| |] eqn:E; simpl; try discriminate.
    apply IH. eapply place_grain_inv; eassumption.
Qed.

Lemma psola_accumulate_inv (fuel : nat) (signal : list float) (pitchMarks : list Z)
    (frames : list PitchFrame) (targetFreqs : list float) (sampleRate : float)
    (hopSize : Z) (b : buffers) :
  psola_accumulate Math_cos fuel signal pitchMarks frames targetFreqs sampleRate hopSize
  = Returns b ->
  buffers_inv (List.length signal) b.
Proof.
  unfold psola_accumulate.
  destruct (output_marks_loop _ _ _ _ _ _ _ _) as [oms| |]; simpl; try discriminate.
  destruct (grains_loop _ _ _ _ _ _ _ _) as [st| |] eqn:E; simpl; try discriminate.
  intros H; injection H as <-.
  eapply grains_loop_inv; [|exact E]. cbn [fst].
  split; cbn [out_buf env_buf]; try apply repeat_length.
  apply Forall_forall. intros x Hx. apply repeat_spec in Hx. subst x.
  unfold not_epsilon. discriminate.
Qed.

End PsolaFacts.

(** ** Results on [detectPitch] *)

(** C2, as the code has it: with a positive hop and a non-negative window,
    [detectPitch] returns (a fuel of the signal's length is enough); the
    loop runs while [center + windowSize < signal.length], so a signal
    longer than the window gives
    [floor((signal.length - windowSize - 1) / hopSize) + 1] frames, and a
    signal no longer than the window gives no frame and [medianPitch = 0]. *)
Theorem detectPitch_frame_count
    (Math_log2 : float -> float) (Number_toString : float -> string)
    (fuel : nat) (signal : list float) (sampleRate : float) (hop windowSize : Z)
    (threshold minFreq maxFreq : float) :
  0 < hop -> 0 <= windowSize -> (List.length signal <= fuel)%nat ->
  let len := Z.of_nat (List.length signal) in
  exists track,
    detectPitch Math_log2 Number_toString fuel signal sampleRate hop windowSize
      threshold minFreq maxFreq = Returns track /\
    Z.of_nat (List.length (frames track))
    = (if windowSize <? len then (len - windowSize - 1) / hop + 1 else 0) /\
    (len <= windowSize -> frames track = [] /\ medianPitch track = pos_zero).
Proof.
  intros Hhop Hwin Hfuel len.
  destruct (detectPitch_returns Math_log2 Number_toString fuel signal sampleRate
              hop windowSize threshold minFreq maxFreq Hhop Hwin Hfuel)
    as (track & Hrun & Hcount & Hmedian).
  exists track. split; [exact Hrun|].
  fold len in Hcount. unfold frames_from in Hcount.
  rewrite Z.add_0_l, Z.sub_0_r in Hcount.
  split.
  - rewrite Hcount.
    destruct (Z.ltb_spec windowSize len) as [Hlt|Hge]; [|reflexivity].
    rewrite Z2Nat.id; [reflexivity|].
    assert (0 <= (len - windowSize - 1) / hop) by (apply Z.div_pos; lia). lia.
  - intros Hshort. destruct (Z.ltb_spec windowSize len); [lia|].
    assert (Hnil : frames track = [])
      by (apply length_zero_iff_nil; rewrite Hcount; reflexivity).
    split; [exact Hnil|]. rewrite Hmedian, Hnil. reflexivity.
Qed.

Lemma detectPitch_frame_count_witness :
  let signal := repeat pos_zero 8 in
  0 < 2 /\ 0 <= 4 /\ (List.length signal <= 8)%nat /\
  exists track,
    detectPitch stub_fn stub_toString 8 signal (of_Z 44100) 2 4
      default_threshold default_minFreq default_maxFreq = Returns track /\
    Z.of_nat (List.length (frames track)) = 2 /\
    (8 <= 4 -> frames track = [] /\ medianPitch track = pos_zero).
Proof.
  cbv zeta. split; [lia|]. split; [lia|]. split; [simpl; lia|].
  apply (detectPitch_frame_count stub_fn stub_toString 8
           (repeat pos_zero 8) (of_Z 44100) 2 4
           default_threshold default_minFreq default_maxFreq);
    [lia | lia | simpl; lia].
Defined.

(** C2 as stated fails: a signal of 8 samples with a window of 4 and a hop
    of 2 would have [floor((8 - 4) / 2) + 1 = 3] frames; the loop stops at
    the centre 4, where [4 + 4 < 8] fails, and there are 2 (whatever the
    runtime's [Math.log2] and number formatting are). *)
Lemma detectPitch_frame_count_as_stated_fails :
  ~ exists (Math_log2 : float -> float) (Number_toString : float -> string) track,
      detectPitch Math_log2 Number_toString 8 (repeat pos_zero 8) (of_Z 44100) 2 4
        default_threshold default_minFreq default_maxFreq = Returns track /\
      Z.of_nat (List.length (frames track)) = (8 - 4) / 2 + 1.
Proof.
  intros (lg & ts & track & Hrun & Hcount).
  destruct (detectPitch_returns lg ts 8 (repeat pos_zero 8) (of_Z 44100) 2 4
              default_threshold default_minFreq default_maxFreq)
    as (track' & Hrun' & Hcount' & _); [lia | lia | simpl; lia |].
  rewrite Hrun in Hrun'. injection Hrun' as <-.
  rewrite Hcount' in Hcount. vm_compute in Hcount. discriminate.
Qed.

(** C5: for an all-zero signal of any length and any sample rate,
    [detectPitch] with its default hop, window, threshold and search band
    returns a track whose frames all have [voiced = false] and
    [frequency = 0], and whose [medianPitch] is 0.  The zero running sum
    makes the normalised difference NaN from lag 1 on, which no comparison
    takes for a dip. *)
Theorem detectPitch_silence
    (Math_log2 : float -> float) (Number_toString : float -> string)
    (fuel : nat) (signal : list float) (sampleRate : float) :
  Forall is_zero signal -> (List.length signal <= fuel)%nat ->
  exists track,
    detectPitch Math_log2 Number_toString fuel signal sampleRate
      default_hopSize default_windowSize default_threshold
      default_minFreq default_maxFreq = Returns track /\
    Forall (fun f => voiced f = false /\ frequency f = pos_zero) (frames track) /\
    medianPitch track = pos_zero.
Proof.
  intros Hz Hfuel. unfold detectPitch.
  rewrite detect_loop_returns by (unfold default_hopSize, default_windowSize; lia).
  cbn [bind]. eexists. split; [reflexivity|]. cbn [frames medianPitch].
  match goal with |- Forall _ ?fs /\ _ =>
    assert (Hall : Forall (fun f => voiced f = false /\ frequency f = pos_zero) fs)
  end.
  { apply Forall_map, Forall_forall. intros center _.
    destruct (analyse_frame_silent Math_log2 Number_toString signal sampleRate
                (Z.to_nat (default_windowSize / 2)) default_threshold
                (Math_floor (fdiv sampleRate default_maxFreq))
                (Math_ceil (fdiv sampleRate default_minFreq)) center Hz)
      as [Hfreq Hvoiced].
    split; [rewrite Hvoiced; reflexivity | exact Hfreq]. }
  split; [exact Hall|].
  unfold median_of_voiced.
  match goal with |- context [filter voiced ?fs] =>
    replace (filter voiced fs) with (@nil PitchFrame)
  end; [reflexivity|].
  symmetry. revert Hall. generalize (map
    (analyse_frame Math_log2 Number_toString signal sampleRate
       (Z.to_nat (default_windowSize / 2)) default_threshold
       (Math_floor (fdiv sampleRate default_maxFreq))
       (Math_ceil (fdiv sampleRate default_minFreq)))
    (frame_centers default_hopSize 0
       (frames_from (Z.of_nat (List.length signal)) default_windowSize
          default_hopSize 0))).
  induction 1 as [|f fs [Hv _] _ IH]; simpl; [reflexivity|].
  rewrite Hv. exact IH.
Qed.

Lemma detectPitch_silence_witness :
  let signal := repeat pos_zero 2400 in
  Forall is_zero signal /\ (List.length signal <= 2400)%nat /\
  exists track,
    detectPitch stub_fn stub_toString 2400 signal (of_Z 44100)
      default_hopSize default_windowSize default_threshold
      default_minFreq default_maxFreq = Returns track /\
    Forall (fun f => voiced f = false /\ frequency f = pos_zero) (frames track) /\
    medianPitch track = pos_zero.
Proof.
  cbv zeta.
  assert (Hz : Forall is_zero (repeat pos_zero 2400))
    by (apply Forall_forall; intros x Hx; apply repeat_spec in Hx; subst x; exact I).
  assert (Hlen : (List.length (repeat pos_zero 2400) <= 2400)%nat)
    by (rewrite repeat_length; apply Nat.le_refl).
  split; [exact Hz|]. split; [exact Hlen|].
  exact (detectPitch_silence stub_fn stub_toString 2400
           (repeat pos_zero 2400) (of_Z 44100) Hz Hlen).
Defined.

(** ** Results on [correctPitch] and the target pitches *)

(** C1: with [tuneAmount <= 0], [correctPitch] returns a copy of the input:
    the same length and, sample by sample, the same values.  The result is
    reached before any stage of the pipeline: it holds for every fuel
    (even none) and whatever the runtime's functions are. *)
Theorem correctPitch_bypass
    (Math_log2 Math_exp Math_sin Math_cos : float -> float)
    (Math_pow : float -> float -> float) (Number_toString : float -> string)
    (fuel : nat) (inputSignal : list float) (sampleRate : float)
    (params : CorrectionParams) :
  fleb (tuneAmount params) pos_zero = true ->
  exists output,
    correctPitch Math_log2 Math_exp Math_sin Math_cos Math_pow Number_toString
      fuel inputSignal sampleRate params = Returns output /\
    List.length output = List.length inputSignal /\
    forall i, aget output i = aget inputSignal i.
Proof.
  intros Htune. exists inputSignal. unfold correctPitch. rewrite Htune.
  repeat split.
Qed.

Lemma correctPitch_bypass_witness :
  let signal := [lit 1 2; lit (-1) 4; pos_zero] in
  let params := {| retuneSpeed := of_Z 20; humanize := of_Z 10; tuneAmount := pos_zero |} in
  fleb (tuneAmount params) pos_zero = true /\
  exists output,
    correctPitch stub_fn stub_fn stub_fn stub_fn stub_pow
      stub_toString 0 signal (of_Z 44100) params = Returns output /\
    List.length output = List.length signal /\
    forall i, aget output i = aget signal i.
Proof.
  cbv zeta. split; [reflexivity|].
  apply (correctPitch_bypass stub_fn stub_fn stub_fn stub_fn
           stub_pow stub_toString 0
           [lit 1 2; lit (-1) 4; pos_zero] (of_Z 44100)
           {| retuneSpeed := of_Z 20; humanize := of_Z 10; tuneAmount := pos_zero |}).
  reflexivity.
Defined.

(** ** Results on [smoothPitchTrack] *)

(** C3, as the code has it: [smoothPitchTrack] returns a copy of the
    track's array holding the track's own frame objects in the same order;
    it creates no object, never changes the time, the confidence or the
    voiced flag of a frame, and changes no field of an unvoiced frame or of
    a frame the track does not hold. *)
Theorem smoothPitchTrack_preserves
    (Math_log2 : float -> float) (Number_toString : float -> string)
    (h : heap) (track_frames : list ref) (medianWindowSize : Z) :
  let result := smoothPitchTrack Math_log2 Number_toString h track_frames medianWindowSize in
  snd result = track_frames /\
  List.length (fst result) = List.length h /\
  forall r : ref,
    time (deref (fst result) r) = time (deref h r) /\
    confidence (deref (fst result) r) = confidence (deref h r) /\
    voiced (deref (fst result) r) = voiced (deref h r) /\
    (voiced (deref h r) = false -> deref (fst result) r = deref h r) /\
    (~ In r track_frames -> deref (fst result) r = deref h r).
Proof.
  cbv zeta. unfold smoothPitchTrack. cbn [fst snd].
  change (fold_left (smooth_at Math_log2 Number_toString track_frames (medianWindowSize / 2))
            (seq 0 (List.length track_frames)) h)
    with (smooth_run Math_log2 Number_toString track_frames (medianWindowSize / 2) h
            (List.length track_frames)).
  split; [reflexivity|]. split; [apply smooth_run_length|].
  intros r.
  destruct (smooth_run_preserved Math_log2 Number_toString track_frames
              (medianWindowSize / 2) h (List.length track_frames) (Nat.le_refl _) r)
    as ((Ht & Hc & Hv) & Hu & Ho).
  repeat split; assumption.
Qed.

(** C3 as stated fails: the returned array shares its frame objects with
    the track, so the assignments reach the track's frames.  On the track
    400, 140, 210 Hz the first frame is halved (400 / 210 > 1.5), and the
    track's first frame reads 200 Hz after the call. *)
Lemma smoothPitchTrack_mutates_input :
  ~ exists (Math_log2 : float -> float) (Number_toString : float -> string),
      let h' := fst (smoothPitchTrack Math_log2 Number_toString
                       three_frames three_frames_track 5) in
      forall i : nat,
        frequency (nth i (read_frames h' three_frames_track) unallocated)
        = frequency (nth i (read_frames three_frames three_frames_track) unallocated).
Proof.
  intros (lg & ts & H). specialize (H O). vm_compute in H. discriminate.
Qed.

(** C4, as the code has it.  For a track of distinct frame objects none
    of whose voiced frames has a NaN frequency, let [inp] be the frames
    before the call and [out] the frames after it.  A voiced frame [i] of
    [out] is compared with the median [m] of the voiced frequencies in the
    window of [i], read where the frames before [i] already have their
    output values and the frames from [i] on still have their input
    values; no value read is NaN, so the sorted order, and with it the
    median, is determined.  With fewer than 3 voiced frames in the window
    the frame is unchanged; otherwise its frequency is the input
    frequency, halved when [input / m > 1.5], doubled when
    [input / m < 0.67], and midiNote, centsOff and noteName are recomputed
    from the result. *)
Theorem smoothPitchTrack_frame
    (Math_log2 : float -> float) (Number_toString : float -> string)
    (h : heap) (track_frames : list ref) (medianWindowSize : Z) (i : nat) :
  well_formed h track_frames -> (i < List.length track_frames)%nat ->
  Forall (fun f => voiced f = true -> frequency f <> NaN) (read_frames h track_frames) ->
  let h' := fst (smoothPitchTrack Math_log2 Number_toString h track_frames medianWindowSize) in
  let inp := read_frames h track_frames in
  let out := read_frames h' track_frames in
  let f := nth i inp unallocated in
  let g := nth i out unallocated in
  let nb := neighborhood_values (firstn i out ++ skipn i inp)
              (medianWindowSize / 2) (Z.of_nat i) in
  voiced g = true ->
  Forall (fun x => x <> NaN) nb /\
  ((List.length nb < 3)%nat -> g = f) /\
  ((3 <= List.length nb)%nat ->
   let m := median_of nb in
   let ratio := fdiv (frequency f) m in
   let midi := frequencyToMidi Math_log2 (frequency g) in
   frequency g
   = (if fgtb ratio (lit 3 2) then fdiv (frequency f) (of_Z 2)
      else if fltb ratio (lit 67 100) then fmul (frequency f) (of_Z 2)
      else frequency f) /\
   midiNote g = Math_roundF midi /\
   centsOff g = getCentsOff midi /\
   noteName g = midiToNoteName Number_toString midi).
Proof.
  intros Hwf Hi Hnum. cbv zeta. unfold smoothPitchTrack. cbn [fst].
  change (fold_left (smooth_at Math_log2 Number_toString track_frames (medianWindowSize / 2))
            (seq 0 (List.length track_frames)) h)
    with (smooth_run Math_log2 Number_toString track_frames (medianWindowSize / 2) h
            (List.length track_frames)).
  intros Hvoiced. split.
  { apply neighborhood_values_numbers, Forall_app. split.
    - apply Forall_firstn_keep, smoothed_frames_numbers; assumption.
    - apply Forall_skipn_keep, Hnum. }
  revert Hvoiced.
  pose proof (smoothed_frame_value Math_log2 Number_toString h track_frames
                (medianWindowSize / 2) i Hwf Hi) as Hval.
  cbv zeta in Hval. rewrite Hval. clear Hval.
  set (f := nth i (read_frames h track_frames) unallocated).
  set (nb := neighborhood_values _ _ _).
  destruct (voiced f) eqn:Hv; cbn [andb]; [|intros; congruence].
  destruct (Nat.leb_spec 3 (List.length nb)) as [Hge|Hlt]; intros _.
  - split; [lia|]. intros _. unfold corrected_frame.
    cbn [frequency midiNote centsOff noteName]. repeat split.
  - split; [reflexivity|]. lia.
Qed.

Lemma smoothPitchTrack_frame_witness :
  let h' := fst (smoothPitchTrack stub_fn stub_toString
                   three_frames three_frames_track 5) in
  let inp := read_frames three_frames three_frames_track in
  let out := read_frames h' three_frames_track in
  let f := nth 1 inp unallocated in
  let g := nth 1 out unallocated in
  let nb := neighborhood_values (firstn 1 out ++ skipn 1 inp) (5 / 2) (Z.of_nat 1) in
  well_formed three_frames three_frames_track /\
  (1 < List.length three_frames_track)%nat /\
  Forall (fun f => voiced f = true -> frequency f <> NaN)
    (read_frames three_frames three_frames_track) /\
  voiced g = true /\
  Forall (fun x => x <> NaN) nb /\
  ((List.length nb < 3)%nat -> g = f) /\
  ((3 <= List.length nb)%nat ->
   let m := median_of nb in
   let ratio := fdiv (frequency f) m in
   let midi := frequencyToMidi stub_fn (frequency g) in
   frequency g
   = (if fgtb ratio (lit 3 2) then fdiv (frequency f) (of_Z 2)
      else if fltb ratio (lit 67 100) then fmul (frequency f) (of_Z 2)
      else frequency f) /\
   midiNote g = Math_roundF midi /\
   centsOff g = getCentsOff midi /\
   noteName g = midiToNoteName stub_toString midi).
Proof.
  assert (Hwf : well_formed three_frames three_frames_track).
  { split.
    - repeat constructor; simpl; intuition discriminate.
    - repeat constructor. }
  assert (Hi : (1 < List.length three_frames_track)%nat) by (simpl; lia).
  assert (Hv : voiced (nth 1 (read_frames
                 (fst (smoothPitchTrack stub_fn stub_toString
                         three_frames three_frames_track 5))
                 three_frames_track) unallocated) = true)
    by (vm_compute; reflexivity).
  assert (Hnum : Forall (fun f => voiced f = true -> frequency f <> NaN)
                   (read_frames three_frames three_frames_track))
    by (repeat constructor; intros _; vm_compute; discriminate).
  cbv zeta. split; [exact Hwf|]. split; [exact Hi|]. split; [exact Hnum|].
  split; [exact Hv|].
  exact (smoothPitchTrack_frame stub_fn stub_toString
           three_frames three_frames_track 5 1 Hwf Hi Hnum Hv).
Defined.

(** C4 as stated fails where an earlier frame of the window was corrected.
    On the track 400, 140, 210 Hz the median of the input frequencies
    around the second frame is 210 and [140 / 210 < 0.67], so the frame
    would be doubled to 280 Hz; the first frame has been halved to 200 Hz
    by then, the median read is 200, [140 / 200 = 0.7], and the frame
    stays at 140 Hz. *)
Lemma smoothPitchTrack_median_not_from_input :
  ~ exists (Math_log2 : float -> float) (Number_toString : float -> string),
      let h' := fst (smoothPitchTrack Math_log2 Number_toString
                       three_frames three_frames_track 5) in
      let inp := read_frames three_frames three_frames_track in
      let out := read_frames h' three_frames_track in
      let m := median_of (neighborhood_values inp (5 / 2) 1) in
      let ratio := fdiv (frequency (nth 1 inp unallocated)) m in
      frequency (nth 1 out unallocated)
      = (if fgtb ratio (lit 3 2) then fdiv (frequency (nth 1 inp unallocated)) (of_Z 2)
         else if fltb ratio (lit 67 100) then fmul (frequency (nth 1 inp unallocated)) (of_Z 2)
         else frequency (nth 1 inp unallocated)).
Proof.
  intros (lg & ts & H). vm_compute in H. discriminate.
Qed.
(** ** Results on [findPitchMarks] *)

(** C6.  For every signal and every smoothed frame sequence, that is, the
    frames of the track [detectPitch] returns for the signal, as
    [smoothPitchTrack] leaves them: whatever marks [findPitchMarks]
    returns for them, with the same hop, are strictly increasing, and
    each is an index into the signal.  It does return them, within a fuel
    of the signal's length, when every voiced frame has a period
    [round(sampleRate / frequency)] of at least one sample. *)
Theorem findPitchMarks_increasing_valid
    (Math_log2 : float -> float) (Number_toString : float -> string)
    (fuel : nat) (signal : list float) (sampleRate : float)
    (hopSize windowSize : Z) (threshold minFreq maxFreq : float)
    (medianWindowSize : Z) (track : PitchTrack) :
  detectPitch Math_log2 Number_toString fuel signal sampleRate hopSize windowSize
    threshold minFreq maxFreq = Returns track ->
  let smoothed :=
    smoothed_frames Math_log2 Number_toString (frames track) medianWindowSize in
  (forall (fuel' : nat) (marks : list Z),
     findPitchMarks fuel' signal smoothed sampleRate hopSize = Returns marks ->
     strictly_increasing marks /\
     valid_indices (Z.of_nat (List.length signal)) marks) /\
  (Forall (period_ok sampleRate) smoothed ->
   forall fuel' : nat, (List.length signal <= fuel')%nat ->
   exists marks, findPitchMarks fuel' signal smoothed sampleRate hopSize = Returns marks).
Proof.
  intros Hdetect smoothed. unfold detectPitch in Hdetect.
  destruct (detect_loop Math_log2 Number_toString fuel signal sampleRate hopSize
              windowSize threshold (Math_floor (fdiv sampleRate maxFreq))
              (Math_ceil (fdiv sampleRate minFreq)) 0) as [fs| |] eqn:Hloop;
    cbn [bind] in Hdetect; try discriminate.
  injection Hdetect as <-. cbn [frames] in smoothed.
  pose proof (detect_loop_frames_inside Math_log2 Number_toString signal sampleRate
                hopSize windowSize threshold _ _ fuel 0 fs (Z.le_refl 0) Hloop)
    as Hinside.
  assert (Hlen : List.length smoothed = List.length fs)
    by apply smoothed_frames_length.
  unfold findPitchMarks. split.
  - intros fuel' marks Hmarks.
    destruct (marks_loop_returned fuel' signal sampleRate hopSize smoothed [] 0 marks)
      as [Hinc Hval _].
    + intros k Hk. rewrite Hlen in Hk. specialize (Hinside k Hk). lia.
    + apply marks_inv_nil.
    + exact Hmarks.
    + split; assumption.
  - intros Hperiods fuel' Hfuel.
    destruct fs as [|f fs'] eqn:Hfs.
    + destruct smoothed; [|discriminate]. exists []. reflexivity.
    + assert (Hhop : 0 < hopSize).
      { apply (detect_loop_hop_positive Math_log2 Number_toString signal sampleRate
                 hopSize windowSize threshold _ _ fuel 0 (f :: fs') Hloop).
        discriminate. }
      destruct (marks_loop_ok fuel' signal sampleRate hopSize smoothed Hhop Hperiods
                  Hfuel [] 0 (Z.le_refl 0)) as (marks & Hrun & _).
      * rewrite Hlen.
        specialize (Hinside (List.length fs') ltac:(simpl; lia)).
        cbn [List.length]. lia.
      * apply marks_inv_nil.
      * exists marks. exact Hrun.
Qed.

Lemma findPitchMarks_increasing_valid_witness :
  detectPitch stub_fn stub_toString 16 zigzag (of_Z 8) 4 8
    default_threshold (of_Z 1) (of_Z 4) = Returns zigzag_track /\
  findPitchMarks 16 zigzag
    (smoothed_frames stub_fn stub_toString (frames zigzag_track) 5)
    (of_Z 8) 4 = Returns [0; 2; 4; 6] /\
  strictly_increasing [0; 2; 4; 6] /\
  valid_indices (Z.of_nat (List.length zigzag)) [0; 2; 4; 6].
Proof.
  assert (H1 : detectPitch stub_fn stub_toString 16 zigzag (of_Z 8) 4 8
                 default_threshold (of_Z 1) (of_Z 4) = Returns zigzag_track)
    by (vm_compute; reflexivity).
  assert (H2 : findPitchMarks 16 zigzag
                 (smoothed_frames stub_fn stub_toString (frames zigzag_track) 5)
                 (of_Z 8) 4 = Returns [0; 2; 4; 6])
    by (vm_compute; reflexivity).
  split; [exact H1|]. split; [exact H2|].
  exact (proj1 (findPitchMarks_increasing_valid stub_fn stub_toString 16 zigzag (of_Z 8) 4 8
                  default_threshold (of_Z 1) (of_Z 4) 5 zigzag_track H1)
           16%nat [0; 2; 4; 6] H2).
Defined.

(** ** Results on [psolaShift] *)

(** A sample that is a binary32 value: storing it leaves it unchanged. *)
Definition is_binary32 (x : float) : Prop := fround x = x.

(** C7: in [psolaShift] with at least 2 input marks and a signal of
    binary32 samples, once the grains are accumulated every output
    position whose envelope is below the epsilon [0.001] receives the
    input sample of that position, and every position whose envelope is at
    or above it receives the accumulated sum divided by the envelope (and
    stored).  The test of the source is [envelope > 0.001]; an envelope is
    a stored binary32 value and never equals the binary64 [0.001]. *)
Theorem psolaShift_normalization
    (Math_cos : float -> float) (fuel : nat) (signal : list float)
    (pitchMarks : list Z) (frames : list PitchFrame) (targetFreqs : list float)
    (sampleRate : float) (hopSize : Z) (b : buffers) :
  (2 <= List.length pitchMarks)%nat ->
  Forall is_binary32 signal ->
  psola_accumulate Math_cos fuel signal pitchMarks frames targetFreqs sampleRate hopSize
  = Returns b ->
  exists output,
    psolaShift Math_cos fuel signal pitchMarks frames targetFreqs sampleRate hopSize
    = Returns output /\
    List.length output = List.length signal /\
    forall i : Z, 0 <= i < Z.of_nat (List.length signal) ->
      let envelope := aget (env_buf b) i in
      (fltb envelope envelope_epsilon = true -> aget output i = aget signal i) /\
      (fgeb envelope envelope_epsilon = true ->
       aget output i = fround (fdiv (aget (out_buf b) i) envelope)).
Proof.
  intros Hmarks Hsignal Hacc.
  destruct (psola_accumulate_inv Math_cos fuel signal pitchMarks frames targetFreqs
              sampleRate hopSize b Hacc) as [Hout Henv Hstored].
  exists (normalize signal b). unfold psolaShift. rewrite Hacc.
  destruct (Nat.ltb_spec (List.length pitchMarks) 2) as [|_]; [lia|].
  split; [reflexivity|]. unfold normalize. rewrite Hout.
  split.
  - unfold zrange, zrange_from. rewrite !length_map, length_seq. reflexivity.
  - intros i Hi. cbv zeta. rewrite aget_map_zrange by exact Hi.
    unfold normalize_sample.
    assert (Hne : not_epsilon (aget (env_buf b) i)).
    { unfold aget. destruct (Z.ltb_spec i 0) as [|_]; [lia|].
      rewrite Forall_forall in Hstored. apply Hstored, nth_In. lia. }
    assert (Hs : fround (aget signal i) = aget signal i).
    { unfold aget. destruct (Z.ltb_spec i 0) as [|_]; [lia|].
      rewrite Forall_forall in Hsignal. apply Hsignal, nth_In. lia. }
    split.
    + intros Hlt. rewrite (fltb_not_fgtb _ _ Hlt). exact Hs.
    + intros Hge. rewrite not_epsilon_geb_gtb in Hge by exact Hne.
      rewrite Hge. reflexivity.
Qed.

Lemma psolaShift_normalization_witness :
  exists b,
    (2 <= List.length pulse_marks)%nat /\
    Forall is_binary32 pulse_signal /\
    psola_accumulate flat_cos 40 pulse_signal pulse_marks pulse_frames pulse_targets
      (of_Z 8) 4 = Returns b /\
    exists output,
      psolaShift flat_cos 40 pulse_signal pulse_marks pulse_frames pulse_targets
        (of_Z 8) 4 = Returns output /\
      List.length output = List.length pulse_signal /\
      forall i : Z, 0 <= i < Z.of_nat (List.length pulse_signal) ->
        let envelope := aget (env_buf b) i in
        (fltb envelope envelope_epsilon = true -> aget output i = aget pulse_signal i) /\
        (fgeb envelope envelope_epsilon = true ->
         aget output i = fround (fdiv (aget (out_buf b) i) envelope)).
Proof.
  assert (H1 : (2 <= List.length pulse_marks)%nat) by (simpl; lia).
  assert (H2 : Forall is_binary32 pulse_signal)
    by (repeat constructor; vm_compute; reflexivity).
  destruct (psola_accumulate flat_cos 40 pulse_signal pulse_marks pulse_frames
              pulse_targets (of_Z 8) 4) as [b| |] eqn:H3.
  - exists b. split; [exact H1|]. split; [exact H2|]. split; [reflexivity|].
    exact (psolaShift_normalization flat_cos 40 pulse_signal pulse_marks pulse_frames
             pulse_targets (of_Z 8) 4 b H1 H2 H3).
  - exfalso. vm_compute in H3. discriminate.
  - exfalso. vm_compute in H3. discriminate.
Defined.

(** ** The MIDI round trip and floating-point rounding

    How close [midiToFrequency (frequencyToMidi f)] comes to [f] is a
    statement about the real numbers that the binary64 values denote.  Here
    the two functions are written over the reals with every arithmetic
    operation of the source followed by its rounding [rnd], and with the
    runtime's [Math.log2] and [Math.pow(2, .)] as functions of their own.
    The standard model of floating-point arithmetic bounds what they do: a
    rounded result is within a relative error [u] of the exact one (for
    binary64, [u = 2^-53], underflow and overflow apart, which this
    computation does not meet in the audio range), and the two runtime
    functions are within the same relative error of the logarithm and the
    power they approximate.  The analysis asks no more than [u <= 2^-30]. *)

Module RoundTrip.

Import Reals Lra.
Local Open Scope R_scope.


Definition log2 (x : R) : R := ln x / ln 2.
Definition pow2 (y : R) : R := exp (y * ln 2).

Lemma Rabs_le_inv (a b : R) : Rabs a <= b -> - b <= a <= b.
Proof. unfold Rabs. destruct (Rcase_abs a); lra. Qed.

Lemma exp_near_1 (x : R) : Rabs x <= / 2 -> Rabs (exp x - 1) <= 2 * Rabs x.
Proof.
  intros Hx. apply Rabs_le_inv in Hx.
  pose proof (exp_ineq1_le x) as Hlow.
  pose proof (exp_ineq1_le (- x)) as Hneg.
  pose proof (exp_pos x) as Hpos.
  rewrite exp_Ropp in Hneg.
  assert (Hup : exp x * (1 - x) <= 1).
  { apply (Rmult_le_compat_l (exp x)) in Hneg; [|lra].
    rewrite Rinv_r in Hneg by lra. lra. }
  destruct (Rle_dec 0 x) as [Hnn|Hn].
  - rewrite (Rabs_pos_eq x) by lra. apply Rabs_le. split; [lra|].
    assert (exp x * (1 - x) <= (1 + 2 * x) * (1 - x)) by nra.
    assert (exp x <= 1 + 2 * x) by (apply (Rmult_le_reg_r (1 - x)); lra).
    lra.
  - rewrite (Rabs_left x) by lra. apply Rabs_le. split; [lra|].
    assert (exp x <= 1); [|lra].
    rewrite <- exp_0. left. apply exp_increasing. lra.
Qed.

Lemma ln_lower (d : R) : -1 < d -> d / (1 + d) <= ln (1 + d).
Proof.
  intros Hd. pose proof (exp_ineq1_le (- ln (1 + d))) as H.
  rewrite exp_Ropp, exp_ln in H by lra.
  replace (d / (1 + d)) with (1 - / (1 + d)) by (field; lra). lra.
Qed.

Lemma ln_upper (d : R) : -1 < d -> ln (1 + d) <= d.
Proof.
  intros Hd. pose proof (exp_ineq1_le (ln (1 + d))) as H.
  rewrite exp_ln in H by lra. lra.
Qed.

Lemma ln_near_1 (d : R) : Rabs d <= / 2 -> Rabs (ln (1 + d)) <= 2 * Rabs d.
Proof.
  intros Hd. apply Rabs_le_inv in Hd.
  pose proof (ln_lower d ltac:(lra)) as Hl.
  pose proof (ln_upper d ltac:(lra)) as Hu.
  destruct (Rle_dec 0 d) as [Hnn|Hn].
  - rewrite (Rabs_pos_eq d) by lra. apply Rabs_le.
    assert (0 <= d / (1 + d)) by (apply Rmult_le_pos; [lra|left; apply Rinv_0_lt_compat; lra]).
    lra.
  - rewrite (Rabs_left d) by lra. apply Rabs_le. split; [|lra].
    assert (2 * d <= d / (1 + d)); [|lra].
    apply (Rmult_le_reg_r (1 + d)); [lra|].
    replace (d / (1 + d) * (1 + d)) with d by (field; lra). nra.
Qed.

Lemma ln_mono (x y : R) : 0 < x -> x <= y -> ln x <= ln y.
Proof.
  intros Hx [Hlt|Heq]; [|subst y; lra]. left. apply ln_increasing; assumption.
Qed.

Lemma ln_2_bounds : / 2 <= ln 2 <= 1.
Proof.
  replace 2 with (1 + 1) by lra. split.
  - pose proof (ln_lower 1 ltac:(lra)). lra.
  - apply ln_upper. lra.
Qed.


Section Model.

Variable u : R.
Variables rnd Math_log2 Math_pow2 : R -> R.

Definition frequencyToMidi (freq : R) : R :=
  if Rle_dec freq 0 then 0
  else rnd (69 + rnd (12 * Math_log2 (rnd (freq / 440)))).

Definition midiToFrequency (midi : R) : R :=
  rnd (440 * Math_pow2 (rnd (rnd (midi - 69) / 12))).

Record standard_model : Prop := {
  unit_roundoff : 0 <= u <= / 1073741824;
  rnd_accurate : forall x, Rabs (rnd x - x) <= u * Rabs x;
  log2_accurate : forall x, 0 < x -> Rabs (Math_log2 x - log2 x) <= u * Rabs (log2 x);
  pow2_accurate : forall y, Rabs (Math_pow2 y - pow2 y) <= u * pow2 y
}.

Hypothesis model : standard_model.

Lemma rnd_within (x B : R) : Rabs x <= B -> - (u * B) <= rnd x - x <= u * B.
Proof.
  intros HB. destruct model as [[Hu0 _] Hrnd _ _].
  apply Rabs_le_inv. eapply Rle_trans; [apply Hrnd|].
  apply Rmult_le_compat_l; assumption.
Qed.

Lemma log2_audio_range (f : R) : 20 <= f <= 20000 -> -6 <= log2 (f / 440) <= 6.
Proof.
  intros [Hlo Hhi]. destruct ln_2_bounds as [Hl2 _].
  assert (H64 : ln 64 = 6 * ln 2).
  { replace 64 with (2 ^ 6) by (simpl; lra). rewrite ln_pow by lra. simpl. lra. }
  assert (Hup : ln (f / 440) <= ln 64) by (apply ln_mono; lra).
  assert (Hdown : ln (/ 64) <= ln (f / 440)) by (apply ln_mono; lra).
  rewrite ln_Rinv in Hdown by lra. rewrite H64 in *.
  unfold log2. split.
  - apply (Rmult_le_reg_r (ln 2)); [lra|].
    unfold Rdiv. rewrite Rmult_assoc, Rinv_l by lra. lra.
  - apply (Rmult_le_reg_r (ln 2)); [lra|].
    unfold Rdiv. rewrite Rmult_assoc, Rinv_l by lra. lra.
Qed.

(** C10: for every frequency between 20 Hz and 20 kHz,
    [midiToFrequency (frequencyToMidi f)] recovers [f] within a relative
    error of 1e-6, under the standard model of the rounded operations.
    The rounding of [f / 440] moves the logarithm by at most [4 u], the
    six operations up to the exponent add at most [56 u] more, and
    [2 ^ x] turns an error [e] of its exponent into a relative error of at
    most [2 e]. *)
Theorem midi_round_trip (f : R) :
  20 <= f <= 20000 ->
  Rabs (midiToFrequency (frequencyToMidi f) - f) <= / 1000000 * f.
Proof.
  intros Hf. pose proof (log2_audio_range f Hf) as HA.
  destruct model as [[Hu0 Hu] Hrnd Hlog Hpow].
  destruct ln_2_bounds as [Hl2 Hl2'].
  unfold frequencyToMidi. destruct (Rle_dec f 0) as [|_]; [lra|].
  unfold midiToFrequency.
  set (x0 := f / 440) in *. assert (Hx0 : 0 < x0) by (unfold x0; lra).
  set (A := log2 x0) in *.
  (* q = rnd (f / 440) *)
  set (q := rnd x0).
  pose proof (Hrnd x0) as Hq. fold q in Hq. rewrite (Rabs_pos_eq x0) in Hq by lra.
  apply Rabs_le_inv in Hq.
  set (d1 := (q - x0) / x0).
  assert (Hd1 : - u <= d1 <= u).
  { unfold d1. split.
    - apply (Rmult_le_reg_r x0); [lra|]. unfold Rdiv.
      rewrite Rmult_assoc, Rinv_l by lra. lra.
    - apply (Rmult_le_reg_r x0); [lra|]. unfold Rdiv.
      rewrite Rmult_assoc, Rinv_l by lra. lra. }
  assert (Hqd : q = x0 * (1 + d1)) by (unfold d1; field; lra).
  assert (Hqpos : 0 < q) by (rewrite Hqd; apply Rmult_lt_0_compat; lra).
  assert (Hlnq : ln q = ln x0 + ln (1 + d1)) by (rewrite Hqd; apply ln_mult; lra).
  pose proof (ln_near_1 d1 ltac:(apply Rabs_le; lra)) as Hln1.
  assert (Habs1 : Rabs d1 <= u) by (apply Rabs_le; lra).
  apply Rabs_le_inv in Hln1.
  set (t := ln (1 + d1)) in *.
  (* log2 q *)
  set (k := / ln 2).
  assert (Hk : 1 <= k <= 2).
  { assert (Hkl : k * ln 2 = 1) by (unfold k; field; lra).
    assert (0 < k) by (unfold k; apply Rinv_0_lt_compat; lra).
    split; nra. }
  assert (Hlog2q : log2 q = A + t * k)
    by (unfold log2, A, log2, k; rewrite Hlnq; field; lra).
  assert (Ht : - (2 * u) <= t <= 2 * u) by lra.
  assert (Htk : - (4 * u) <= t * k <= 4 * u).
  { split.
    - assert (0 <= (t + 2 * u) * k) by (apply Rmult_le_pos; lra).
      assert (0 <= u * (2 - k)) by (apply Rmult_le_pos; lra). lra.
    - assert (0 <= (2 * u - t) * k) by (apply Rmult_le_pos; lra).
      assert (0 <= u * (2 - k)) by (apply Rmult_le_pos; lra). lra. }
  (* L = Math_log2 q *)
  set (L := Math_log2 q).
  pose proof (Hlog q Hqpos) as HL. fold L in HL.
  assert (HlogB : Rabs (log2 q) <= 7) by (apply Rabs_le; lra).
  assert (HL' : - (7 * u) <= L - log2 q <= 7 * u).
  { apply Rabs_le_inv. eapply Rle_trans; [exact HL|].
    rewrite (Rmult_comm 7 u). apply Rmult_le_compat_l; assumption. }
  (* P = rnd (12 * L) *)
  set (P := rnd (12 * L)).
  pose proof (rnd_within (12 * L) 85 ltac:(apply Rabs_le; lra)) as HP. fold P in HP.
  (* m = rnd (69 + P) *)
  set (m := rnd (69 + P)).
  pose proof (rnd_within (69 + P) 155 ltac:(apply Rabs_le; lra)) as Hm. fold m in Hm.
  (* d = rnd (m - 69) *)
  set (d := rnd (m - 69)).
  pose proof (rnd_within (m - 69) 87 ltac:(apply Rabs_le; lra)) as Hd. fold d in Hd.
  (* g = rnd (d / 12) *)
  set (g := rnd (d / 12)).
  pose proof (rnd_within (d / 12) 8 ltac:(apply Rabs_le; lra)) as Hg. fold g in Hg.
  assert (HgA : - (60 * u) <= g - A <= 60 * u) by lra.
  (* w = Math_pow2 g *)
  set (w := Math_pow2 g).
  pose proof (Hpow g) as Hw. fold w in Hw. apply Rabs_le_inv in Hw.
  assert (Hpg : pow2 g = x0 * exp ((g - A) * ln 2)).
  { unfold pow2. replace (g * ln 2) with (ln x0 + (g - A) * ln 2)
      by (unfold A, log2; field; lra).
    rewrite exp_plus, exp_ln by lra. reflexivity. }
  pose proof (exp_near_1 ((g - A) * ln 2)) as He.
  assert (Hsmall : - (60 * u) <= (g - A) * ln 2 <= 60 * u).
  { split.
    - assert (0 <= (g - A + 60 * u) * ln 2) by (apply Rmult_le_pos; lra).
      assert (0 <= u * (1 - ln 2)) by (apply Rmult_le_pos; lra). lra.
    - assert (0 <= (60 * u - (g - A)) * ln 2) by (apply Rmult_le_pos; lra).
      assert (0 <= u * (1 - ln 2)) by (apply Rmult_le_pos; lra). lra. }
  assert (HabsS : Rabs ((g - A) * ln 2) <= 60 * u) by (apply Rabs_le; lra).
  specialize (He ltac:(lra)). apply Rabs_le_inv in He.
  set (E := exp ((g - A) * ln 2)) in *.
  assert (HE : 1 - 120 * u <= E <= 1 + 120 * u) by lra.
  (* r = rnd (440 * w) *)
  set (r := rnd (440 * w)).
  pose proof (Hrnd (440 * w)) as Hr. fold r in Hr.
  assert (Hpg0 : 0 < pow2 g) by apply exp_pos.
  assert (Hwpos : 0 <= w).
  { assert (0 <= (1 - u) * pow2 g) by (apply Rmult_le_pos; lra). lra. }
  rewrite (Rabs_pos_eq (440 * w)) in Hr by lra. apply Rabs_le_inv in Hr.
  rewrite Hpg in Hw, Hpg0.
  set (ux := u * x0).
  assert (Hux : 0 <= ux <= / 1073741824 * x0).
  { unfold ux. split; [apply Rmult_le_pos; lra|].
    apply Rmult_le_compat_r; lra. }
  set (xE := x0 * E) in *.
  assert (HxE : x0 - 120 * ux <= xE <= x0 + 120 * ux).
  { unfold xE, ux. split.
    - assert (0 <= x0 * (E - (1 - 120 * u))) by (apply Rmult_le_pos; lra). lra.
    - assert (0 <= x0 * (1 + 120 * u - E)) by (apply Rmult_le_pos; lra). lra. }
  assert (HuxE : u * xE <= 2 * ux).
  { unfold ux. assert (0 <= u * (2 * x0 - xE)) by (apply Rmult_le_pos; lra). lra. }
  assert (Huw : u * (440 * w) <= 880 * ux).
  { unfold ux. assert (0 <= u * (2 * x0 - w)) by (apply Rmult_le_pos; lra). lra. }
  assert (Hf440 : f = 440 * x0) by (unfold x0; field).
  apply Rabs_le. rewrite Hf440. split; lra.
Qed.

End Model.

(** An instance of the model with the unit roundoff of binary64: every
    operation rounds upwards by the relative error [2^-53], and the
    runtime's functions are exact. *)
Definition u64 : R := / 9007199254740992.
Definition round_up (x : R) : R := x * (1 + u64).

Lemma round_up_model : standard_model u64 round_up log2 pow2.
Proof.
  assert (Hu : 0 <= u64 <= / 1073741824) by (unfold u64; lra).
  split.
  - exact Hu.
  - intros x. unfold round_up.
    replace (x * (1 + u64) - x) with (u64 * x) by ring.
    rewrite Rabs_mult, (Rabs_pos_eq u64) by lra. lra.
  - intros x _. replace (log2 x - log2 x) with 0 by ring. rewrite Rabs_R0.
    apply Rmult_le_pos; [lra|apply Rabs_pos].
  - intros y. replace (pow2 y - pow2 y) with 0 by ring. rewrite Rabs_R0.
    apply Rmult_le_pos; [lra|]. left. apply exp_pos.
Defined.

Lemma midi_round_trip_witness :
  standard_model u64 round_up log2 pow2 /\
  20 <= 440 <= 20000 /\
  Rabs (midiToFrequency round_up pow2 (frequencyToMidi round_up log2 440) - 440)
  <= / 1000000 * 440.
Proof.
  assert (Hf : 20 <= 440 <= 20000) by lra.
  split; [exact round_up_model|]. split; [exact Hf|].
  exact (midi_round_trip u64 round_up log2 pow2 round_up_model 440 Hf).
Defined.

End RoundTrip.

(** * Further properties of the engine *)

(** ** [detectPitch]: what every frame and the track carry *)

Lemma insert_sorted_In (x y : float) (l : list float) :
  In y (insert_sorted x l) <-> y = x \/ In y l.
Proof.
  induction l as [|z l IH]; simpl.
  - intuition congruence.
  - destruct (cmp_lt x z); simpl; [intuition congruence|].
    rewrite IH. intuition congruence.
Qed.

Lemma insert_sorted_length (x : float) (l : list float) :
  List.length (insert_sorted x l) = S (List.length l).
Proof.
  induction l as [|z l IH]; simpl; [reflexivity|].
  destruct (cmp_lt x z); simpl; [reflexivity|]. rewrite IH. reflexivity.
Qed.

(** The sort keeps the elements and their number. *)
Lemma js_sort_In (y : float) (l : list float) : In y (js_sort l) <-> In y l.
Proof.
  unfold js_sort.
  assert (Hgen : forall acc, In y (fold_left (fun a x => insert_sorted x a) l acc)
                             <-> In y l \/ In y acc).
  { induction l as [|x l IH]; intros acc; simpl; [tauto|].
    rewrite IH, insert_sorted_In. intuition congruence. }
  rewrite Hgen. simpl. tauto.
Qed.

Lemma js_sort_length (l : list float) : List.length (js_sort l) = List.length l.
Proof.
  unfold js_sort.
  assert (Hgen : forall acc,
             List.length (fold_left (fun a x => insert_sorted x a) l acc)
             = (List.length l + List.length acc)%nat).
  { induction l as [|x l IH]; intros acc; simpl; [reflexivity|].
    rewrite IH, insert_sorted_length. lia. }
  rewrite Hgen. simpl. lia.
Qed.

Section DetectFacts.

Variable Math_log2 : float -> float.
Variable Number_toString : float -> string.

(** An unvoiced frame carries no pitch at all. *)
Lemma analyse_frame_unvoiced (signal : list float) (sampleRate : float) (halfWindow : nat)
    (threshold : float) (minPeriod maxPeriod : jsint) (center : Z) :
  let f := analyse_frame Math_log2 Number_toString signal sampleRate halfWindow
             threshold minPeriod maxPeriod center in
  voiced f = false ->
  frequency f = pos_zero /\ confidence f = pos_zero /\ midiNote f = pos_zero /\
  centsOff f = pos_zero /\ noteName f = "-"%string.
Proof.
  cbv zeta. unfold analyse_frame. cbv zeta.
  cbn [voiced frequency confidence midiNote centsOff noteName].
  intros Hv. rewrite Hv. cbn [andb]. repeat split.
Qed.

Lemma analyse_frame_time (signal : list float) (sampleRate : float) (halfWindow : nat)
    (threshold : float) (minPeriod maxPeriod : jsint) (center : Z) :
  time (analyse_frame Math_log2 Number_toString signal sampleRate halfWindow
          threshold minPeriod maxPeriod center)
  = fdiv (of_Z center) sampleRate.
Proof. reflexivity. Qed.

(** Without a lag to search, a frame has frequency 0. *)
Lemma analyse_frame_no_search (signal : list float) (sampleRate : float) (halfWindow : nat)
    (threshold : float) (minPeriod maxPeriod : jsint) (center : Z) :
  search_taus (jsint_max minPeriod 2) (jsint_min maxPeriod (Z.of_nat halfWindow - 1)) = [] ->
  frequency (analyse_frame Math_log2 Number_toString signal sampleRate halfWindow
               threshold minPeriod maxPeriod center) = pos_zero.
Proof.
  intros Hnone. unfold analyse_frame. cbv zeta. rewrite Hnone.
  cbn [first_dip global_min fold_left fst snd frequency].
  change (-1 <? 0) with true. cbv iota. cbn [fst snd].
  change (0 <? -1) with false. cbn [andb].
  change (fgtb (of_Z (-1)) pos_zero) with false.
  rewrite andb_false_r. reflexivity.
Qed.

Lemma search_taus_small_window (minPeriod maxPeriod : jsint) (hw : Z) :
  hw <= 3 ->
  search_taus (jsint_max minPeriod 2) (jsint_min maxPeriod (hw - 1)) = [].
Proof.
  intros Hhw. unfold search_taus.
  destruct minPeriod as [a| | |]; simpl; try reflexivity;
    destruct maxPeriod as [b| | |]; simpl; try reflexivity;
    unfold zrange_from;
    match goal with |- map _ (seq 0 (Z.to_nat ?d)) = [] =>
      replace (Z.to_nat d) with O by lia end; reflexivity.
Qed.

End DetectFacts.

(** X1: an unvoiced frame of [detectPitch] has frequency 0, confidence 0,
    midiNote 0, centsOff 0 and the note name "-". *)
Theorem detectPitch_unvoiced_frames
    (Math_log2 : float -> float) (Number_toString : float -> string)
    (fuel : nat) (signal : list float) (sampleRate : float) (hop windowSize : Z)
    (threshold minFreq maxFreq : float) :
  0 < hop -> 0 <= windowSize -> (List.length signal <= fuel)%nat ->
  exists track,
    detectPitch Math_log2 Number_toString fuel signal sampleRate hop windowSize
      threshold minFreq maxFreq = Returns track /\
    Forall (fun f =>
              voiced f = false ->
              frequency f = pos_zero /\ confidence f = pos_zero /\
              midiNote f = pos_zero /\ centsOff f = pos_zero /\
              noteName f = "-"%string)
           (frames track).
Proof.
  intros Hhop Hwin Hfuel. unfold detectPitch.
  rewrite detect_loop_returns by lia. cbn [bind].
  eexists. split; [reflexivity|]. cbn [frames].
  apply Forall_map, Forall_forall. intros center _.
  apply analyse_frame_unvoiced.
Qed.

Lemma detectPitch_unvoiced_frames_witness :
  0 < 4 /\ 0 <= 8 /\ (List.length pulse_signal <= 12)%nat /\
  exists track,
    detectPitch stub_fn stub_toString 12 pulse_signal (of_Z 8) 4 8
      default_threshold default_minFreq default_maxFreq = Returns track /\
    Forall (fun f =>
              voiced f = false ->
              frequency f = pos_zero /\ confidence f = pos_zero /\
              midiNote f = pos_zero /\ centsOff f = pos_zero /\
              noteName f = "-"%string)
           (frames track).
Proof.
  assert (H1 : 0 < 4) by lia. assert (H2 : 0 <= 8) by lia.
  assert (H3 : (List.length pulse_signal <= 12)%nat) by (vm_compute; lia).
  repeat split; try assumption.
  exact (detectPitch_unvoiced_frames stub_fn stub_toString 12 pulse_signal (of_Z 8) 4 8
           default_threshold default_minFreq default_maxFreq H1 H2 H3).
Defined.

(** X2: the track records the sample rate and the hop it was given, and
    its [k]-th frame has the time [(k * hopSize) / sampleRate]: frames are
    in time order, one per hop, from time 0. *)
Theorem detectPitch_frame_times
    (Math_log2 : float -> float) (Number_toString : float -> string)
    (fuel : nat) (signal : list float) (rate : float) (hop windowSize : Z)
    (threshold minFreq maxFreq : float) :
  0 < hop -> 0 <= windowSize -> (List.length signal <= fuel)%nat ->
  exists track,
    detectPitch Math_log2 Number_toString fuel signal rate hop windowSize
      threshold minFreq maxFreq = Returns track /\
    sampleRate track = rate /\ hopSize track = hop /\
    forall k : nat, (k < List.length (frames track))%nat ->
      time (nth k (frames track) unallocated) = fdiv (of_Z (Z.of_nat k * hop)) rate.
Proof.
  intros Hhop Hwin Hfuel. unfold detectPitch.
  rewrite detect_loop_returns by lia. cbn [bind].
  eexists. split; [reflexivity|]. cbn [frames sampleRate hopSize].
  split; [reflexivity|]. split; [reflexivity|].
  intros k Hk. rewrite length_map in Hk. unfold frame_centers in *.
  rewrite length_map, length_seq in Hk.
  set (analyse := analyse_frame _ _ _ _ _ _ _ _).
  rewrite (nth_indep _ unallocated (analyse 0))
    by (rewrite !length_map, length_seq; exact Hk).
  rewrite (map_nth analyse). unfold analyse. rewrite analyse_frame_time.
  rewrite (nth_indep _ 0 ((fun k => 0 + hop * Z.of_nat k) O))
    by (rewrite length_map, length_seq; exact Hk).
  rewrite (map_nth (fun k => 0 + hop * Z.of_nat k)), seq_nth by exact Hk.
  f_equal. f_equal. lia.
Qed.

Lemma detectPitch_frame_times_witness :
  0 < 4 /\ 0 <= 8 /\ (List.length pulse_signal <= 12)%nat /\
  exists track,
    detectPitch stub_fn stub_toString 12 pulse_signal (of_Z 8) 4 8
      default_threshold default_minFreq default_maxFreq = Returns track /\
    sampleRate track = of_Z 8 /\ hopSize track = 4 /\
    forall k : nat, (k < List.length (frames track))%nat ->
      time (nth k (frames track) unallocated) = fdiv (of_Z (Z.of_nat k * 4)) (of_Z 8).
Proof.
  assert (H1 : 0 < 4) by lia. assert (H2 : 0 <= 8) by lia.
  assert (H3 : (List.length pulse_signal <= 12)%nat) by (vm_compute; lia).
  repeat split; try assumption.
  exact (detectPitch_frame_times stub_fn stub_toString 12 pulse_signal (of_Z 8) 4 8
           default_threshold default_minFreq default_maxFreq H1 H2 H3).
Defined.

Lemma median_of_voiced_cases (fs : list PitchFrame) :
  (filter voiced fs = [] /\ median_of_voiced fs = pos_zero) \/
  (exists f, In f fs /\ voiced f = true /\ median_of_voiced fs = frequency f).
Proof.
  unfold median_of_voiced.
  destruct (filter voiced fs) as [|v vs] eqn:Hf.
  - left. split; reflexivity.
  - right.
    set (sorted := js_sort (map frequency (v :: vs))).
    assert (Hlen : List.length sorted = S (List.length vs))
      by (unfold sorted; rewrite js_sort_length, length_map; reflexivity).
    assert (Hin : In (nth (Nat.div (List.length sorted) 2) sorted NaN) sorted).
    { apply nth_In. rewrite Hlen.
      apply Nat.Div0.div_lt_upper_bound. lia. }
    destruct sorted as [|s0 rest] eqn:Hs; [discriminate|].
    rewrite <- Hs in Hin |- *. unfold sorted in Hin at 2.
    apply js_sort_In, in_map_iff in Hin. destruct Hin as (f & Hfreq & Hmem).
    rewrite <- Hf in Hmem. apply filter_In in Hmem. destruct Hmem as [Hmem Hv].
    exists f. repeat split; try assumption. rewrite Hs. symmetry. rewrite <- Hs.
    exact Hfreq.
Qed.

(** X3: [medianPitch] is 0 when no frame is voiced, and otherwise the
    frequency of one of the track's voiced frames. *)
Theorem detectPitch_medianPitch
    (Math_log2 : float -> float) (Number_toString : float -> string)
    (fuel : nat) (signal : list float) (rate : float) (hop windowSize : Z)
    (threshold minFreq maxFreq : float) :
  0 < hop -> 0 <= windowSize -> (List.length signal <= fuel)%nat ->
  exists track,
    detectPitch Math_log2 Number_toString fuel signal rate hop windowSize
      threshold minFreq maxFreq = Returns track /\
    ((filter voiced (frames track) = [] /\ medianPitch track = pos_zero) \/
     (exists f, In f (frames track) /\ voiced f = true /\
                medianPitch track = frequency f)).
Proof.
  intros Hhop Hwin Hfuel.
  destruct (detectPitch_returns Math_log2 Number_toString fuel signal rate hop
              windowSize threshold minFreq maxFreq Hhop Hwin Hfuel)
    as (track & Hrun & _ & Hmedian).
  exists track. split; [exact Hrun|]. rewrite Hmedian.
  apply median_of_voiced_cases.
Qed.

Lemma detectPitch_medianPitch_witness :
  0 < 4 /\ 0 <= 8 /\ (List.length pulse_signal <= 12)%nat /\
  exists track,
    detectPitch stub_fn stub_toString 12 pulse_signal (of_Z 8) 4 8
      default_threshold default_minFreq default_maxFreq = Returns track /\
    ((filter voiced (frames track) = [] /\ medianPitch track = pos_zero) \/
     (exists f, In f (frames track) /\ voiced f = true /\
                medianPitch track = frequency f)).
Proof.
  assert (H1 : 0 < 4) by lia. assert (H2 : 0 <= 8) by lia.
  assert (H3 : (List.length pulse_signal <= 12)%nat) by (vm_compute; lia).
  repeat split; try assumption.
  exact (detectPitch_medianPitch stub_fn stub_toString 12 pulse_signal (of_Z 8) 4 8
           default_threshold default_minFreq default_maxFreq H1 H2 H3).
Defined.

(** X4: a window of fewer than 8 samples leaves no lag to search (the
    search runs from [max(minPeriod, 2)] to below
    [min(maxPeriod, halfWindow - 1)]): every frame has frequency 0,
    whatever the signal, the sample rate and the band. *)
Theorem detectPitch_small_window
    (Math_log2 : float -> float) (Number_toString : float -> string)
    (fuel : nat) (signal : list float) (rate : float) (hop windowSize : Z)
    (threshold minFreq maxFreq : float) :
  0 < hop -> 0 <= windowSize < 8 -> (List.length signal <= fuel)%nat ->
  exists track,
    detectPitch Math_log2 Number_toString fuel signal rate hop windowSize
      threshold minFreq maxFreq = Returns track /\
    Forall (fun f => frequency f = pos_zero) (frames track).
Proof.
  intros Hhop Hwin Hfuel. unfold detectPitch.
  rewrite detect_loop_returns by lia. cbn [bind].
  eexists. split; [reflexivity|]. cbn [frames].
  apply Forall_map, Forall_forall. intros center _.
  apply analyse_frame_no_search, search_taus_small_window.
  assert (0 <= windowSize / 2) by (apply Z.div_pos; lia).
  assert (windowSize / 2 < 4) by (apply Z.div_lt_upper_bound; lia).
  rewrite Z2Nat.id by lia. lia.
Qed.

Lemma detectPitch_small_window_witness :
  0 < 2 /\ 0 <= 6 < 8 /\ (List.length pulse_signal <= 12)%nat /\
  exists track,
    detectPitch stub_fn stub_toString 12 pulse_signal (of_Z 8) 2 6
      default_threshold default_minFreq default_maxFreq = Returns track /\
    Forall (fun f => frequency f = pos_zero) (frames track).
Proof.
  assert (H1 : 0 < 2) by lia. assert (H2 : 0 <= 6 < 8) by lia.
  assert (H3 : (List.length pulse_signal <= 12)%nat) by (vm_compute; lia).
  split; [exact H1|]. split; [exact H2|]. split; [exact H3|].
  exact (detectPitch_small_window stub_fn stub_toString 12 pulse_signal (of_Z 8) 2 6
           default_threshold default_minFreq default_maxFreq H1 H2 H3).
Defined.

(** X5: a negative window size makes the constructor of the first frame's
    typed array throw, whatever the signal (the loop is entered even for an
    empty one, since [0 + windowSize < signal.length]). *)
Theorem detectPitch_negative_window_throws
    (Math_log2 : float -> float) (Number_toString : float -> string)
    (fuel : nat) (signal : list float) (rate : float) (hop windowSize : Z)
    (threshold minFreq maxFreq : float) :
  windowSize < 0 ->
  detectPitch Math_log2 Number_toString (S fuel) signal rate hop windowSize
    threshold minFreq maxFreq = Throws.
Proof.
  intros Hwin. unfold detectPitch. simpl.
  destruct (Z.ltb_spec windowSize (Z.of_nat (List.length signal))) as [_|]; [|lia].
  assert (windowSize / 2 < 0) by (apply Z.div_lt_upper_bound; lia).
  destruct (Z.ltb_spec (windowSize / 2) 0) as [_|]; [|lia]. reflexivity.
Qed.

Lemma detectPitch_negative_window_throws_witness :
  -2 < 0 /\
  detectPitch stub_fn stub_toString 1 pulse_signal (of_Z 8) 4 (-2)
    default_threshold default_minFreq default_maxFreq = Throws.
Proof.
  assert (H : -2 < 0) by lia. split; [exact H|].
  exact (detectPitch_negative_window_throws stub_fn stub_toString 0 pulse_signal
           (of_Z 8) 4 (-2) default_threshold default_minFreq default_maxFreq H).
Defined.

(** X6: with a hop that is zero or negative and a signal longer than the
    window, [detectPitch] returns no track: the frame loop, once entered,
    is entered again at a centre that is no further, whatever the fuel. *)
Theorem detectPitch_nonpositive_hop_stuck
    (Math_log2 : float -> float) (Number_toString : float -> string)
    (fuel : nat) (signal : list float) (rate : float) (hop windowSize : Z)
    (threshold minFreq maxFreq : float) (track : PitchTrack) :
  hop <= 0 -> windowSize < Z.of_nat (List.length signal) ->
  detectPitch Math_log2 Number_toString fuel signal rate hop windowSize
    threshold minFreq maxFreq <> Returns track.
Proof.
  intros Hhop Hwin Hrun. unfold detectPitch in Hrun.
  destruct (detect_loop Math_log2 Number_toString fuel signal rate hop windowSize
              threshold (Math_floor (fdiv rate maxFreq)) (Math_ceil (fdiv rate minFreq)) 0)
    as [fs| |] eqn:Hloop; cbn [bind] in Hrun; try discriminate.
  refine (detect_loop_stuck Math_log2 Number_toString signal rate hop windowSize
            threshold _ _ fuel Hhop 0 fs _ Hloop).
  lia.
Qed.

Lemma detectPitch_nonpositive_hop_stuck_witness :
  0 <= 0 /\ 8 < Z.of_nat (List.length pulse_signal) /\
  detectPitch stub_fn stub_toString 50 pulse_signal (of_Z 8) 0 8
    default_threshold default_minFreq default_maxFreq
  <> Returns {| frames := []; sampleRate := of_Z 8; hopSize := 0;
                medianPitch := pos_zero |}.
Proof.
  assert (H1 : 0 <= 0) by lia.
  assert (H2 : 8 < Z.of_nat (List.length pulse_signal)) by (vm_compute; reflexivity).
  split; [exact H1|]. split; [exact H2|].
  exact (detectPitch_nonpositive_hop_stuck stub_fn stub_toString 50 pulse_signal
           (of_Z 8) 0 8 default_threshold default_minFreq default_maxFreq _ H1 H2).
Defined.
(** ** Tracks the smoother leaves alone *)

Section SmootherIdle.

Variable Math_log2 : float -> float.
Variable Number_toString : float -> string.

(** While no neighbourhood has three entries no iteration assigns. *)
Lemma smooth_run_idle (frames : list ref) (halfWin : Z) (h : heap) :
  (forall i : nat,
     (List.length (neighborhood_of h frames halfWin (Z.of_nat i)) < 3)%nat) ->
  forall k, smooth_run Math_log2 Number_toString frames halfWin h k = h.
Proof.
  intros Hsmall k. induction k as [|k IH]; [reflexivity|].
  rewrite smooth_run_S, IH, smooth_at_cases. cbv zeta.
  destruct (Nat.leb_spec 3 (List.length (neighborhood_of h frames halfWin (Z.of_nat k))))
    as [Hge|_].
  - specialize (Hsmall k). lia.
  - rewrite andb_false_r. reflexivity.
Qed.

End SmootherIdle.

(** X7: on a track with fewer than three voiced frames the smoother
    assigns to no frame: the store of frame objects is the same after the
    call, whatever the window size. *)
Theorem smoothPitchTrack_few_voiced
    (Math_log2 : float -> float) (Number_toString : float -> string)
    (h : heap) (track_frames : list ref) (medianWindowSize : Z) :
  (List.length (filter voiced (read_frames h track_frames)) < 3)%nat ->
  smoothPitchTrack Math_log2 Number_toString h track_frames medianWindowSize
  = (h, track_frames).
Proof.
  intros Hfew. unfold smoothPitchTrack. f_equal.
  apply (smooth_run_idle Math_log2 Number_toString track_frames (medianWindowSize / 2) h).
  intros i. rewrite neighborhood_of_values.
  eapply Nat.le_lt_trans; [apply neighborhood_values_voiced|exact Hfew].
Qed.

Lemma smoothPitchTrack_few_voiced_witness :
  (List.length (filter voiced
     (read_frames [voiced_frame 400; unvoiced_frame; voiced_frame 140] [0; 1; 2]%nat)) < 3)%nat /\
  smoothPitchTrack stub_fn stub_toString
    [voiced_frame 400; unvoiced_frame; voiced_frame 140] [0; 1; 2]%nat 5
  = ([voiced_frame 400; unvoiced_frame; voiced_frame 140], [0; 1; 2]%nat).
Proof.
  assert (H : (List.length (filter voiced
     (read_frames [voiced_frame 400; unvoiced_frame; voiced_frame 140] [0; 1; 2]%nat)) < 3)%nat)
    by (vm_compute; lia).
  split; [exact H|].
  exact (smoothPitchTrack_few_voiced stub_fn stub_toString
           [voiced_frame 400; unvoiced_frame; voiced_frame 140] [0; 1; 2]%nat 5 H).
Defined.

(** X8: with a median window size below 2 the window around a frame holds
    at most that frame, its neighbourhood never has three entries, and the
    smoother assigns to no frame of any track. *)
Theorem smoothPitchTrack_narrow_window
    (Math_log2 : float -> float) (Number_toString : float -> string)
    (h : heap) (track_frames : list ref) (medianWindowSize : Z) :
  medianWindowSize < 2 ->
  smoothPitchTrack Math_log2 Number_toString h track_frames medianWindowSize
  = (h, track_frames).
Proof.
  intros Hnarrow. unfold smoothPitchTrack. f_equal.
  apply (smooth_run_idle Math_log2 Number_toString track_frames (medianWindowSize / 2) h).
  intros i. rewrite neighborhood_of_values.
  pose proof (neighborhood_values_width (read_frames h track_frames)
                (medianWindowSize / 2) (Z.of_nat i)) as Hw.
  assert (medianWindowSize / 2 <= 0) by (apply Z.lt_succ_r, Z.div_lt_upper_bound; lia).
  lia.
Qed.

Lemma smoothPitchTrack_narrow_window_witness :
  1 < 2 /\
  smoothPitchTrack stub_fn stub_toString three_frames three_frames_track 1
  = (three_frames, three_frames_track).
Proof.
  assert (H : 1 < 2) by lia. split; [exact H|].
  exact (smoothPitchTrack_narrow_window stub_fn stub_toString
           three_frames three_frames_track 1 H).
Defined.
(** ** Target pitches *)

(** Structural equality of numbers, as a test. *)
Definition float_eqb (x y : float) : bool :=
  match x, y with
  | S754_zero a, S754_zero b => Bool.eqb a b
  | S754_infinity a, S754_infinity b => Bool.eqb a b
  | S754_nan, S754_nan => true
  | S754_finite a m e, S754_finite b m' e' =>
      Bool.eqb a b && Pos.eqb m m' && Z.eqb e e'
  | _, _ => false
  end.

Lemma float_eqb_eq (x y : float) : float_eqb x y = true -> x = y.
Proof.
  destruct x as [a|a| |a m e], y as [b|b| |b m' e']; simpl; try discriminate;
    try reflexivity.
  - intros H. apply eqb_prop in H. congruence.
  - intros H. apply eqb_prop in H. congruence.
  - intros H. apply andb_prop in H. destruct H as [H He].
    apply andb_prop in H. destruct H as [Hs Hm].
    apply eqb_prop in Hs. apply Pos.eqb_eq in Hm. apply Z.eqb_eq in He.
    congruence.
Qed.

(** With a smoothing coefficient of 1 the retune step from the MIDI note
    [c] lands on the MIDI note [t]: [c + 1 * (t - c)] is [t] in binary64
    for the notes 0 to 127. *)
Definition snap_step (c t : float) : float := fadd c (fmul (of_Z 1) (fsub t c)).

Definition snap_cell (c t : Z) : bool :=
  float_eqb (snap_step (of_Z c) (of_Z t)) (of_Z t).

Definition snap_row (c : Z) : bool := forallb (snap_cell c) (zrange 128).

Lemma forallb_zrange (f : Z -> bool) (n : nat) :
  forallb f (zrange n) = true -> forall z, 0 <= z < Z.of_nat n -> f z = true.
Proof.
  intros Hall z Hz. rewrite forallb_forall in Hall. apply Hall.
  unfold zrange, zrange_from. apply in_map_iff.
  exists (Z.to_nat z). split; [lia|]. apply in_seq. lia.
Qed.

Lemma snap_rows_hold : forallb snap_row (zrange 128) = true.
Proof. vm_compute. reflexivity. Qed.

Lemma snap_step_exact (c t : Z) :
  0 <= c <= 127 -> 0 <= t <= 127 -> snap_step (of_Z c) (of_Z t) = of_Z t.
Proof.
  intros Hc Ht.
  assert (Hc' : 0 <= c < Z.of_nat 128) by lia.
  assert (Ht' : 0 <= t < Z.of_nat 128) by lia.
  pose proof (forallb_zrange snap_row 128 snap_rows_hold c Hc') as Hrow.
  apply float_eqb_eq.
  exact (forallb_zrange (snap_cell c) 128 Hrow t Ht').
Qed.

Lemma snap_step_same (t : Z) : 0 <= t <= 127 -> snap_step (of_Z t) (of_Z t) = of_Z t.
Proof. intros Ht. apply snap_step_exact; exact Ht. Qed.

(** A quotient by a positive number is positive only if the dividend is. *)
Lemma fdiv_not_positive (x : float) (m : positive) (e : Z) :
  fgtb x pos_zero = false ->
  fgtb (fdiv x (S754_finite false m e)) pos_zero = false.
Proof.
  unfold fgtb, fdiv, pos_zero, SFltb.
  destruct x as [s|s| |s mx ex]; simpl; try reflexivity.
  - destruct s; simpl; [reflexivity|discriminate].
  - destruct s; [|discriminate]. intros _.
    destruct (SFdiv_core_binary prec64 emax64 (Z.pos mx) ex (Z.pos m) e) as [[mz ez] lz].
    unfold binary_round_aux.
    destruct (shr_fexp prec64 emax64 mz ez lz) as [mrs' e'].
    destruct (shr_fexp prec64 emax64 _ e' loc_Exact) as [mrs'' e''].
    destruct (shr_m mrs''); try reflexivity.
    destruct (e'' <=? emax64 - prec64); reflexivity.
Qed.

Section TargetFacts.

Variables Math_log2 Math_exp Math_sin Math_cos : float -> float.
Variable Math_pow : float -> float -> float.

Let target_loop' := target_loop Math_log2 Math_sin Math_cos Math_pow.

Lemma target_loop_length (alpha humanizeAmount : float) (frames : list PitchFrame) :
  forall (st : retune_state) (i : Z),
  List.length (target_loop' alpha humanizeAmount st i frames) = List.length frames.
Proof.
  induction frames as [|frame rest IH]; intros st i; [reflexivity|].
  unfold target_loop'. cbn [target_loop].
  destruct (target_step Math_log2 Math_sin Math_cos Math_pow alpha humanizeAmount st i frame)
    as [st' target].
  cbn [List.length]. f_equal. apply IH.
Qed.

Lemma target_loop_unvoiced (alpha humanizeAmount : float) (frames : list PitchFrame) :
  forall (st : retune_state) (i : Z) (k : nat),
  (k < List.length frames)%nat ->
  negb (voiced (nth k frames unallocated))
  || fleb (frequency (nth k frames unallocated)) pos_zero = true ->
  nth k (target_loop' alpha humanizeAmount st i frames) NaN = pos_zero.
Proof.
  induction frames as [|frame rest IH]; intros st i k Hk Hun; [simpl in Hk; lia|].
  unfold target_loop'. cbn [target_loop].
  destruct (target_step Math_log2 Math_sin Math_cos Math_pow alpha humanizeAmount st i frame)
    as [st' target] eqn:Hstep.
  destruct k as [|k]; cbn [nth] in *.
  - unfold target_step in Hstep. rewrite Hun in Hstep. congruence.
  - apply IH; [simpl in Hk; lia|exact Hun].
Qed.

(** The nearest semitone of a frame, and the frames that are tuned. *)
Definition nearest_semitone (frame : PitchFrame) : float :=
  Math_roundF (frequencyToMidi Math_log2 (frequency frame)).

Definition tuned (frame : PitchFrame) : bool :=
  voiced frame && negb (fleb (frequency frame) pos_zero).

Definition midi_note (x : float) : Prop := exists n : Z, 0 <= n <= 127 /\ x = of_Z n.

Lemma target_step_skip (alpha humanizeAmount : float) (st : retune_state) (i : Z)
    (frame : PitchFrame) :
  tuned frame = false ->
  target_step Math_log2 Math_sin Math_cos Math_pow alpha humanizeAmount st i frame
  = (st, pos_zero).
Proof.
  unfold target_step, tuned. intros Hskip.
  destruct (voiced frame); [|reflexivity].
  destruct (fleb (frequency frame) pos_zero); [reflexivity|discriminate].
Qed.

Lemma target_step_snap (humanizeAmount : float) (st : retune_state) (i : Z)
    (frame : PitchFrame) :
  fgtb humanizeAmount pos_zero = false ->
  tuned frame = true ->
  midi_note (nearest_semitone frame) ->
  (initialized st = true -> midi_note (currentCorrectedMidi st)) ->
  target_step Math_log2 Math_sin Math_cos Math_pow (of_Z 1) humanizeAmount st i frame
  = (mkRetune (nearest_semitone frame) true,
     midiToFrequency Math_pow (nearest_semitone frame)).
Proof.
  unfold target_step, tuned. intros Hhum Htuned (t & Ht & Hteq) Hst.
  destruct (voiced frame); [|discriminate].
  destruct (fleb (frequency frame) pos_zero); [discriminate|].
  cbn [negb orb]. rewrite Hhum.
  fold (nearest_semitone frame). rewrite Hteq.
  assert (Hsnap : snap_step (if initialized st then currentCorrectedMidi st else of_Z t)
                    (of_Z t) = of_Z t).
  { destruct (initialized st).
    - destruct (Hst eq_refl) as (c & Hc & ->). apply snap_step_exact; assumption.
    - apply snap_step_same; assumption. }
  unfold snap_step in Hsnap. rewrite Hsnap. reflexivity.
Qed.

Lemma target_loop_snap (humanizeAmount : float) (frames : list PitchFrame) :
  fgtb humanizeAmount pos_zero = false ->
  Forall (fun f => tuned f = true -> midi_note (nearest_semitone f)) frames ->
  forall (st : retune_state) (i : Z) (k : nat),
  (initialized st = true -> midi_note (currentCorrectedMidi st)) ->
  (k < List.length frames)%nat ->
  tuned (nth k frames unallocated) = true ->
  nth k (target_loop' (of_Z 1) humanizeAmount st i frames) NaN
  = midiToFrequency Math_pow (nearest_semitone (nth k frames unallocated)).
Proof.
  intros Hhum Hnotes. induction Hnotes as [|frame rest Hnote _ IH];
    intros st i k Hst Hk Htuned; [simpl in Hk; lia|].
  unfold target_loop'. cbn [target_loop].
  destruct (tuned frame) eqn:Hframe.
  - rewrite target_step_snap by auto.
    destruct k as [|k]; cbn [nth] in *; [reflexivity|].
    apply IH; [intros _; exact (Hnote eq_refl)|simpl in Hk; lia|exact Htuned].
  - rewrite target_step_skip by exact Hframe.
    destruct k as [|k]; cbn [nth] in *; [congruence|].
    apply IH; [exact Hst|simpl in Hk; lia|exact Htuned].
Qed.

End TargetFacts.

(** X9: [computeTargetPitches] gives one target per frame, and the target
    0 to every frame that is unvoiced or whose frequency is not above 0. *)
Theorem computeTargetPitches_unvoiced
    (Math_log2 Math_exp Math_sin Math_cos : float -> float)
    (Math_pow : float -> float -> float)
    (frames : list PitchFrame) (sampleRate : float) (hopSize : Z)
    (params : CorrectionParams) :
  let targets :=
    computeTargetPitches Math_log2 Math_exp Math_sin Math_cos Math_pow
      frames sampleRate hopSize params in
  List.length targets = List.length frames /\
  forall k : nat,
    (k < List.length frames)%nat ->
    voiced (nth k frames unallocated) = false \/
    fleb (frequency (nth k frames unallocated)) pos_zero = true ->
    nth k targets NaN = pos_zero.
Proof.
  cbv zeta. unfold computeTargetPitches. split.
  - apply target_loop_length.
  - intros k Hk Hun. apply target_loop_unvoiced; [exact Hk|].
    destruct Hun as [-> | ->]; [reflexivity|apply orb_true_r].
Qed.

(** X10: with a retune speed and a humanize amount that are not above 0
    (the settings of [hardTune]), the target of every voiced frame with a
    frequency above 0 is the frequency of its nearest semitone,
    [midiToFrequency(Math.round(frequencyToMidi(frequency)))], whatever
    the frames before it, provided the nearest semitones of the track are
    MIDI notes 0 to 127. *)
Theorem computeTargetPitches_hard_snap
    (Math_log2 Math_exp Math_sin Math_cos : float -> float)
    (Math_pow : float -> float -> float)
    (frames : list PitchFrame) (sampleRate : float) (hopSize : Z)
    (params : CorrectionParams) (k : nat) :
  fgtb (retuneSpeed params) pos_zero = false ->
  fgtb (humanize params) pos_zero = false ->
  Forall (fun f => tuned f = true -> midi_note (nearest_semitone Math_log2 f)) frames ->
  (k < List.length frames)%nat ->
  tuned (nth k frames unallocated) = true ->
  nth k (computeTargetPitches Math_log2 Math_exp Math_sin Math_cos Math_pow
           frames sampleRate hopSize params) NaN
  = midiToFrequency Math_pow (nearest_semitone Math_log2 (nth k frames unallocated)).
Proof.
  intros Hspeed Hhum Hnotes Hk Htuned. unfold computeTargetPitches.
  assert (Halpha : retune_alpha Math_exp sampleRate hopSize params = of_Z 1).
  { unfold retune_alpha.
    change (of_Z 1000) with (S754_finite false 8796093022208000 (-43)).
    rewrite fdiv_not_positive by exact Hspeed. reflexivity. }
  rewrite Halpha.
  apply target_loop_snap; try assumption.
  - change (of_Z 100) with (S754_finite false 7036874417766400 (-46)).
    apply fdiv_not_positive, Hhum.
  - cbn [initialized]. discriminate.
Qed.

Lemma computeTargetPitches_hard_snap_witness :
  let frames := [voiced_frame 440; unvoiced_frame; voiced_frame 220] in
  let params := {| retuneSpeed := pos_zero; humanize := pos_zero; tuneAmount := of_Z 100 |} in
  fgtb (retuneSpeed params) pos_zero = false /\
  fgtb (humanize params) pos_zero = false /\
  Forall (fun f => tuned f = true -> midi_note (nearest_semitone stub_fn f)) frames /\
  (2 < List.length frames)%nat /\
  tuned (nth 2 frames unallocated) = true /\
  nth 2 (computeTargetPitches stub_fn stub_fn stub_fn stub_fn stub_pow
           frames (of_Z 44100) 256 params) NaN
  = midiToFrequency stub_pow (nearest_semitone stub_fn (nth 2 frames unallocated)).
Proof.
  cbv zeta.
  assert (H1 : fgtb pos_zero pos_zero = false) by reflexivity.
  assert (H2 : Forall (fun f => tuned f = true -> midi_note (nearest_semitone stub_fn f))
                 [voiced_frame 440; unvoiced_frame; voiced_frame 220]).
  { repeat constructor.
    - intros _. exists 81. split; [lia|vm_compute; reflexivity].
    - intros H. vm_compute in H. discriminate.
    - intros _. exists 75. split; [lia|vm_compute; reflexivity]. }
  assert (H3 : (2 < List.length [voiced_frame 440; unvoiced_frame; voiced_frame 220])%nat)
    by (simpl; lia).
  assert (H4 : tuned (nth 2 [voiced_frame 440; unvoiced_frame; voiced_frame 220] unallocated)
               = true) by (vm_compute; reflexivity).
  split; [exact H1|]. split; [exact H1|]. split; [exact H2|].
  split; [exact H3|]. split; [exact H4|].
  exact (computeTargetPitches_hard_snap stub_fn stub_fn stub_fn stub_fn stub_pow
           [voiced_frame 440; unvoiced_frame; voiced_frame 220] (of_Z 44100) 256
           {| retuneSpeed := pos_zero; humanize := pos_zero; tuneAmount := of_Z 100 |}
           2 H1 H1 H2 H3 H4).
Defined.
(** ** Pitch marks *)

(** The order of numbers is transitive. *)
Ltac compare_cases :=
  repeat match goal with
  | H : context [Pos.compare_cont Eq ?x ?y] |- _ =>
      change (Pos.compare_cont Eq x y) with (Pos.compare x y) in H
  | |- context [Pos.compare_cont Eq ?x ?y] =>
      change (Pos.compare_cont Eq x y) with (Pos.compare x y)
  end;
  repeat match goal with
  | H : context [(?x ?= ?y)%Z] |- _ => destruct (Z.compare_spec x y)
  | |- context [(?x ?= ?y)%Z] => destruct (Z.compare_spec x y)
  | H : context [(?x ?= ?y)%positive] |- _ => destruct (Pos.compare_spec x y)
  | |- context [(?x ?= ?y)%positive] => destruct (Pos.compare_spec x y)
  end;
  cbn [CompOpp] in *; try reflexivity; try discriminate; try lia.

Lemma SFcompare_Lt_trans (a b c : float) :
  SFcompare a b = Some Lt -> SFcompare b c = Some Lt -> SFcompare a c = Some Lt.
Proof.
  destruct a as [sa|sa| |sa ma ea], b as [sb|sb| |sb mb eb], c as [sc|sc| |sc mc ec];
    cbn [SFcompare]; try discriminate; try reflexivity;
    try destruct sa; try destruct sb; try destruct sc;
    try discriminate; try reflexivity;
    intros Hab Hbc; compare_cases.
Qed.

Lemma SFcompare_Eq_Lt (a b c : float) :
  SFcompare a b = Some Eq -> SFcompare b c = Some Lt -> SFcompare a c = Some Lt.
Proof.
  destruct a as [sa|sa| |sa ma ea], b as [sb|sb| |sb mb eb], c as [sc|sc| |sc mc ec];
    cbn [SFcompare]; try discriminate; try reflexivity;
    try destruct sa; try destruct sb; try destruct sc;
    try discriminate; try reflexivity;
    intros Hab Hbc; compare_cases.
Qed.

Lemma SFcompare_None (a b : float) : SFcompare a b = None -> a = NaN \/ b = NaN.
Proof.
  destruct a as [sa|sa| |sa ma ea], b as [sb|sb| |sb mb eb]; cbn [SFcompare];
    try discriminate; auto.
Qed.

Lemma fltb_trans (a b c : float) : fltb a b = true -> fltb b c = true -> fltb a c = true.
Proof.
  unfold fltb, SFltb.
  destruct (SFcompare a b) as [[| |]|] eqn:Hab; try discriminate.
  destruct (SFcompare b c) as [[| |]|] eqn:Hbc; try discriminate.
  rewrite (SFcompare_Lt_trans a b c Hab Hbc). reflexivity.
Qed.

Lemma fltb_irrefl (a : float) : fltb a a = false.
Proof.
  destruct (fltb a a) eqn:H; [|reflexivity].
  pose proof (fltb_not_fgtb a a H) as H'. unfold fgtb in H'. unfold fltb in H. congruence.
Qed.

Lemma fltb_nan_r (a : float) : fltb a NaN = false.
Proof. destruct a; reflexivity. Qed.

(** Of two numbers, one is below the other unless the other is above it. *)
Lemma not_fgtb_fltb (a v x : float) :
  a <> NaN -> fgtb a v = false -> fltb v x = true -> fltb a x = true.
Proof.
  intros Ha Hav Hvx. unfold fgtb, fltb, SFltb in *.
  destruct (SFcompare v x) as [[| |]|] eqn:Evx; try discriminate.
  destruct (SFcompare a v) as [c|] eqn:Eav.
  - destruct c.
    + rewrite (SFcompare_Eq_Lt a v x Eav Evx). reflexivity.
    + rewrite (SFcompare_Lt_trans a v x Eav Evx). reflexivity.
    + rewrite (SFcompare_antisym a v Gt Eav) in Hav. discriminate.
  - destruct (SFcompare_None a v Eav) as [->| ->]; [congruence|].
    destruct x; discriminate.
Qed.

Lemma fabs_above_neg_infinity (y : float) :
  fgtb (fabs y) neg_infinity = false -> fabs y = NaN.
Proof.
  unfold fgtb, fabs, neg_infinity, NaN, SFltb.
  destruct y as [s|s| |s m e]; cbn [SFabs SFcompare]; intros H;
    try discriminate; reflexivity.
Qed.

Section PeakScan.

Variable signal : list float.
Variables lo start : Z.

(** The magnitude the scan reads at [j]: NaN outside the signal. *)
Definition magnitude (j : Z) : float := fabs (aget signal j).

Let step (best : float * Z) (j : Z) : float * Z :=
  if fgtb (fabs (aget signal j)) (fst best) then (fabs (aget signal j), j) else best.

Let scan (k : nat) : float * Z := fold_left step (zrange_from lo k) (neg_infinity, start).

(** After [k] iterations: nothing but NaN was read and the start is kept,
    or the best position holds the first largest magnitude read. *)
Definition scan_inv (k : nat) (best : float * Z) : Prop :=
  (fst best = neg_infinity /\ snd best = start /\
   forall j, lo <= j < lo + Z.of_nat k -> magnitude j = NaN)
  \/
  (lo <= snd best < lo + Z.of_nat k /\
   fst best = magnitude (snd best) /\ fst best <> NaN /\
   (forall j, lo <= j < lo + Z.of_nat k -> fgtb (magnitude j) (fst best) = false) /\
   (forall j, lo <= j < snd best ->
      magnitude j = NaN \/ fltb (magnitude j) (fst best) = true)).

Lemma scan_S (k : nat) : scan (S k) = step (scan k) (lo + Z.of_nat k).
Proof.
  unfold scan, zrange_from. rewrite seq_S, map_app, fold_left_app. reflexivity.
Qed.

Lemma scan_inv_holds (k : nat) : scan_inv k (scan k).
Proof.
  induction k as [|k IH].
  - left. repeat split. intros j Hj. lia.
  - rewrite scan_S. destruct (scan k) as [v idx]. unfold step. cbn [fst snd] in *.
    fold (magnitude (lo + Z.of_nat k)). set (x := magnitude (lo + Z.of_nat k)).
    assert (Hrange : forall j, lo <= j < lo + Z.of_nat (S k) ->
              lo <= j < lo + Z.of_nat k \/ j = lo + Z.of_nat k) by lia.
    destruct IH as [(Hv & Hidx & Hnan) | (Hidx & Hv & Hnum & Hmax & Hfirst)];
      cbn [fst snd] in *.
    + subst v idx. destruct (fgtb x neg_infinity) eqn:Hx.
      * right. cbn [fst snd]. split; [lia|]. split; [reflexivity|]. split.
        { intros Habs. rewrite Habs in Hx. discriminate. }
        split.
        { intros j Hj. destruct (Hrange j Hj) as [Hold| ->].
          - rewrite (Hnan j Hold). apply fltb_nan_r.
          - apply fltb_irrefl. }
        { intros j Hj. left. apply Hnan. lia. }
      * left. cbn [fst snd]. repeat split. intros j Hj.
        destruct (Hrange j Hj) as [Hold| ->]; [apply Hnan, Hold|].
        apply fabs_above_neg_infinity, Hx.
    + destruct (fgtb x v) eqn:Hx.
      * right. cbn [fst snd]. split; [lia|]. split; [reflexivity|]. split.
        { intros Habs. rewrite Habs in Hx. unfold fgtb in Hx.
          change (fltb v NaN = true) in Hx. rewrite fltb_nan_r in Hx. discriminate. }
        split.
        { intros j Hj. destruct (Hrange j Hj) as [Hold| ->]; [|apply fltb_irrefl].
          destruct (fgtb (magnitude j) x) eqn:Hjx; [|reflexivity].
          pose proof (fltb_trans v x (magnitude j) Hx Hjx) as Hvj.
          specialize (Hmax j Hold). unfold fgtb in Hmax. unfold fltb in Hvj. congruence. }
        { intros j Hj.
          destruct (magnitude j) as [s|s| |s m e] eqn:Hm; [right|right|left; reflexivity|right];
            apply (not_fgtb_fltb _ v x); try discriminate; try exact Hx;
            rewrite <- Hm; apply Hmax; lia. }
      * right. cbn [fst snd]. split; [lia|]. split; [exact Hv|]. split; [exact Hnum|].
        split; [|exact Hfirst].
        intros j Hj. destruct (Hrange j Hj) as [Hold| ->]; [apply Hmax, Hold|exact Hx].
Qed.

End PeakScan.

(** X11: the scan for a peak, used for the anchor and for each later mark,
    answers the first position of its range that holds the largest
    magnitude (samples outside the signal and NaN samples count for
    nothing); it answers its start position when the range is empty or
    holds no number. *)
Theorem peak_scan_first_maximum (signal : list float) (lo hi start : Z) :
  let r := peak_scan signal lo hi start in
  (r = start /\ forall j, lo <= j < hi -> magnitude signal j = NaN)
  \/
  (lo <= r < hi /\ magnitude signal r <> NaN /\
   (forall j, lo <= j < hi ->
      fgtb (magnitude signal j) (magnitude signal r) = false) /\
   (forall j, lo <= j < r ->
      magnitude signal j = NaN \/
      fltb (magnitude signal j) (magnitude signal r) = true)).
Proof.
  cbv zeta. unfold peak_scan.
  pose proof (scan_inv_holds signal lo start (Z.to_nat (hi - lo))) as Hinv.
  match goal with
  | |- context [snd ?t] =>
      change (scan_inv signal lo start (Z.to_nat (hi - lo)) t) in Hinv;
      revert Hinv; generalize t
  end.
  intros [v idx] Hinv. destruct Hinv as [(_ & Hidx & Hnan) | (Hidx & Hv & Hnum & Hmax & Hfirst)];
    cbn [fst snd] in *.
  - left. split; [exact Hidx|]. intros j Hj. apply Hnan. lia.
  - right. subst v. split; [lia|]. split; [exact Hnum|]. split; [|exact Hfirst].
    intros j Hj. apply Hmax. lia.
Qed.

(** *** Frames that place no mark *)

Lemma marks_step_skip (fuel : nat) (signal : list float) (sampleRate : float)
    (hopSize : Z) (marks : list Z) (i : Z) (frame : PitchFrame) :
  tuned frame = false ->
  marks_step fuel signal sampleRate hopSize marks i frame = Returns marks.
Proof.
  unfold marks_step, tuned. intros Hskip.
  destruct (voiced frame); [|reflexivity].
  destruct (fleb (frequency frame) pos_zero); [reflexivity|discriminate].
Qed.

Lemma marks_loop_skip (fuel : nat) (signal : list float) (sampleRate : float)
    (hopSize : Z) (frames : list PitchFrame) :
  Forall (fun f => tuned f = false) frames ->
  forall (marks : list Z) (i : Z),
  marks_loop fuel signal sampleRate hopSize marks i frames
  = Returns marks.
Proof.
  induction 1 as [|frame rest Hframe _ IH]; intros marks i; [reflexivity|].
  cbn [marks_loop]. rewrite marks_step_skip by exact Hframe. apply IH.
Qed.

Lemma marks_loop_app (fuel : nat) (signal : list float) (sampleRate : float)
    (hopSize : Z) (pre rest : list PitchFrame) :
  Forall (fun f => tuned f = false) pre ->
  forall (marks : list Z) (i : Z),
  marks_loop fuel signal sampleRate hopSize marks i (pre ++ rest)
  = marks_loop fuel signal sampleRate hopSize marks (i + Z.of_nat (List.length pre)) rest.
Proof.
  induction 1 as [|frame pre Hframe _ IH]; intros marks i.
  - cbn [app List.length]. f_equal. lia.
  - cbn [app marks_loop]. rewrite marks_step_skip by exact Hframe. cbn [bind].
    rewrite IH. f_equal. cbn [List.length]. lia.
Qed.

(** X12: when no frame is voiced with a frequency above 0,
    [findPitchMarks] places no mark, whatever the signal. *)
Theorem findPitchMarks_no_voiced (fuel : nat) (signal : list float)
    (frames : list PitchFrame) (sampleRate : float) (hopSize : Z) :
  Forall (fun f => voiced f = false \/ fleb (frequency f) pos_zero = true) frames ->
  findPitchMarks fuel signal frames sampleRate hopSize = Returns [].
Proof.
  intros Hnone. unfold findPitchMarks. apply marks_loop_skip.
  eapply Forall_impl; [|exact Hnone]. intros f Hf. unfold tuned.
  destruct Hf as [-> | ->]; [reflexivity|]. cbn [negb]. apply andb_false_r.
Qed.

Lemma findPitchMarks_no_voiced_witness :
  Forall (fun f => voiced f = false \/ fleb (frequency f) pos_zero = true)
    [unvoiced_frame; unvoiced_frame] /\
  findPitchMarks 0 pulse_signal [unvoiced_frame; unvoiced_frame] (of_Z 8) 4 = Returns [].
Proof.
  assert (H : Forall (fun f => voiced f = false \/ fleb (frequency f) pos_zero = true)
                [unvoiced_frame; unvoiced_frame])
    by (repeat constructor).
  split; [exact H|].
  exact (findPitchMarks_no_voiced 0 pulse_signal [unvoiced_frame; unvoiced_frame]
           (of_Z 8) 4 H).
Defined.

(** *** The distance between consecutive marks *)

Definition adjacent (P : Z -> Z -> Prop) (l : list Z) : Prop :=
  forall k : nat, (S k < List.length l)%nat -> P (nth k l 0) (nth (S k) l 0).

Lemma nth_last_index (l : list Z) : nth (List.length l - 1) l 0 = last l 0.
Proof.
  destruct l as [|x l] using rev_ind; [reflexivity|].
  rewrite last_last, length_app, app_nth2 by (simpl; lia).
  cbn [List.length]. replace (List.length l + 1 - 1 - List.length l)%nat with O by lia.
  reflexivity.
Qed.

Lemma adjacent_snoc (P : Z -> Z -> Prop) (l : list Z) (m : Z) :
  adjacent P l -> (l <> [] -> P (last l 0) m) -> adjacent P (l ++ [m]).
Proof.
  intros Hl Hm k Hk. rewrite length_app in Hk. cbn [List.length] in Hk.
  destruct (Nat.lt_ge_cases (S k) (List.length l)) as [Hin|Hend].
  - rewrite !app_nth1 by lia. apply Hl, Hin.
  - assert (Hkl : S k = List.length l) by lia.
    rewrite (app_nth1 l [m] 0) by lia.
    rewrite app_nth2 by lia. rewrite Hkl, Nat.sub_diag. cbn [nth].
    replace k with (List.length l - 1)%nat by lia.
    rewrite nth_last_index. apply Hm. intros ->. simpl in Hkl. lia.
Qed.

(** A mark one period after the previous one, up to a quarter period. *)
Definition within_quarter (p a b : Z) : Prop := Z.abs (b - a - p) <= Z.abs (p / 4).

Lemma place_marks_spacing (P : Z -> Z -> Prop) (signal : list float)
    (p frameEnd : Z) (fuel : nat) :
  (forall a b, within_quarter p a b -> P a b) ->
  forall (marks : list Z) (nextMark : Z) (marks' : list Z),
  marks <> [] -> nextMark = last marks 0 + p -> adjacent P marks ->
  place_marks fuel signal p frameEnd marks nextMark = Returns marks' ->
  adjacent P marks'.
Proof.
  intros HP. induction fuel as [|fuel IH]; intros marks nextMark marks' Hne Hnext Hadj;
    cbn [place_marks];
    destruct ((nextMark <? frameEnd) && (nextMark <? Z.of_nat (List.length signal)));
    try discriminate; try (intros H; injection H as <-; exact Hadj).
  set (len := Z.of_nat (List.length signal)).
  set (bestPos := peak_scan signal (Z.max 0 (nextMark - p / 4))
                    (Z.min len (nextMark + p / 4)) nextMark).
  apply IH.
  - intros Habs. apply app_eq_nil in Habs. destruct Habs; discriminate.
  - rewrite last_last. reflexivity.
  - apply adjacent_snoc; [exact Hadj|]. intros _. apply HP. unfold within_quarter.
    destruct (peak_scan_range signal (Z.max 0 (nextMark - p / 4))
                (Z.min len (nextMark + p / 4)) nextMark) as [H|H];
      fold bestPos in H; lia.
Qed.

(** The marks [a] and [b] are one period of a voiced frame apart, up to a
    quarter of that period. *)
Definition spaced_by (sampleRate : float) (frames : list PitchFrame) (a b : Z) : Prop :=
  exists (f : PitchFrame) (p : Z),
    In f frames /\ voiced f = true /\ fleb (frequency f) pos_zero = false /\
    Math_round (fdiv sampleRate (frequency f)) = JInt p /\
    within_quarter p a b.

Lemma marks_step_spacing (fuel : nat) (signal : list float) (sampleRate : float)
    (hopSize : Z) (frames : list PitchFrame) (marks : list Z) (i : Z)
    (frame : PitchFrame) (marks' : list Z) :
  In frame frames ->
  adjacent (spaced_by sampleRate frames) marks ->
  marks_step fuel signal sampleRate hopSize marks i frame = Returns marks' ->
  adjacent (spaced_by sampleRate frames) marks'.
Proof.
  intros Hin Hadj. unfold marks_step.
  destruct (voiced frame) eqn:Hv; cbn [negb orb];
    [|intros H; injection H as <-; exact Hadj].
  destruct (fleb (frequency frame) pos_zero) eqn:Hf;
    [intros H; injection H as <-; exact Hadj|].
  set (period := Math_round (fdiv sampleRate (frequency frame))).
  set (marks1 := match marks with [] => [anchor_mark signal period (i * hopSize)] | _ => marks end).
  assert (Hne : marks1 <> []) by (unfold marks1; destruct marks; discriminate).
  assert (Hadj1 : adjacent (spaced_by sampleRate frames) marks1).
  { unfold marks1. destruct marks; [|exact Hadj]. intros k Hk. simpl in Hk. lia. }
  destruct period as [p| | |] eqn:Hp; try (intros H; injection H as <-; exact Hadj1).
  match goal with |- (if ?c then _ else _) = _ -> _ => destruct c end;
    [|intros H; injection H as <-; exact Hadj1].
  apply place_marks_spacing; try assumption; [|reflexivity].
  intros a b Hab. exists frame, p. auto.
Qed.

Lemma marks_loop_spacing (fuel : nat) (signal : list float) (sampleRate : float)
    (hopSize : Z) (frames : list PitchFrame) (rest : list PitchFrame) :
  incl rest frames ->
  forall (marks : list Z) (i : Z) (marks' : list Z),
  adjacent (spaced_by sampleRate frames) marks ->
  marks_loop fuel signal sampleRate hopSize marks i rest = Returns marks' ->
  adjacent (spaced_by sampleRate frames) marks'.
Proof.
  induction rest as [|frame rest IH]; intros Hincl marks i marks' Hadj;
    cbn [marks_loop]; [intros H; injection H as <-; exact Hadj|].
  destruct (marks_step fuel signal sampleRate hopSize marks i frame) as [marks1| |] eqn:Hstep;
    cbn [bind]; try discriminate.
  apply IH.
  - intros f Hf. apply Hincl. right. exact Hf.
  - eapply marks_step_spacing; [|exact Hadj|exact Hstep].
    apply Hincl. left. reflexivity.
Qed.

(** X13: any two consecutive marks of [findPitchMarks] are one period
    apart, up to a quarter of it: their distance differs from the period
    [p] of some voiced frame of the track by at most [floor(p / 4)] in
    absolute value. *)
Theorem findPitchMarks_spacing (fuel : nat) (signal : list float)
    (frames : list PitchFrame) (sampleRate : float) (hopSize : Z)
    (marks : list Z) (k : nat) :
  findPitchMarks fuel signal frames sampleRate hopSize = Returns marks ->
  (S k < List.length marks)%nat ->
  exists (f : PitchFrame) (p : Z),
    In f frames /\ voiced f = true /\ fleb (frequency f) pos_zero = false /\
    Math_round (fdiv sampleRate (frequency f)) = JInt p /\
    Z.abs (nth (S k) marks 0 - nth k marks 0 - p) <= Z.abs (p / 4).
Proof.
  intros Hrun Hk.
  assert (Hadj : adjacent (spaced_by sampleRate frames) marks).
  { eapply (marks_loop_spacing fuel signal sampleRate hopSize frames frames);
      [apply incl_refl| |exact Hrun].
    intros j Hj. simpl in Hj. lia. }
  exact (Hadj k Hk).
Qed.

Lemma findPitchMarks_spacing_witness :
  findPitchMarks 12 pulse_signal pulse_frames (of_Z 8) 4 = Returns pulse_marks /\
  (1 < List.length pulse_marks)%nat /\
  exists (f : PitchFrame) (p : Z),
    In f pulse_frames /\ voiced f = true /\ fleb (frequency f) pos_zero = false /\
    Math_round (fdiv (of_Z 8) (frequency f)) = JInt p /\
    Z.abs (nth 1 pulse_marks 0 - nth 0 pulse_marks 0 - p) <= Z.abs (p / 4).
Proof.
  assert (H1 : findPitchMarks 12 pulse_signal pulse_frames (of_Z 8) 4 = Returns pulse_marks)
    by (vm_compute; reflexivity).
  assert (H2 : (1 < List.length pulse_marks)%nat) by (simpl; lia).
  split; [exact H1|]. split; [exact H2|].
  exact (findPitchMarks_spacing 12 pulse_signal pulse_frames (of_Z 8) 4 pulse_marks 0 H1 H2).
Defined.

(** *** Periods that are not positive *)

(** X14: a period [Math.round(sampleRate / frequency)] of 0 or less at the
    first voiced frame keeps [findPitchMarks] from returning, when that
    frame starts inside the signal and the guard of its mark loop,
    [lastMark + period < frameEnd + period], holds: the anchor is the
    frame start, and no next mark is ever past it, so a mark is appended
    at every iteration and the loop is never left. *)
Theorem findPitchMarks_nonpositive_period_stuck (fuel : nat) (signal : list float)
    (pre : list PitchFrame) (frame : PitchFrame) (rest : list PitchFrame)
    (sampleRate : float) (hopSize p : Z) (marks : list Z) :
  let frameStart := Z.of_nat (List.length pre) * hopSize in
  let frameEnd := Z.min (frameStart + hopSize) (Z.of_nat (List.length signal)) in
  Forall (fun f => voiced f = false \/ fleb (frequency f) pos_zero = true) pre ->
  voiced frame = true -> fleb (frequency frame) pos_zero = false ->
  Math_round (fdiv sampleRate (frequency frame)) = JInt p -> p <= 0 ->
  0 < hopSize -> frameStart < Z.of_nat (List.length signal) ->
  fltb (fadd (of_Z frameStart) (of_Z p)) (fadd (of_Z frameEnd) (of_Z p)) = true ->
  findPitchMarks fuel signal (pre ++ frame :: rest) sampleRate hopSize <> Returns marks.
Proof.
  intros frameStart frameEnd Hpre Hv Hf Hperiod Hp Hhop Hstart Hguard.
  unfold findPitchMarks.
  rewrite marks_loop_app.
  2:{ eapply Forall_impl; [|exact Hpre]. intros f Hskip. unfold tuned.
      destruct Hskip as [-> | ->]; [reflexivity|]. cbn [negb]. apply andb_false_r. }
  cbn [marks_loop]. unfold marks_step at 1. rewrite Hv, Hf, Hperiod.
  cbn [negb orb anchor_mark last].
  rewrite peak_scan_empty by lia.
  replace ((0 + Z.of_nat (List.length pre)) * hopSize) with frameStart
    by (unfold frameStart; lia).
  fold frameEnd. rewrite Hguard.
  rewrite place_marks_stuck by (unfold frameEnd; lia).
  discriminate.
Qed.

Lemma findPitchMarks_nonpositive_period_stuck_witness :
  let frameStart := Z.of_nat (List.length [unvoiced_frame]) * 4 in
  let frameEnd := Z.min (frameStart + 4) (Z.of_nat (List.length pulse_signal)) in
  Forall (fun f => voiced f = false \/ fleb (frequency f) pos_zero = true) [unvoiced_frame] /\
  voiced (voiced_frame 100) = true /\
  fleb (frequency (voiced_frame 100)) pos_zero = false /\
  Math_round (fdiv (of_Z 8) (frequency (voiced_frame 100))) = JInt 0 /\ 0 <= 0 /\
  0 < 4 /\ frameStart < Z.of_nat (List.length pulse_signal) /\
  fltb (fadd (of_Z frameStart) (of_Z 0)) (fadd (of_Z frameEnd) (of_Z 0)) = true /\
  findPitchMarks 1000 pulse_signal ([unvoiced_frame] ++ voiced_frame 100 :: [])
    (of_Z 8) 4 <> Returns [4].
Proof.
  cbv zeta.
  assert (H1 : Forall (fun f => voiced f = false \/ fleb (frequency f) pos_zero = true)
                 [unvoiced_frame]) by (repeat constructor).
  assert (H2 : voiced (voiced_frame 100) = true) by reflexivity.
  assert (H3 : fleb (frequency (voiced_frame 100)) pos_zero = false)
    by (vm_compute; reflexivity).
  assert (H4 : Math_round (fdiv (of_Z 8) (frequency (voiced_frame 100))) = JInt 0)
    by (vm_compute; reflexivity).
  assert (H5 : 0 <= 0) by lia.
  assert (H6 : 0 < 4) by lia.
  assert (H7 : Z.of_nat (List.length [unvoiced_frame]) * 4
               < Z.of_nat (List.length pulse_signal)) by (vm_compute; reflexivity).
  assert (H8 : fltb (fadd (of_Z (Z.of_nat (List.length [unvoiced_frame]) * 4)) (of_Z 0))
                 (fadd (of_Z (Z.min (Z.of_nat (List.length [unvoiced_frame]) * 4 + 4)
                                (Z.of_nat (List.length pulse_signal)))) (of_Z 0)) = true)
    by (vm_compute; reflexivity).
  repeat (split; [assumption|]).
  exact (findPitchMarks_nonpositive_period_stuck 1000 pulse_signal [unvoiced_frame]
           (voiced_frame 100) [] (of_Z 8) 4 0 [4] H1 H2 H3 H4 H5 H6 H7 H8).
Defined.
(** ** PSOLA: the nearest input mark and the frame of a position *)

Lemma strictly_increasing_tail (x : Z) (l : list Z) :
  strictly_increasing (x :: l) ->
  strictly_increasing l /\ Forall (fun y => x < y) l.
Proof.
  intros Hinc. split.
  - intros i j Hij Hj. apply (Hinc (S i) (S j)); simpl; lia.
  - apply Forall_forall. intros y Hy.
    destruct (In_nth l y 0 Hy) as (k & Hk & <-).
    apply (Hinc O (S k)); simpl; lia.
Qed.

Lemma strictly_increasing_skipn (n : nat) (l : list Z) :
  strictly_increasing l -> strictly_increasing (skipn n l).
Proof.
  revert l. induction n as [|n IH]; intros l Hinc; [exact Hinc|].
  destruct l as [|x l]; [exact Hinc|].
  cbn [skipn]. apply IH. apply (strictly_increasing_tail x l Hinc).
Qed.

(** The scan from a state [(d, m, idx)] with [d] the distance of [m], over
    increasing marks none of which is before [m]. *)
Lemma nearest_scan_spec (outPos : Z) (l : list Z) :
  forall (j d m idx : Z),
  d = Z.abs (outPos - m) ->
  Forall (fun x => m <= x) l ->
  strictly_increasing l ->
  let '(d', m', idx') := nearest_scan outPos l j (d, m, idx) in
  d' = Z.abs (outPos - m') /\
  ((m' = m /\ idx' = idx) \/
   (exists k : nat, (k < List.length l)%nat /\ nth k l 0 = m' /\ idx' = j + Z.of_nat k)) /\
  d' <= d /\
  Forall (fun x => d' <= Z.abs (outPos - x)) l.
Proof.
  induction l as [|x rest IH]; intros j d m idx Hd Hge Hinc.
  - cbn [nearest_scan]. repeat split; auto; try lia.
  - cbn [nearest_scan].
    destruct (strictly_increasing_tail x rest Hinc) as [Hinc' Habove].
    assert (Hmx : m <= x) by (inversion Hge; assumption).
    destruct (Z.ltb_spec (Z.abs (outPos - x)) d) as [Hcloser|Hnot].
    + specialize (IH (j + 1) (Z.abs (outPos - x)) x j eq_refl).
      destruct (nearest_scan outPos rest (j + 1) (Z.abs (outPos - x), x, j))
        as [[d' m'] idx'].
      destruct IH as (Hd' & Hwhich & Hle & Hall).
      { eapply Forall_impl; [|exact Habove]. intros y Hy. cbv beta in Hy. lia. }
      { exact Hinc'. }
      split; [exact Hd'|]. split; [|split; [lia|]].
      * right. destruct Hwhich as [[-> ->]|(k & Hk & Hnth & ->)].
        -- exists O. cbn [List.length nth]. repeat split; lia.
        -- exists (S k). cbn [List.length nth]. repeat split; try assumption; lia.
      * constructor; [lia|exact Hall].
    + destruct (Z.ltb_spec d (Z.abs (outPos - x))) as [Hfarther|Hsame].
      * split; [exact Hd|]. split; [left; auto|]. split; [lia|].
        constructor; [lia|].
        eapply Forall_impl; [|exact Habove]. intros y Hy. cbv beta in Hy. lia.
      * specialize (IH (j + 1) d m idx Hd).
        destruct (nearest_scan outPos rest (j + 1) (d, m, idx)) as [[d' m'] idx'].
        destruct IH as (Hd' & Hwhich & Hle & Hall).
        { eapply Forall_impl; [|exact Habove]. intros y Hy. cbv beta in Hy. lia. }
        { exact Hinc'. }
        split; [exact Hd'|]. split; [|split; [exact Hle|]].
        -- destruct Hwhich as [Hsame'|(k & Hk & Hnth & ->)]; [left; exact Hsame'|].
           right. exists (S k). cbn [List.length nth].
           repeat split; try assumption; lia.
        -- constructor; [lia|exact Hall].
Qed.

(** X15: for strictly increasing pitch marks, the search of [psolaShift]
    for the input mark nearest to an output position finds a mark that is
    at least as near as the first mark and as every mark from
    [inputMarkIdx] on, so the early [break] loses nothing; marks before
    [inputMarkIdx], the first one apart, are not looked at.  The mark
    found is the first mark, or the mark at the new [inputMarkIdx]. *)
Theorem nearest_scan_nearest (outPos : Z) (pitchMarks : list Z) (inputMarkIdx : Z) :
  strictly_increasing pitchMarks -> 0 <= inputMarkIdx ->
  let mark0 := nth 0 pitchMarks 0 in
  let '(minDist, nearest, idx) :=
    nearest_scan outPos (skipn (Z.to_nat inputMarkIdx) pitchMarks) inputMarkIdx
      (Z.abs (outPos - mark0), mark0, inputMarkIdx) in
  minDist = Z.abs (outPos - nearest) /\
  ((nearest = mark0 /\ idx = inputMarkIdx) \/
   (inputMarkIdx <= idx < Z.of_nat (List.length pitchMarks) /\
    nth (Z.to_nat idx) pitchMarks 0 = nearest)) /\
  Z.abs (outPos - nearest) <= Z.abs (outPos - mark0) /\
  forall k : Z, inputMarkIdx <= k < Z.of_nat (List.length pitchMarks) ->
    Z.abs (outPos - nearest) <= Z.abs (outPos - nth (Z.to_nat k) pitchMarks 0).
Proof.
  intros Hinc Hidx. cbv zeta.
  set (mark0 := nth 0 pitchMarks 0).
  set (n := Z.to_nat inputMarkIdx).
  assert (Hfirst : Forall (fun x => mark0 <= x) (skipn n pitchMarks)).
  { apply Forall_forall. intros x Hx.
    destruct (In_nth _ x 0 Hx) as (k & Hk & <-).
    rewrite nth_skipn. rewrite length_skipn in Hk.
    destruct (n + k)%nat as [|i] eqn:Hi; [unfold mark0; lia|].
    apply Z.lt_le_incl. apply (Hinc O (S i)); lia. }
  pose proof (nearest_scan_spec outPos (skipn n pitchMarks) inputMarkIdx
                (Z.abs (outPos - mark0)) mark0 inputMarkIdx eq_refl Hfirst
                (strictly_increasing_skipn n pitchMarks Hinc)) as Hspec.
  destruct (nearest_scan outPos (skipn n pitchMarks) inputMarkIdx
              (Z.abs (outPos - mark0), mark0, inputMarkIdx)) as [[d' m'] idx'].
  destruct Hspec as (Hd' & Hwhich & Hle & Hall).
  split; [exact Hd'|]. split; [|split; [lia|]].
  - destruct Hwhich as [Hsame|(k & Hk & Hnth & ->)]; [left; exact Hsame|].
    right. rewrite length_skipn in Hk. rewrite nth_skipn in Hnth.
    split; [lia|].
    replace (Z.to_nat (inputMarkIdx + Z.of_nat k)) with (n + k)%nat by lia.
    exact Hnth.
  - intros k Hk. rewrite Forall_forall in Hall. rewrite <- Hd'. apply Hall.
    replace (Z.to_nat k) with (n + (Z.to_nat k - n))%nat by lia.
    rewrite <- nth_skipn. apply nth_In. rewrite length_skipn. lia.
Qed.

Lemma nearest_scan_nearest_witness :
  strictly_increasing pulse_marks /\ 0 <= 1 /\
  let mark0 := nth 0 pulse_marks 0 in
  let '(minDist, nearest, idx) :=
    nearest_scan 8 (skipn (Z.to_nat 1) pulse_marks) 1 (Z.abs (8 - mark0), mark0, 1) in
  minDist = Z.abs (8 - nearest) /\
  ((nearest = mark0 /\ idx = 1) \/
   (1 <= idx < Z.of_nat (List.length pulse_marks) /\
    nth (Z.to_nat idx) pulse_marks 0 = nearest)) /\
  Z.abs (8 - nearest) <= Z.abs (8 - mark0) /\
  forall k : Z, 1 <= k < Z.of_nat (List.length pulse_marks) ->
    Z.abs (8 - nearest) <= Z.abs (8 - nth (Z.to_nat k) pulse_marks 0).
Proof.
  assert (H1 : strictly_increasing pulse_marks).
  { intros i j Hij Hj. simpl in Hj.
    destruct j as [|[|[|j]]]; try lia; destruct i as [|[|i]]; try lia;
      simpl; lia. }
  assert (H2 : 0 <= 1) by lia.
  split; [exact H1|]. split; [exact H2|].
  exact (nearest_scan_nearest 8 pulse_marks 1 H1 H2).
Defined.

(** X16: the frame of a sample position,
    [Math.min(frames.length - 1, Math.max(0, Math.floor(samplePos / hopSize)))],
    is an index of the frames whenever there is a frame, except that it
    is NaN when [samplePos / hopSize] is. *)
Theorem getFrameIndex_clamped (nframes hopSize : Z) (samplePos : float) :
  1 <= nframes ->
  (exists k : Z, getFrameIndex nframes hopSize samplePos = JInt k /\ 0 <= k < nframes)
  \/
  (getFrameIndex nframes hopSize samplePos = JNaN /\
   fdiv samplePos (of_Z hopSize) = NaN).
Proof.
  intros Hn. unfold getFrameIndex.
  destruct (fdiv samplePos (of_Z hopSize)) as [s|s| |s m e] eqn:Hq.
  - left. cbn [Math_floor jsint_max jsint_min]. eexists. split; [reflexivity|lia].
  - left. destruct s; cbn [Math_floor jsint_max jsint_min];
      eexists; (split; [reflexivity|lia]).
  - right. split; reflexivity.
  - left. cbn [Math_floor].
    destruct (0 <=? e); [|destruct s]; cbn [jsint_max jsint_min];
      eexists; (split; [reflexivity|lia]).
Qed.

Lemma getFrameIndex_clamped_witness :
  1 <= 3 /\
  ((exists k : Z, getFrameIndex 3 4 (of_Z 9) = JInt k /\ 0 <= k < 3)
   \/
   (getFrameIndex 3 4 (of_Z 9) = JNaN /\ fdiv (of_Z 9) (of_Z 4) = NaN)).
Proof.
  assert (H : 1 <= 3) by lia. split; [exact H|].
  exact (getFrameIndex_clamped 3 4 (of_Z 9) H).
Defined.
(** ** Note names *)

(** The octave computed from a rounded MIDI number,
    [Math.floor(roundedMidi / 12) - 1]. *)
Definition octave_of (roundedMidi : float) : float :=
  fsub (Math_floorF (fdiv roundedMidi (of_Z 12))) (of_Z 1).

Definition is_finite_number (x : float) : bool :=
  match x with
  | S754_finite _ _ _ => true
  | _ => false
  end.

Definition octave_check : bool :=
  forallb (fun n => is_finite_number (of_Z n)
                    && float_eqb (octave_of (of_Z n)) (of_Z (n / 12 - 1)))
          (zrange_from 1 127).

Lemma octave_of_midi (n : Z) :
  1 <= n <= 127 ->
  is_finite_number (of_Z n) = true /\ octave_of (of_Z n) = of_Z (n / 12 - 1).
Proof.
  intros Hn.
  assert (Hall : octave_check = true) by (vm_compute; reflexivity).
  unfold octave_check in Hall. rewrite forallb_forall in Hall.
  assert (Hin : In n (zrange_from 1 127)).
  { unfold zrange_from. apply in_map_iff. exists (Z.to_nat (n - 1)).
    split; [lia|]. apply in_seq. lia. }
  specialize (Hall n Hin). apply andb_prop in Hall. destruct Hall as [Hfin Hoct].
  split; [exact Hfin|apply float_eqb_eq, Hoct].
Qed.

Lemma octave_of_rounded (midi : float) (n : Z) :
  Math_round midi = JInt n -> 0 <= n <= 127 ->
  octave_of (Math_roundF midi) = of_Z (n / 12 - 1).
Proof.
  intros Hround Hn. unfold Math_roundF. rewrite Hround. cbn [of_jsint].
  destruct (Z.eq_dec n 0) as [->|Hnz].
  - change (of_Z 0) with (S754_zero false).
    destruct midi as [s|s| |s m e]; cbn [with_sign_of];
      try destruct s; vm_compute; reflexivity.
  - destruct (octave_of_midi n ltac:(lia)) as [Hfin Hoct].
    destruct (of_Z n) as [s|s| |s m e] eqn:Hz; try discriminate.
    cbn [with_sign_of]. rewrite <- Hoct.
    destruct midi; reflexivity.
Qed.

(** X17: for a MIDI number that rounds to a note [n] from 0 to 127,
    [midiToNoteName] is the name at index [n mod 12] of NOTE_NAMES
    followed by the octave [floor(n / 12) - 1] as [Number.toString] prints
    it: 60 is C4 and 69 is A4. *)
Theorem midiToNoteName_midi_range (Number_toString : float -> string)
    (midi : float) (n : Z) :
  Math_round midi = JInt n -> 0 <= n <= 127 ->
  midiToNoteName Number_toString midi
  = (nth (Z.to_nat (n mod 12)) NOTE_NAMES "undefined"
     ++ Number_toString (of_Z (n / 12 - 1)))%string.
Proof.
  intros Hround Hn. unfold midiToNoteName.
  change (fsub (Math_floorF (fdiv (Math_roundF midi) (of_Z 12))) (of_Z 1))
    with (octave_of (Math_roundF midi)).
  rewrite (octave_of_rounded midi n Hround Hn), Hround.
  unfold note_index_name. rewrite Z.rem_mod_nonneg by lia.
  destruct (Z.ltb_spec (n mod 12) 0) as [Hneg|_]; [|reflexivity].
  pose proof (Z.mod_pos_bound n 12 ltac:(lia)). lia.
Qed.

Lemma midiToNoteName_midi_range_witness :
  Math_round (lit 277 4) = JInt 69 /\ 0 <= 69 <= 127 /\
  midiToNoteName stub_toString (lit 277 4)
  = (nth (Z.to_nat (69 mod 12)) NOTE_NAMES "undefined"
     ++ stub_toString (of_Z (69 / 12 - 1)))%string.
Proof.
  assert (H1 : Math_round (lit 277 4) = JInt 69) by (vm_compute; reflexivity).
  assert (H2 : 0 <= 69 <= 127) by lia.
  split; [exact H1|]. split; [exact H2|].
  exact (midiToNoteName_midi_range stub_toString (lit 277 4) 69 H1 H2).
Defined.

(** X18: for a MIDI number that rounds to a negative integer that is not a
    multiple of 12, [roundedMidi % 12] is negative, NOTE_NAMES has no such
    entry, and the name starts with "undefined". *)
Theorem midiToNoteName_negative (Number_toString : float -> string)
    (midi : float) (n : Z) :
  Math_round midi = JInt n -> n < 0 -> ~ (12 | n) ->
  exists octave : float,
    midiToNoteName Number_toString midi
    = ("undefined" ++ Number_toString octave)%string.
Proof.
  intros Hround Hneg Hndiv. unfold midiToNoteName. rewrite Hround.
  eexists. f_equal. unfold note_index_name.
  assert (Hrem : Z.rem n 12 < 0).
  { pose proof (Z.rem_bound_pos_neg n 12 ltac:(lia) ltac:(lia)) as Hb.
    assert (Z.rem n 12 <> 0) by (intros H0; apply Hndiv, Z.rem_divide; [lia|exact H0]).
    lia. }
  destruct (Z.ltb_spec (Z.rem n 12) 0) as [_|]; [reflexivity|lia].
Qed.

Lemma midiToNoteName_negative_witness :
  Math_round (of_Z (-1)) = JInt (-1) /\ -1 < 0 /\ ~ (12 | -1) /\
  exists octave : float,
    midiToNoteName stub_toString (of_Z (-1))
    = ("undefined" ++ stub_toString octave)%string.
Proof.
  assert (H1 : Math_round (of_Z (-1)) = JInt (-1)) by (vm_compute; reflexivity).
  assert (H2 : -1 < 0) by lia.
  assert (H3 : ~ (12 | -1)).
  { intros [k Hk]. lia. }
  split; [exact H1|]. split; [exact H2|]. split; [exact H3|].
  exact (midiToNoteName_negative stub_toString (of_Z (-1)) (-1) H1 H2 H3).
Defined.
(** ** A frame reads its window only *)

Lemma fold_left_ext_In {A B : Type} (f g : A -> B -> A) (l : list B) (a : A) :
  (forall x b, In b l -> f x b = g x b) -> fold_left f l a = fold_left g l a.
Proof.
  revert a. induction l as [|b l IH]; intros a H; simpl; [reflexivity|].
  rewrite (H a b) by (left; reflexivity).
  apply IH. intros x b' Hb'. apply H. right. exact Hb'.
Qed.

Lemma map_ext_In_zrange (f g : Z -> float) (n : nat) :
  (forall i, 0 <= i < Z.of_nat n -> f i = g i) -> map f (zrange n) = map g (zrange n).
Proof.
  intros H. apply map_ext_in. intros i Hi. apply In_zrange_from in Hi. apply H. lia.
Qed.

Section FrameLocal.

Variable Math_log2 : float -> float.
Variable Number_toString : float -> string.

Lemma difference_local (s1 s2 : list float) (center : Z) (halfWindow : nat) :
  (forall i, center <= i < center + 2 * Z.of_nat halfWindow - 1 -> aget s1 i = aget s2 i) ->
  difference s1 center halfWindow = difference s2 center halfWindow.
Proof.
  intros Hsame. unfold difference. apply map_ext_In_zrange. intros tau Htau.
  f_equal. unfold diff_at. apply fold_left_ext_In. intros sum j Hj.
  apply In_zrange_from in Hj.
  rewrite (Hsame (center + j)) by lia.
  rewrite (Hsame (center + j + tau)) by lia.
  reflexivity.
Qed.

Lemma analyse_frame_local (s1 s2 : list float) (sampleRate : float) (halfWindow : nat)
    (threshold : float) (minPeriod maxPeriod : jsint) (center : Z) :
  (forall i, center <= i < center + 2 * Z.of_nat halfWindow - 1 -> aget s1 i = aget s2 i) ->
  analyse_frame Math_log2 Number_toString s1 sampleRate halfWindow threshold
    minPeriod maxPeriod center
  = analyse_frame Math_log2 Number_toString s2 sampleRate halfWindow threshold
      minPeriod maxPeriod center.
Proof.
  intros Hsame. unfold analyse_frame.
  rewrite (difference_local s1 s2 center halfWindow Hsame). reflexivity.
Qed.

Lemma nth_frame (analyse : Z -> PitchFrame) (hop : Z) (n k : nat) :
  nth k (map analyse (frame_centers hop 0 n)) unallocated
  = if (k <? n)%nat then analyse (Z.of_nat k * hop) else unallocated.
Proof.
  destruct (Nat.ltb_spec k n) as [Hk|Hk].
  - rewrite (nth_indep _ unallocated (analyse 0))
      by (unfold frame_centers; rewrite !length_map, length_seq; exact Hk).
    rewrite (map_nth analyse). unfold frame_centers.
    rewrite (nth_indep _ 0 ((fun k => 0 + hop * Z.of_nat k) O))
      by (rewrite length_map, length_seq; exact Hk).
    rewrite (map_nth (fun k => 0 + hop * Z.of_nat k)), seq_nth by exact Hk.
    f_equal. lia.
  - apply nth_overflow. unfold frame_centers. rewrite !length_map, length_seq. exact Hk.
Qed.

End FrameLocal.

(** X19: a frame of [detectPitch] depends on the samples of its own window
    only: two signals of the same length that agree on the samples
    [k * hopSize .. k * hopSize + windowSize - 1] have the same frame
    [k], field by field, and the same number of frames. *)
Theorem detectPitch_frame_local
    (Math_log2 : float -> float) (Number_toString : float -> string)
    (fuel : nat) (s1 s2 : list float) (rate : float) (hop windowSize : Z)
    (threshold minFreq maxFreq : float) (k : nat) :
  0 < hop -> 0 <= windowSize ->
  List.length s1 = List.length s2 -> (List.length s1 <= fuel)%nat ->
  (forall i, Z.of_nat k * hop <= i < Z.of_nat k * hop + windowSize ->
             aget s1 i = aget s2 i) ->
  exists t1 t2,
    detectPitch Math_log2 Number_toString fuel s1 rate hop windowSize
      threshold minFreq maxFreq = Returns t1 /\
    detectPitch Math_log2 Number_toString fuel s2 rate hop windowSize
      threshold minFreq maxFreq = Returns t2 /\
    List.length (frames t1) = List.length (frames t2) /\
    nth k (frames t1) unallocated = nth k (frames t2) unallocated.
Proof.
  intros Hhop Hwin Hlen Hfuel Hsame. unfold detectPitch.
  rewrite !detect_loop_returns by lia. cbn [bind].
  eexists. eexists. split; [reflexivity|]. split; [reflexivity|]. cbn [frames].
  rewrite <- Hlen. split; [rewrite !length_map; reflexivity|].
  rewrite !nth_frame.
  destruct (_ <? _)%nat; [|reflexivity].
  apply analyse_frame_local. intros i Hi. apply Hsame.
  assert (0 <= windowSize / 2) by (apply Z.div_pos; lia).
  pose proof (Z.mul_div_le windowSize 2 ltac:(lia)).
  rewrite Z2Nat.id in Hi by lia. lia.
Qed.

Lemma detectPitch_frame_local_witness :
  let s1 := pulse_signal in
  let s2 := firstn 8 pulse_signal ++ [of_Z 1; of_Z 1; of_Z 1; of_Z 1] in
  0 < 4 /\ 0 <= 8 /\ List.length s1 = List.length s2 /\ (List.length s1 <= 12)%nat /\
  (forall i, Z.of_nat 0 * 4 <= i < Z.of_nat 0 * 4 + 8 -> aget s1 i = aget s2 i) /\
  exists t1 t2,
    detectPitch stub_fn stub_toString 12 s1 (of_Z 8) 4 8
      default_threshold default_minFreq default_maxFreq = Returns t1 /\
    detectPitch stub_fn stub_toString 12 s2 (of_Z 8) 4 8
      default_threshold default_minFreq default_maxFreq = Returns t2 /\
    List.length (frames t1) = List.length (frames t2) /\
    nth 0 (frames t1) unallocated = nth 0 (frames t2) unallocated.
Proof.
  cbv zeta.
  assert (H1 : 0 < 4) by lia. assert (H2 : 0 <= 8) by lia.
  assert (H3 : List.length pulse_signal
               = List.length (firstn 8 pulse_signal ++ [of_Z 1; of_Z 1; of_Z 1; of_Z 1]))
    by (vm_compute; reflexivity).
  assert (H4 : (List.length pulse_signal <= 12)%nat) by (vm_compute; lia).
  assert (H5 : forall i, Z.of_nat 0 * 4 <= i < Z.of_nat 0 * 4 + 8 ->
             aget pulse_signal i
             = aget (firstn 8 pulse_signal ++ [of_Z 1; of_Z 1; of_Z 1; of_Z 1]) i).
  { intros i Hi.
    assert (Hcases : i = 0 \/ i = 1 \/ i = 2 \/ i = 3 \/ i = 4 \/ i = 5 \/ i = 6 \/ i = 7)
      by lia.
    destruct Hcases as [->|[->|[->|[->|[->|[->|[->| ->]]]]]]]; vm_compute; reflexivity. }
  split; [exact H1|]. split; [exact H2|]. split; [exact H3|]. split; [exact H4|].
  split; [exact H5|].
  exact (detectPitch_frame_local stub_fn stub_toString 12 pulse_signal
           (firstn 8 pulse_signal ++ [of_Z 1; of_Z 1; of_Z 1; of_Z 1]) (of_Z 8) 4 8
           default_threshold default_minFreq default_maxFreq 0 H1 H2 H3 H4 H5).
Defined.
(** ** The whole correction *)

Lemma read_frames_alloc (fs : list PitchFrame) :
  read_frames fs (seq 0 (List.length fs)) = fs.
Proof.
  pose proof (map_nth_seq unallocated fs 0 (List.length fs) ltac:(lia)) as H.
  cbn [skipn] in H. rewrite firstn_all in H. exact H.
Qed.

Lemma map_aget_zrange (g : float -> float) (pre s : list float) :
  map (fun i => g (aget (pre ++ s) i))
      (zrange_from (Z.of_nat (List.length pre)) (List.length s))
  = map g s.
Proof.
  revert pre. induction s as [|x s IH]; intros pre; [reflexivity|].
  unfold zrange_from. cbn [List.length seq map].
  f_equal.
  - unfold aget. destruct (Z.ltb_spec (Z.of_nat (List.length pre) + Z.of_nat 0) 0); [lia|].
    replace (Z.to_nat (Z.of_nat (List.length pre) + Z.of_nat 0)) with (List.length pre) by lia.
    rewrite app_nth2, Nat.sub_diag by lia. reflexivity.
  - specialize (IH (pre ++ [x])). rewrite <- app_assoc in IH. cbn [app] in IH.
    rewrite <- IH. unfold zrange_from.
    rewrite <- seq_shift, !map_map. apply map_ext. intros k.
    rewrite length_app. cbn [List.length]. do 2 f_equal. lia.
Qed.

(** The blend of a signal with itself. *)
Definition blend (wetAmount dryAmount : float) (x : float) : float :=
  fround (fadd (fmul x wetAmount) (fmul x dryAmount)).

Lemma mix_self (wetAmount dryAmount : float) (signal : list float) :
  mix wetAmount dryAmount signal signal = map (blend wetAmount dryAmount) signal.
Proof.
  unfold mix, zrange.
  exact (map_aget_zrange (blend wetAmount dryAmount) [] signal).
Qed.

Lemma mix_length (wetAmount dryAmount : float) (signal corrected : list float) :
  List.length (mix wetAmount dryAmount signal corrected) = List.length signal.
Proof. unfold mix, zrange, zrange_from. rewrite !length_map, length_seq. reflexivity. Qed.

Section Pipeline.

Variables Math_log2 Math_exp Math_sin Math_cos : float -> float.
Variable Math_pow : float -> float -> float.
Variable Number_toString : float -> string.

Let correctPitch' :=
  correctPitch Math_log2 Math_exp Math_sin Math_cos Math_pow Number_toString.

(** When no frame of the detected track is voiced, nothing is shifted: the
    corrected signal is the input, and the output is its blend with
    itself. *)
Lemma correctPitch_unvoiced_track (fuel : nat) (inputSignal : list float)
    (sampleRate : float) (params : CorrectionParams) (track : PitchTrack) :
  fleb (tuneAmount params) pos_zero = false ->
  detectPitch Math_log2 Number_toString fuel inputSignal sampleRate 256 2048
    default_threshold default_minFreq default_maxFreq = Returns track ->
  Forall (fun f => voiced f = false) (frames track) ->
  let wetAmount := fdiv (tuneAmount params) (of_Z 100) in
  let dryAmount := fsub (of_Z 1) wetAmount in
  correctPitch' fuel inputSignal sampleRate params
  = Returns (map (blend wetAmount dryAmount) inputSignal).
Proof.
  intros Htune Hdetect Hunvoiced. cbv zeta.
  unfold correctPitch', correctPitch. rewrite Htune, Hdetect. cbn [bind].
  unfold alloc_frames, smoothPitchTrack.
  assert (Hnone : filter voiced (frames track) = []).
  { clear Hdetect. induction Hunvoiced as [|f fs Hf _ IH]; [reflexivity|].
    cbn [filter]. rewrite Hf. exact IH. }
  match goal with
  | |- context [read_frames ?h _] => assert (Hidle : h = frames track)
  end.
  { apply (smooth_run_idle Math_log2 Number_toString). intros i.
    rewrite neighborhood_of_values, read_frames_alloc.
    eapply Nat.le_lt_trans; [apply neighborhood_values_voiced|].
    rewrite Hnone. simpl. lia. }
  rewrite Hidle, read_frames_alloc.
  unfold findPitchMarks. rewrite marks_loop_skip.
  2:{ eapply Forall_impl; [|exact Hunvoiced]. intros f Hf. unfold tuned.
      rewrite Hf. reflexivity. }
  cbn [bind]. unfold psolaShift. cbn [List.length Nat.ltb Nat.leb bind].
  rewrite mix_self. reflexivity.
Qed.

End Pipeline.

(** X20: a call of [correctPitch] that returns gives a buffer of as many
    samples as the input has. *)
Theorem correctPitch_length
    (Math_log2 Math_exp Math_sin Math_cos : float -> float)
    (Math_pow : float -> float -> float) (Number_toString : float -> string)
    (fuel : nat) (inputSignal : list float) (sampleRate : float)
    (params : CorrectionParams) (output : list float) :
  correctPitch Math_log2 Math_exp Math_sin Math_cos Math_pow Number_toString
    fuel inputSignal sampleRate params = Returns output ->
  List.length output = List.length inputSignal.
Proof.
  unfold correctPitch.
  destruct (fleb (tuneAmount params) pos_zero); [intros H; injection H as <-; reflexivity|].
  destruct (detectPitch _ _ _ _ _ _ _ _ _ _) as [track| |]; cbn [bind]; try discriminate.
  destruct (alloc_frames (frames track)) as [h0 track_frames].
  destruct (smoothPitchTrack _ _ h0 track_frames _) as [h1 smoothed].
  destruct (findPitchMarks _ _ _ _ _) as [marks| |]; cbn [bind]; try discriminate.
  destruct (psolaShift _ _ _ _ _ _ _ _) as [corrected| |]; cbn [bind]; try discriminate.
  intros H; injection H as <-. apply mix_length.
Qed.

Lemma correctPitch_length_witness :
  correctPitch stub_fn stub_fn stub_fn stub_fn stub_pow stub_toString
    0 two_samples (of_Z 44100) half_wet
  = Returns (map (blend (lit 1 2) (lit 1 2)) two_samples) /\
  List.length (map (blend (lit 1 2) (lit 1 2)) two_samples) = List.length two_samples.
Proof.
  assert (H : correctPitch stub_fn stub_fn stub_fn stub_fn stub_pow stub_toString
                0 two_samples (of_Z 44100) half_wet
              = Returns (map (blend (lit 1 2) (lit 1 2)) two_samples))
    by (vm_compute; reflexivity).
  split; [exact H|].
  exact (correctPitch_length stub_fn stub_fn stub_fn stub_fn stub_pow stub_toString
           0 two_samples (of_Z 44100) half_wet _ H).
Defined.

(** X21: a signal of at most 2048 samples (one analysis window) has no
    frame, so nothing is detected and nothing is shifted: for a tune
    amount that is not at or below 0, [correctPitch] returns at once, and
    each output sample is the input sample blended with itself,
    [x * wet + x * dry] stored as binary32. *)
Theorem correctPitch_short_signal
    (Math_log2 Math_exp Math_sin Math_cos : float -> float)
    (Math_pow : float -> float -> float) (Number_toString : float -> string)
    (fuel : nat) (inputSignal : list float) (sampleRate : float)
    (params : CorrectionParams) :
  (List.length inputSignal <= 2048)%nat ->
  fleb (tuneAmount params) pos_zero = false ->
  let wetAmount := fdiv (tuneAmount params) (of_Z 100) in
  let dryAmount := fsub (of_Z 1) wetAmount in
  correctPitch Math_log2 Math_exp Math_sin Math_cos Math_pow Number_toString
    fuel inputSignal sampleRate params
  = Returns (map (fun x => fround (fadd (fmul x wetAmount) (fmul x dryAmount)))
               inputSignal).
Proof.
  intros Hshort Htune.
  apply (correctPitch_unvoiced_track Math_log2 Math_exp Math_sin Math_cos Math_pow
           Number_toString fuel inputSignal sampleRate params
           {| frames := []; sampleRate := sampleRate; hopSize := 256;
              medianPitch := pos_zero |}).
  - exact Htune.
  - unfold detectPitch.
    assert (Hloop : forall minPeriod maxPeriod,
              detect_loop Math_log2 Number_toString fuel inputSignal sampleRate 256 2048
                default_threshold minPeriod maxPeriod 0 = Returns []).
    { intros minPeriod maxPeriod.
      destruct fuel; cbn [detect_loop];
        destruct (Z.ltb_spec (0 + 2048) (Z.of_nat (List.length inputSignal)));
        try lia; reflexivity. }
    rewrite Hloop. reflexivity.
  - constructor.
Qed.

Lemma correctPitch_short_signal_witness :
  (List.length two_samples <= 2048)%nat /\
  fleb (tuneAmount half_wet) pos_zero = false /\
  let wetAmount := fdiv (tuneAmount half_wet) (of_Z 100) in
  let dryAmount := fsub (of_Z 1) wetAmount in
  correctPitch stub_fn stub_fn stub_fn stub_fn stub_pow stub_toString
    0 two_samples (of_Z 44100) half_wet
  = Returns (map (fun x => fround (fadd (fmul x wetAmount) (fmul x dryAmount)))
               two_samples).
Proof.
  assert (H1 : (List.length two_samples <= 2048)%nat) by (simpl; lia).
  assert (H2 : fleb (tuneAmount half_wet) pos_zero = false) by (vm_compute; reflexivity).
  split; [exact H1|]. split; [exact H2|].
  exact (correctPitch_short_signal stub_fn stub_fn stub_fn stub_fn stub_pow stub_toString
           0 two_samples (of_Z 44100) half_wet H1 H2).
Defined.

(** A number that is neither infinite nor NaN. *)
Definition is_finite (x : float) : Prop :=
  match x with
  | S754_zero _ | S754_finite _ _ _ => True
  | _ => False
  end.

Lemma blend_zero (wetAmount dryAmount x : float) :
  is_finite wetAmount -> is_finite dryAmount -> is_zero x ->
  is_zero (blend wetAmount dryAmount x).
Proof.
  unfold blend.
  destruct x as [sx|sx| |sx mx ex]; try contradiction.
  destruct wetAmount as [sw|sw| |sw mw ew], dryAmount as [sd|sd| |sd md ed];
    try contradiction; intros _ _ _;
    destruct sx; try destruct sw; try destruct sd; exact I.
Qed.

(** X22: silence stays silence.  For an all-zero input of any length, a
    tune amount not at or below 0 and finite wet and dry amounts
    ([tuneAmount / 100] and [1 - tuneAmount / 100]), [correctPitch]
    returns, within a fuel of the signal's length, a buffer of the same
    length that holds zeros only. *)
Theorem correctPitch_silence
    (Math_log2 Math_exp Math_sin Math_cos : float -> float)
    (Math_pow : float -> float -> float) (Number_toString : float -> string)
    (fuel : nat) (inputSignal : list float) (sampleRate : float)
    (params : CorrectionParams) :
  Forall is_zero inputSignal -> (List.length inputSignal <= fuel)%nat ->
  fleb (tuneAmount params) pos_zero = false ->
  is_finite (fdiv (tuneAmount params) (of_Z 100)) ->
  is_finite (fsub (of_Z 1) (fdiv (tuneAmount params) (of_Z 100))) ->
  exists output,
    correctPitch Math_log2 Math_exp Math_sin Math_cos Math_pow Number_toString
      fuel inputSignal sampleRate params = Returns output /\
    List.length output = List.length inputSignal /\
    Forall is_zero output.
Proof.
  intros Hzero Hfuel Htune Hwet Hdry.
  eexists. split.
  - eapply (correctPitch_unvoiced_track Math_log2 Math_exp Math_sin Math_cos Math_pow
              Number_toString fuel inputSignal sampleRate params).
    + exact Htune.
    + unfold detectPitch. rewrite detect_loop_returns by lia. reflexivity.
    + cbn [frames]. apply Forall_map, Forall_forall. intros center _.
      destruct (analyse_frame_silent Math_log2 Number_toString inputSignal sampleRate
                  (Z.to_nat (2048 / 2)) default_threshold
                  (Math_floor (fdiv sampleRate default_maxFreq))
                  (Math_ceil (fdiv sampleRate default_minFreq)) center Hzero)
        as [_ Hvoiced].
      rewrite Hvoiced. reflexivity.
  - split; [apply length_map|].
    apply Forall_map. eapply Forall_impl; [|exact Hzero].
    intros x Hx. apply blend_zero; assumption.
Qed.

Lemma correctPitch_silence_witness :
  Forall is_zero (repeat pos_zero 2400) /\
  (List.length (repeat pos_zero 2400) <= 2400)%nat /\
  fleb (tuneAmount half_wet) pos_zero = false /\
  is_finite (fdiv (tuneAmount half_wet) (of_Z 100)) /\
  is_finite (fsub (of_Z 1) (fdiv (tuneAmount half_wet) (of_Z 100))) /\
  exists output,
    correctPitch stub_fn stub_fn stub_fn stub_fn stub_pow stub_toString
      2400 (repeat pos_zero 2400) (of_Z 44100) half_wet = Returns output /\
    List.length output = List.length (repeat pos_zero 2400) /\
    Forall is_zero output.
Proof.
  assert (H1 : Forall is_zero (repeat pos_zero 2400)).
  { apply Forall_forall. intros x Hx. apply repeat_spec in Hx. subst x. exact I. }
  assert (H2 : (List.length (repeat pos_zero 2400) <= 2400)%nat)
    by (rewrite repeat_length; lia).
  assert (H3 : fleb (tuneAmount half_wet) pos_zero = false) by (vm_compute; reflexivity).
  assert (H4 : is_finite (fdiv (tuneAmount half_wet) (of_Z 100))) by (vm_compute; exact I).
  assert (H5 : is_finite (fsub (of_Z 1) (fdiv (tuneAmount half_wet) (of_Z 100))))
    by (vm_compute; exact I).
  split; [exact H1|]. split; [exact H2|]. split; [exact H3|]. split; [exact H4|].
  split; [exact H5|].
  exact (correctPitch_silence stub_fn stub_fn stub_fn stub_fn stub_pow stub_toString
           2400 (repeat pos_zero 2400) (of_Z 44100) half_wet H1 H2 H3 H4 H5).
Defined.

(** ** Humanize switched off *)

(** X23: with a humanize amount that is not above 0 no vibrato and no
    drift is added: the targets are the same whatever [Math.sin] and
    [Math.cos] compute. *)
Theorem computeTargetPitches_no_humanize
    (Math_log2 Math_exp : float -> float)
    (Math_sin1 Math_cos1 Math_sin2 Math_cos2 : float -> float)
    (Math_pow : float -> float -> float)
    (frames : list PitchFrame) (sampleRate : float) (hopSize : Z)
    (params : CorrectionParams) :
  fgtb (humanize params) pos_zero = false ->
  computeTargetPitches Math_log2 Math_exp Math_sin1 Math_cos1 Math_pow
    frames sampleRate hopSize params
  = computeTargetPitches Math_log2 Math_exp Math_sin2 Math_cos2 Math_pow
      frames sampleRate hopSize params.
Proof.
  intros Hhum. unfold computeTargetPitches.
  assert (Hoff : fgtb (fdiv (humanize params) (of_Z 100)) pos_zero = false).
  { change (of_Z 100) with (S754_finite false 7036874417766400 (-46)).
    apply fdiv_not_positive, Hhum. }
  generalize (retune_alpha Math_exp sampleRate hopSize params). intros alpha.
  generalize (mkRetune pos_zero false) 0.
  induction frames as [|frame rest IH]; intros st i; [reflexivity|].
  cbn [target_loop]. unfold target_step. rewrite Hoff.
  destruct (negb (voiced frame) || fleb (frequency frame) pos_zero).
  - rewrite IH. reflexivity.
  - rewrite IH. reflexivity.
Qed.

Lemma computeTargetPitches_no_humanize_witness :
  let params := {| retuneSpeed := of_Z 20; humanize := pos_zero; tuneAmount := of_Z 100 |} in
  fgtb (humanize params) pos_zero = false /\
  computeTargetPitches stub_fn stub_fn stub_fn stub_fn stub_pow
    pulse_frames (of_Z 8) 4 params
  = computeTargetPitches stub_fn stub_fn flat_cos flat_cos stub_pow
      pulse_frames (of_Z 8) 4 params.
Proof.
  cbv zeta.
  assert (H : fgtb (humanize {| retuneSpeed := of_Z 20; humanize := pos_zero;
                                tuneAmount := of_Z 100 |}) pos_zero = false)
    by reflexivity.
  split; [exact H|].
  exact (computeTargetPitches_no_humanize stub_fn stub_fn stub_fn stub_fn flat_cos flat_cos
           stub_pow pulse_frames (of_Z 8) 4 _ H).
Defined.

(** ** The derived fields of a frame *)

(** The MIDI fields of a frame agree with its frequency. *)
Definition midi_consistent (Math_log2 : float -> float) (f : PitchFrame) : Prop :=
  let midi := frequencyToMidi Math_log2 (frequency f) in
  midiNote f = Math_roundF midi /\ centsOff f = getCentsOff midi.

(** X24: in every frame of [detectPitch], [midiNote] and [centsOff] are
    those of the frame's frequency, and the note name is
    [midiToNoteName] of it when the frequency is above 0 and "-"
    otherwise. *)
Theorem detectPitch_derived_fields
    (Math_log2 : float -> float) (Number_toString : float -> string)
    (fuel : nat) (signal : list float) (rate : float) (hop windowSize : Z)
    (threshold minFreq maxFreq : float) :
  0 < hop -> 0 <= windowSize -> (List.length signal <= fuel)%nat ->
  exists track,
    detectPitch Math_log2 Number_toString fuel signal rate hop windowSize
      threshold minFreq maxFreq = Returns track /\
    Forall (fun f =>
              midi_consistent Math_log2 f /\
              noteName f
              = if fgtb (frequency f) pos_zero
                then midiToNoteName Number_toString
                       (frequencyToMidi Math_log2 (frequency f))
                else "-"%string)
           (frames track).
Proof.
  intros Hhop Hwin Hfuel. unfold detectPitch.
  rewrite detect_loop_returns by lia. cbn [bind].
  eexists. split; [reflexivity|]. cbn [frames].
  apply Forall_map, Forall_forall. intros center _.
  unfold midi_consistent, analyse_frame. cbn [frequency midiNote centsOff noteName].
  repeat split.
Qed.

Lemma detectPitch_derived_fields_witness :
  0 < 4 /\ 0 <= 8 /\ (List.length pulse_signal <= 12)%nat /\
  exists track,
    detectPitch stub_fn stub_toString 12 pulse_signal (of_Z 8) 4 8
      default_threshold default_minFreq default_maxFreq = Returns track /\
    Forall (fun f =>
              midi_consistent stub_fn f /\
              noteName f
              = if fgtb (frequency f) pos_zero
                then midiToNoteName stub_toString
                       (frequencyToMidi stub_fn (frequency f))
                else "-"%string)
           (frames track).
Proof.
  assert (H1 : 0 < 4) by lia. assert (H2 : 0 <= 8) by lia.
  assert (H3 : (List.length pulse_signal <= 12)%nat) by (vm_compute; lia).
  split; [exact H1|]. split; [exact H2|]. split; [exact H3|].
  exact (detectPitch_derived_fields stub_fn stub_toString 12 pulse_signal (of_Z 8) 4 8
           default_threshold default_minFreq default_maxFreq H1 H2 H3).
Defined.

(** X25: the smoother keeps [midiNote] and [centsOff] in step with the
    frequency: on a track of distinct frame objects whose frames have the
    MIDI fields of their frequencies, every frame still has them after
    the call, the shifted ones included. *)
Theorem smoothPitchTrack_keeps_midi_fields
    (Math_log2 : float -> float) (Number_toString : float -> string)
    (h : heap) (track_frames : list ref) (medianWindowSize : Z) :
  well_formed h track_frames ->
  Forall (midi_consistent Math_log2) (read_frames h track_frames) ->
  let h' := fst (smoothPitchTrack Math_log2 Number_toString h track_frames
                   medianWindowSize) in
  Forall (midi_consistent Math_log2) (read_frames h' track_frames).
Proof.
  intros Hwf Hin. cbv zeta. unfold smoothPitchTrack. cbn [fst].
  change (fold_left (smooth_at Math_log2 Number_toString track_frames (medianWindowSize / 2))
            (seq 0 (List.length track_frames)) h)
    with (smooth_run Math_log2 Number_toString track_frames (medianWindowSize / 2) h
            (List.length track_frames)).
  apply Forall_forall. intros g Hg.
  destruct (In_nth _ g unallocated Hg) as (i & Hi & <-).
  unfold read_frames in Hi. rewrite length_map in Hi.
  pose proof (smoothed_frame_value Math_log2 Number_toString h track_frames
                (medianWindowSize / 2) i Hwf Hi) as Hval.
  cbv zeta in Hval. rewrite Hval. clear Hval.
  match goal with |- context [if ?c then _ else _] => destruct c end.
  - unfold midi_consistent, corrected_frame. cbn [frequency midiNote centsOff].
    split; reflexivity.
  - rewrite Forall_forall in Hin. apply Hin, nth_In.
    unfold read_frames. rewrite length_map. exact Hi.
Qed.

Lemma smoothPitchTrack_keeps_midi_fields_witness :
  let note (hz : Z) : PitchFrame :=
    {| time := pos_zero; frequency := of_Z hz; confidence := of_Z 1;
       midiNote := Math_roundF (frequencyToMidi stub_fn (of_Z hz));
       centsOff := getCentsOff (frequencyToMidi stub_fn (of_Z hz));
       noteName := "-"%string; voiced := true |} in
  let h := [note 400; note 140; note 210] in
  well_formed h three_frames_track /\
  Forall (midi_consistent stub_fn) (read_frames h three_frames_track) /\
  Forall (midi_consistent stub_fn)
    (read_frames (fst (smoothPitchTrack stub_fn stub_toString h three_frames_track 5))
       three_frames_track).
Proof.
  cbv zeta.
  set (note := fun hz : Z =>
    {| time := pos_zero; frequency := of_Z hz; confidence := of_Z 1;
       midiNote := Math_roundF (frequencyToMidi stub_fn (of_Z hz));
       centsOff := getCentsOff (frequencyToMidi stub_fn (of_Z hz));
       noteName := "-"%string; voiced := true |}).
  assert (H1 : well_formed [note 400; note 140; note 210] three_frames_track).
  { split.
    - repeat constructor; simpl; intuition lia.
    - repeat constructor; simpl; lia. }
  assert (H2 : Forall (midi_consistent stub_fn)
                 (read_frames [note 400; note 140; note 210] three_frames_track)).
  { repeat constructor. }
  split; [exact H1|]. split; [exact H2|].
  exact (smoothPitchTrack_keeps_midi_fields stub_fn stub_toString
           [note 400; note 140; note 210] three_frames_track 5 H1 H2).
Defined.
